(** * coach-ai: the markdown extraction engine of [main.go]

    A shallow embedding of the agent extractor ([parseMarkdown] and the
    functions it calls, and the loop of [readAgentFiles] that feeds it)
    together with the parts of the Go standard library it relies on:
    [strings], [unicode/utf8], [unicode], [regexp] (for the seven patterns
    the program compiles) and [net/url].

    Go strings are byte sequences; they are modelled as [list ascii]. *)

From Stdlib Require Import Ascii String ZArith Lia Bool Sorted.
From stdpp Require Import gmap strings list.

Local Open Scope Z_scope.

Abbreviation gostring := (list ascii).

(** A Go string literal. *)
Definition go (s : string) : gostring := list_ascii_of_string s.

(** The numeric value of a byte, and the byte of a number below 256. *)
Definition byte (c : ascii) : Z := Z.of_N (N_of_ascii c).
Definition chr (z : Z) : ascii := ascii_of_N (Z.to_N z).

Definition between (lo : Z) (x : Z) (hi : Z) : bool := (lo <=? x) && (x <=? hi).

(** Go's slice expressions [s[i:]], [s[:j]] on in-range indices. *)
Definition slice_from (s : gostring) (i : nat) : gostring := drop i s.
Definition slice_to (s : gostring) (j : nat) : gostring := take j s.
Definition slice (s : gostring) (i j : nat) : gostring := take (j - i) (drop i s).

(** The Unicode case tables, for the runes above ASCII.  The program only
    reaches them through [strings.ToUpper] and [strings.ToLower]; the tables
    themselves are data of the Go distribution. *)
Class CaseMapping := {
  upper_rune : Z -> Z;
  lower_rune : Z -> Z
}.

(** ** unicode/utf8 *)
Module utf8.

Definition RuneError : Z := 65533.
Definition RuneSelf : Z := 128.
Definition MaxRune : Z := 1114111.

(** [DecodeRuneInString]: the first rune of [s] and its width in bytes;
    an invalid or short encoding is [(RuneError, 1)], the empty string
    [(RuneError, 0)]. *)
Definition cont (c : ascii) : bool := between 128 (byte c) 191.

Definition DecodeRuneInString (s : gostring) : Z * nat :=
  match s with
  | [] => (RuneError, 0%nat)
  | c0 :: t =>
    let b0 := byte c0 in
    if b0 <? 128 then (b0, 1%nat)
    else if between 194 b0 223 then
      match t with
      | c1 :: _ =>
        if cont c1 then (Z.lor (Z.shiftl (Z.land b0 31) 6) (Z.land (byte c1) 63), 2%nat)
        else (RuneError, 1%nat)
      | _ => (RuneError, 1%nat)
      end
    else if between 224 b0 239 then
      match t with
      | c1 :: c2 :: _ =>
        let lo := if b0 =? 224 then 160 else 128 in
        let hi := if b0 =? 237 then 159 else 191 in
        if between lo (byte c1) hi && cont c2 then
          (Z.lor (Z.shiftl (Z.land b0 15) 12)
             (Z.lor (Z.shiftl (Z.land (byte c1) 63) 6) (Z.land (byte c2) 63)), 3%nat)
        else (RuneError, 1%nat)
      | _ => (RuneError, 1%nat)
      end
    else if between 240 b0 244 then
      match t with
      | c1 :: c2 :: c3 :: _ =>
        let lo := if b0 =? 240 then 144 else 128 in
        let hi := if b0 =? 244 then 143 else 191 in
        if between lo (byte c1) hi && cont c2 && cont c3 then
          (Z.lor (Z.shiftl (Z.land b0 7) 18)
             (Z.lor (Z.shiftl (Z.land (byte c1) 63) 12)
                (Z.lor (Z.shiftl (Z.land (byte c2) 63) 6) (Z.land (byte c3) 63))), 4%nat)
        else (RuneError, 1%nat)
      | _ => (RuneError, 1%nat)
      end
    else (RuneError, 1%nat)
  end.

(** [RuneStart]: the byte is not a continuation byte. *)
Definition RuneStart (c : ascii) : bool := negb (Z.land (byte c) 192 =? 128).

(** The start index the backwards scan of [DecodeLastRuneInString] settles
    on: the nearest rune start among the (at most three) bytes before the
    last one, or one below the limit when there is none. *)
Fixpoint scan_back (s : gostring) (start : Z) (lim : Z) (n : nat) : Z :=
  match n with
  | O => start
  | S n' =>
    if start <? lim then start
    else if RuneStart (nth (Z.to_nat start) s "000"%char) then start
    else scan_back s (start - 1) lim n'
  end.

Definition DecodeLastRuneInString (s : gostring) : Z * nat :=
  let e := Z.of_nat (length s) in
  if e =? 0 then (RuneError, 0%nat)
  else
    let r := byte (nth (Z.to_nat (e - 1)) s "000"%char) in
    if r <? RuneSelf then (r, 1%nat)
    else
      let lim := Z.max 0 (e - 4) in
      let start := Z.max 0 (scan_back s (e - 2) lim 4) in
      let '(r', size) := DecodeRuneInString (drop (Z.to_nat start) s) in
      if start + Z.of_nat size =? e then (r', size) else (RuneError, 1%nat).

(** [AppendRune] / [WriteRune]: surrogates and values out of range are
    written as [RuneError]. *)
Definition enc3 (r : Z) : gostring :=
  [chr (Z.lor 224 (Z.shiftr r 12));
   chr (Z.lor 128 (Z.land (Z.shiftr r 6) 63));
   chr (Z.lor 128 (Z.land r 63))].

Definition EncodeRune (r : Z) : gostring :=
  if between 0 r 127 then [chr r]
  else if between 128 r 2047 then
    [chr (Z.lor 192 (Z.shiftr r 6)); chr (Z.lor 128 (Z.land r 63))]
  else if (r <? 0) || (MaxRune <? r) || between 55296 r 57343 then enc3 RuneError
  else if r <=? 65535 then enc3 r
  else
    [chr (Z.lor 240 (Z.shiftr r 18));
     chr (Z.lor 128 (Z.land (Z.shiftr r 12) 63));
     chr (Z.lor 128 (Z.land (Z.shiftr r 6) 63));
     chr (Z.lor 128 (Z.land r 63))].

(** The runes a [for _, c := range s] loop sees. *)
Fixpoint runes_skip (skip : nat) (s : gostring) : list Z :=
  match s with
  | [] => []
  | _ :: t =>
    match skip with
    | S k => runes_skip k t
    | O => let '(r, w) := DecodeRuneInString s in r :: runes_skip (w - 1) t
    end
  end.

Definition runes (s : gostring) : list Z := runes_skip 0 s.

End utf8.

(** ** unicode *)
Module unicode.

(** [unicode.IsSpace]: the Latin-1 spaces and the White_Space property. *)
Definition IsSpace (r : Z) : bool :=
  if r <=? 255 then
    between 9 r 13 || (r =? 32) || (r =? 133) || (r =? 160)
  else
    (r =? 5760) || between 8192 r 8202 || (r =? 8232) || (r =? 8233)
    || (r =? 8239) || (r =? 8287) || (r =? 12288).

Definition ToUpper `{CaseMapping} (r : Z) : Z :=
  if r <=? 127 then (if between 97 r 122 then r - 32 else r) else upper_rune r.

Definition ToLower `{CaseMapping} (r : Z) : Z :=
  if r <=? 127 then (if between 65 r 90 then r + 32 else r) else lower_rune r.

End unicode.

(** ** strings *)
Module GoStrings.

Fixpoint HasPrefix (s prefix : gostring) {struct prefix} : bool :=
  match prefix, s with
  | [], _ => true
  | p :: prefix', c :: s' => bool_decide (c = p) && HasPrefix s' prefix'
  | _ :: _, [] => false
  end.

Definition HasSuffix (s suffix : gostring) : bool :=
  HasPrefix (rev s) (rev suffix).

(** [strings.Index]: the index of the first instance of [substr] in [s];
    Go's [-1] is [None]. *)
Fixpoint Index (s substr : gostring) : option nat :=
  if HasPrefix s substr then Some 0%nat
  else match s with
       | [] => None
       | _ :: s' => S <$> Index s' substr
       end.

Definition Contains (s substr : gostring) : bool :=
  bool_decide (is_Some (Index s substr)).

(** [strings.Cut]: the text before and after the first instance of [sep]. *)
Definition Cut (s sep : gostring) : gostring * gostring * bool :=
  match Index s sep with
  | Some i => (take i s, drop (i + length sep) s, true)
  | None => (s, [], false)
  end.

(** [strings.LastIndex], for a separator of one byte. *)
Fixpoint LastIndexByte (s : gostring) (c : ascii) : option nat :=
  match s with
  | [] => None
  | x :: s' =>
    match LastIndexByte s' c with
    | Some i => Some (S i)
    | None => if bool_decide (x = c) then Some 0%nat else None
    end
  end.

(** [strings.Count] of the non-overlapping instances of a non-empty
    [substr]. *)
Fixpoint Count_fuel (fuel : nat) (s substr : gostring) : nat :=
  match fuel with
  | O => 0%nat
  | S fuel' =>
    match Index s substr with
    | Some i => S (Count_fuel fuel' (drop (i + length substr) s) substr)
    | None => 0%nat
    end
  end.

Definition Count (s substr : gostring) : nat := Count_fuel (length s) s substr.

(** [strings.Split] by a non-empty separator: always at least one piece. *)
Fixpoint Split_fuel (fuel : nat) (s sep : gostring) : list gostring :=
  match fuel with
  | O => [s]
  | S fuel' =>
    match Index s sep with
    | Some i => take i s :: Split_fuel fuel' (drop (i + length sep) s) sep
    | None => [s]
    end
  end.

Definition Split (s sep : gostring) : list gostring := Split_fuel (length s) s sep.

Fixpoint Join (elems : list gostring) (sep : gostring) : gostring :=
  match elems with
  | [] => []
  | [e] => e
  | e :: rest => e ++ sep ++ Join rest sep
  end.

(** [strings.Map]: every rune is decoded, mapped and written back; a
    negative result drops the rune, an invalid byte reads as [RuneError]. *)
Definition Map (mapping : Z -> Z) (s : gostring) : gostring :=
  flat_map (fun r => let r' := mapping r in
                     if r' <? 0 then [] else utf8.EncodeRune r')
           (utf8.runes s).

Definition isASCII (s : gostring) : bool :=
  forallb (fun c => byte c <? utf8.RuneSelf) s.

Definition upper_byte (c : ascii) : ascii :=
  if between 97 (byte c) 122 then chr (byte c - 32) else c.

Definition lower_byte (c : ascii) : ascii :=
  if between 65 (byte c) 90 then chr (byte c + 32) else c.

Definition ToUpper `{CaseMapping} (s : gostring) : gostring :=
  if isASCII s then map upper_byte s else Map unicode.ToUpper s.

Definition ToLower `{CaseMapping} (s : gostring) : gostring :=
  if isASCII s then map lower_byte s else Map unicode.ToLower s.

(** [strings.TrimLeftFunc] and [strings.TrimRightFunc] with
    [unicode.IsSpace]; [TrimSpace] is their composition (its ASCII fast
    path gives the same result). *)
Fixpoint TrimLeft_fuel (fuel : nat) (s : gostring) : gostring :=
  match fuel with
  | O => s
  | S fuel' =>
    let '(r, w) := utf8.DecodeRuneInString s in
    match w with
    | O => s
    | _ => if unicode.IsSpace r then TrimLeft_fuel fuel' (drop w s) else s
    end
  end.

Fixpoint TrimRight_fuel (fuel : nat) (s : gostring) : gostring :=
  match fuel with
  | O => s
  | S fuel' =>
    let '(r, w) := utf8.DecodeLastRuneInString s in
    match w with
    | O => s
    | _ => if unicode.IsSpace r then TrimRight_fuel fuel' (take (length s - w) s) else s
    end
  end.

Definition TrimLeftSpace (s : gostring) : gostring := TrimLeft_fuel (length s) s.
Definition TrimRightSpace (s : gostring) : gostring := TrimRight_fuel (length s) s.
Definition TrimSpace (s : gostring) : gostring := TrimRightSpace (TrimLeftSpace s).

(** [strings.Fields]: the maximal runs of non-space runes. *)
Fixpoint Fields_fuel (fuel : nat) (s cur : gostring) : list gostring :=
  let flush := match cur with [] => [] | _ => [cur] end in
  match fuel with
  | O => flush
  | S fuel' =>
    let '(r, w) := utf8.DecodeRuneInString s in
    match w with
    | O => flush
    | _ =>
      if unicode.IsSpace r then flush ++ Fields_fuel fuel' (drop w s) []
      else Fields_fuel fuel' (drop w s) (cur ++ take w s)
    end
  end.

Definition Fields (s : gostring) : list gostring := Fields_fuel (S (length s)) s [].

End GoStrings.

(** ** regexp

    The program compiles seven patterns, all of them sequences of literals,
    character classes, repeated character classes, capture parentheses and
    line anchors.  [run] is the backtracking matcher whose first success is
    the leftmost-first match Go's [regexp] package returns.  The classes
    are byte classes: every byte a pattern names is ASCII and an ASCII byte
    is always a rune of its own, so [.] (any rune but a newline) and the
    negated classes cover the same spans byte by byte. *)
Module regexp.

Inductive item :=
| Lit (c : ascii)
| Cls (p : ascii -> bool)
| Rep (greedy : bool) (min : nat) (p : ascii -> bool)
| Open (g : nat)
| Close (g : nat)
| Bol (multi : bool)
| Eol (multi : bool).

(** Capture registers: where each open group started, and the span of
    each closed group (most recent first). *)
Record caps := Caps {
  opened : list (nat * nat);
  closed : list (nat * (nat * nat))
}.

Definition no_caps : caps := Caps [] [].

Fixpoint assoc {A} (k : nat) (l : list (nat * A)) : option A :=
  match l with
  | [] => None
  | (k', v) :: l' => if (k' =? k)%nat then Some v else assoc k l'
  end.

Definition open_group (g pos : nat) (st : caps) : caps :=
  Caps ((g, pos) :: opened st) (closed st).

Definition close_group (g pos : nat) (st : caps) : caps :=
  match assoc g (opened st) with
  | Some b => Caps (opened st) ((g, (b, pos)) :: closed st)
  | None => st
  end.

Definition newline : ascii := "010"%char.

Definition at_bol (multi : bool) (prev : option ascii) : bool :=
  match prev with
  | None => true
  | Some c => multi && bool_decide (c = newline)
  end.

Definition at_eol (multi : bool) (s : gostring) : bool :=
  match s with
  | [] => true
  | c :: _ => multi && bool_decide (c = newline)
  end.

(** A repeated class: [need] more bytes are required; the greedy form
    tries one more byte before the continuation [k], the lazy form the
    continuation first. *)
Fixpoint rep (greedy : bool) (p : ascii -> bool)
    (k : option ascii -> nat -> gostring -> caps -> option (nat * caps))
    (s : gostring) (need : nat) (prev : option ascii) (pos : nat) (st : caps)
    {struct s} : option (nat * caps) :=
  let stop := match need with O => k prev pos s st | S _ => None end in
  let more :=
    match s with
    | x :: s' => if p x then rep greedy p k s' (pred need) (Some x) (S pos) st else None
    | [] => None
    end in
  if greedy
  then match more with Some r => Some r | None => stop end
  else match stop with Some r => Some r | None => more end.

(** [run re prev pos s st]: match [re] against [s], which starts at
    offset [pos] of the text and is preceded by the byte [prev]. *)
Fixpoint run (re : list item)
  : option ascii -> nat -> gostring -> caps -> option (nat * caps) :=
  match re with
  | [] => fun _ pos _ st => Some (pos, st)
  | it :: re' =>
    let k := run re' in
    match it with
    | Lit c => fun _ pos s st =>
        match s with
        | x :: s' => if bool_decide (x = c) then k (Some x) (S pos) s' st else None
        | [] => None
        end
    | Cls p => fun _ pos s st =>
        match s with
        | x :: s' => if p x then k (Some x) (S pos) s' st else None
        | [] => None
        end
    | Rep greedy min p => fun prev pos s st => rep greedy p k s min prev pos st
    | Open g => fun prev pos s st => k prev pos s (open_group g pos st)
    | Close g => fun prev pos s st => k prev pos s (close_group g pos st)
    | Bol multi => fun prev pos s st => if at_bol multi prev then k prev pos s st else None
    | Eol multi => fun prev pos s st => if at_eol multi s then k prev pos s st else None
    end
  end.

(** The leftmost match at or after [pos]: its start, its end and the
    captures. *)
Fixpoint search (re : list item) (prev : option ascii) (pos : nat) (s : gostring)
  : option (nat * nat * caps) :=
  match run re prev pos s no_caps with
  | Some (e, st) => Some (pos, e, st)
  | None =>
    match s with
    | [] => None
    | c :: s' => search re (Some c) (S pos) s'
    end
  end.

(** The strings of a match: the whole match, then groups [1..ngroups]
    (a group that did not take part is empty). *)
Definition submatches (text : gostring) (ngroups : nat) (m : nat * nat * caps)
  : list gostring :=
  let '(b, e, st) := m in
  slice text b e ::
  map (fun g => match assoc g (closed st) with
                | Some (gb, ge) => slice text gb ge
                | None => []
                end) (seq 1 ngroups).

Definition prev_at (text : gostring) (pos : nat) : option ascii :=
  match pos with
  | O => None
  | S p => text !! p
  end.

Definition search_at (re : list item) (text : gostring) (pos : nat) :=
  search re (prev_at text pos) pos (drop pos text).

Definition MatchString (re : list item) (text : gostring) : bool :=
  bool_decide (is_Some (search_at re text 0)).

Definition FindStringSubmatch (re : list item) (ngroups : nat) (text : gostring)
  : option (list gostring) :=
  submatches text ngroups <$> search_at re text 0.

(** Successive non-overlapping matches.  None of the patterns matches the
    empty string; the step after an empty match is one byte. *)
Fixpoint find_all (fuel : nat) (re : list item) (text : gostring) (pos : nat)
  : list (nat * nat * caps) :=
  match fuel with
  | O => []
  | S fuel' =>
    match search_at re text pos with
    | Some (b, e, st) =>
      (b, e, st) :: find_all fuel' re text (if (e =? b)%nat then S e else e)
    | None => []
    end
  end.

Definition FindAll (re : list item) (text : gostring) : list (nat * nat * caps) :=
  find_all (S (length text)) re text 0.

Definition FindAllStringSubmatch (re : list item) (ngroups : nat) (text : gostring)
  : list (list gostring) :=
  map (submatches text ngroups) (FindAll re text).

(** A replacement template: literal text and [$n] references. *)
Inductive tpl := TLit (s : gostring) | TGroup (g : nat).

Definition expand (template : list tpl) (subs : list gostring) : gostring :=
  flat_map (fun t => match t with
                     | TLit s => s
                     | TGroup g => default [] (subs !! g)
                     end) template.

Fixpoint replace_matches (text : gostring) (ngroups : nat) (template : list tpl)
    (pos : nat) (ms : list (nat * nat * caps)) : gostring :=
  match ms with
  | [] => drop pos text
  | (b, e, st) :: ms' =>
    slice text pos b ++ expand template (submatches text ngroups (b, e, st))
      ++ replace_matches text ngroups template e ms'
  end.

Definition ReplaceAllString (re : list item) (ngroups : nat) (text : gostring)
    (template : list tpl) : gostring :=
  replace_matches text ngroups template 0 (FindAll re text).

(** The classes of the patterns. *)
Definition dot (c : ascii) : bool := negb (bool_decide (c = newline)).
(** [\s] is [[\t\n\f\r ]]. *)
Definition space (c : ascii) : bool :=
  let b := byte c in (b =? 9) || (b =? 10) || (b =? 12) || (b =? 13) || (b =? 32).
Definition digit (c : ascii) : bool := between 48 (byte c) 57.
Definition isnt (x : ascii) (c : ascii) : bool := negb (bool_decide (c = x)).

Definition lits (s : string) : list item := map Lit (go s).

End regexp.

(** ** net/url: [Parse] and the [String] method of [URL]

    A parse error is [None]. *)
Module url.

Inductive encoding :=
| encodePath
| encodePathSegment
| encodeHost
| encodeZone
| encodeUserPassword
| encodeQueryComponent
| encodeFragment.

Definition encoding_eqb (a b : encoding) : bool :=
  match a, b with
  | encodePath, encodePath | encodePathSegment, encodePathSegment
  | encodeHost, encodeHost | encodeZone, encodeZone
  | encodeUserPassword, encodeUserPassword
  | encodeQueryComponent, encodeQueryComponent
  | encodeFragment, encodeFragment => true
  | _, _ => false
  end.

Record Userinfo := mkUserinfo {
  username : gostring;
  password : gostring;
  passwordSet : bool
}.

Record URL := mkURL {
  Scheme : gostring;
  Opaque : gostring;
  User : option Userinfo;
  Host : gostring;
  Path : gostring;
  RawPath : gostring;
  OmitHost : bool;
  ForceQuery : bool;
  RawQuery : gostring;
  Fragment : gostring;
  RawFragment : gostring
}.

Definition is_in (c : ascii) (set : string) : bool :=
  bool_decide (c ∈ go set).

Definition isalnum (c : ascii) : bool :=
  let b := byte c in between 97 b 122 || between 65 b 90 || between 48 b 57.

Definition ishex (c : ascii) : bool :=
  let b := byte c in between 48 b 57 || between 97 b 102 || between 65 b 70.

Definition unhex (c : ascii) : Z :=
  let b := byte c in
  if between 48 b 57 then b - 48
  else if between 97 b 102 then b - 97 + 10
  else if between 65 b 70 then b - 65 + 10
  else 0.

(** [shouldEscape]: must the byte be escaped when it appears in the given
    part of a URL. *)
Definition shouldEscape (c : ascii) (mode : encoding) : bool :=
  if isalnum c then false
  else if (encoding_eqb mode encodeHost || encoding_eqb mode encodeZone)
          && is_in c "!$&'()*+,;=:[]<>" then false
  else if (encoding_eqb mode encodeHost || encoding_eqb mode encodeZone)
          && bool_decide (c = "034"%char) then false
  else if is_in c "-_.~" then false
  else if is_in c "$&+,/:;=?@" then
    match mode with
    | encodePath => bool_decide (c = "?"%char)
    | encodePathSegment => is_in c "/;,?"
    | encodeUserPassword => is_in c "@/?:"
    | encodeQueryComponent => true
    | encodeFragment => false
    | _ => true
    end
  else if encoding_eqb mode encodeFragment && is_in c "!()*" then false
  else true.

Definition percent : ascii := "%"%char.

(** [unescape]: the validity checks and the decoding, in one pass. *)
Fixpoint unescape (s : gostring) (mode : encoding) : option gostring :=
  match s with
  | [] => Some []
  | c :: t =>
    if bool_decide (c = percent) then
      match t with
      | h1 :: h2 :: rest =>
        let v := Z.lor (Z.shiftl (unhex h1) 4) (unhex h2) in
        let is25 := bool_decide (h1 = "2"%char) && bool_decide (h2 = "5"%char) in
        if negb (ishex h1 && ishex h2) then None
        else if encoding_eqb mode encodeHost && (unhex h1 <? 8) && negb is25 then None
        else if encoding_eqb mode encodeZone && negb is25 && negb (v =? 32)
                && shouldEscape (chr v) encodeHost then None
        else (chr v ::.) <$> unescape rest mode
      | _ => None
      end
    else if bool_decide (c = "+"%char) then
      ((if encoding_eqb mode encodeQueryComponent then " "%char else c) ::.)
        <$> unescape t mode
    else if (encoding_eqb mode encodeHost || encoding_eqb mode encodeZone)
            && (byte c <? 128) && shouldEscape c encodeHost then None
    else (c ::.) <$> unescape t mode
  end.

Definition upperhex (n : Z) : ascii :=
  if n <? 10 then chr (48 + n) else chr (65 + n - 10).

Definition escape_byte (c : ascii) (mode : encoding) : gostring :=
  if bool_decide (c = " "%char) && encoding_eqb mode encodeQueryComponent then ["+"%char]
  else if shouldEscape c mode then
    [percent; upperhex (Z.shiftr (byte c) 4); upperhex (Z.land (byte c) 15)]
  else [c].

Definition escape (s : gostring) (mode : encoding) : gostring :=
  flat_map (fun c => escape_byte c mode) s.

(** [validEncoded]: is [s] a valid encoded path or fragment. *)
Definition validEncoded (s : gostring) (mode : encoding) : bool :=
  forallb (fun c => is_in c "!$&'()*+,;=:@" || is_in c "[]"
                    || bool_decide (c = percent) || negb (shouldEscape c mode)) s.

Definition stringContainsCTLByte (s : gostring) : bool :=
  existsb (fun c => (byte c <? 32) || (byte c =? 127)) s.

Inductive scheme_result :=
| SchemeError
| SchemeOk (scheme rest : gostring).

(** [getScheme]: a leading [scheme:], if the text up to the first colon
    is a valid scheme name. *)
Fixpoint getScheme_from (rawURL : gostring) (i : nat) (s : gostring) : scheme_result :=
  match s with
  | [] => SchemeOk [] rawURL
  | c :: s' =>
    let b := byte c in
    if between 97 b 122 || between 65 b 90 then getScheme_from rawURL (S i) s'
    else if between 48 b 57 || is_in c "+-." then
      match i with
      | O => SchemeOk [] rawURL
      | _ => getScheme_from rawURL (S i) s'
      end
    else if bool_decide (c = ":"%char) then
      match i with
      | O => SchemeError
      | _ => SchemeOk (take i rawURL) s'
      end
    else SchemeOk [] rawURL
  end.

Definition getScheme (rawURL : gostring) : scheme_result :=
  getScheme_from rawURL 0 rawURL.

Definition validOptionalPort (port : gostring) : bool :=
  match port with
  | [] => true
  | c :: digits =>
    bool_decide (c = ":"%char) && forallb (fun d => between 48 (byte d) 57) digits
  end.

Definition validUserinfo (s : gostring) : bool :=
  forallb (fun c => isalnum c || is_in c "-._:~!$&'()*+,;=%@") s.

(** [parseHost]: the host in its unescaped form; a bracketed IP literal
    keeps its brackets and may carry a [%25zone]. *)
Definition parseHost (host : gostring) : option gostring :=
  let plain := unescape host encodeHost in
  if GoStrings.HasPrefix host (go "[") then
    match GoStrings.LastIndexByte host "]"%char with
    | None => None
    | Some i =>
      if negb (validOptionalPort (drop (S i) host)) then None
      else
        match GoStrings.Index (take i host) (go "%25") with
        | Some zone =>
          host1 ← unescape (take zone host) encodeHost;
          host2 ← unescape (slice host zone i) encodeZone;
          host3 ← unescape (drop i host) encodeHost;
          Some (host1 ++ host2 ++ host3)
        | None => plain
        end
    end
  else
    match GoStrings.LastIndexByte host ":"%char with
    | Some i => if validOptionalPort (drop i host) then plain else None
    | None => plain
    end.

Definition parseAuthority (authority : gostring) : option (option Userinfo * gostring) :=
  match GoStrings.LastIndexByte authority "@"%char with
  | None => host ← parseHost authority; Some (None, host)
  | Some i =>
    host ← parseHost (drop (S i) authority);
    let userinfo := take i authority in
    if negb (validUserinfo userinfo) then None
    else if negb (GoStrings.Contains userinfo (go ":")) then
      name ← unescape userinfo encodeUserPassword;
      Some (Some (mkUserinfo name [] false), host)
    else
      let '(name, pass, _) := GoStrings.Cut userinfo (go ":") in
      name' ← unescape name encodeUserPassword;
      pass' ← unescape pass encodeUserPassword;
      Some (Some (mkUserinfo name' pass' true), host)
  end.

(** [setPath]: [RawPath] is kept only when it differs from the default
    encoding of [Path]. *)
Definition setPath (p : gostring) : option (gostring * gostring) :=
  path ← unescape p encodePath;
  Some (path, if bool_decide (p = escape path encodePath) then [] else p).

Definition setFragment (f : gostring) : option (gostring * gostring) :=
  frag ← unescape f encodeFragment;
  Some (frag, if bool_decide (f = escape frag encodeFragment) then [] else f).

Definition empty_URL : URL := mkURL [] [] None [] [] [] false false [] [] [].

(** The query of [rest]: a lone trailing [?] forces an empty query, else
    the query is what follows the first [?]. *)
Definition split_query (rest : gostring) : gostring * bool * gostring :=
  if GoStrings.HasSuffix rest (go "?")
     && bool_decide (GoStrings.Count rest (go "?") = 1%nat)
  then (take (length rest - 1) rest, true, [])
  else let '(r, q, _) := GoStrings.Cut rest (go "?") in (r, false, q).

(** The authority of a [rest] that starts with [//], and the path after
    it. *)
Definition split_authority (rest : gostring) : gostring * gostring :=
  let authority := drop 2 rest in
  match GoStrings.Index authority (go "/") with
  | Some i => (take i authority, drop i authority)
  | None => (authority, [])
  end.

(** [parse rawURL false]: a URL without its fragment. *)
Definition parse (rawURL : gostring) : option URL :=
  if stringContainsCTLByte rawURL then None
  else if bool_decide (rawURL = go "*") then
    Some (mkURL [] [] None [] (go "*") [] false false [] [] [])
  else
    match getScheme rawURL with
    | SchemeError => None
    | SchemeOk scheme0 rest0 =>
      let scheme := map GoStrings.lower_byte scheme0 in
      let '(rest, force, query) := split_query rest0 in
      let has_scheme := negb (bool_decide (scheme = [])) in
      if negb (GoStrings.HasPrefix rest (go "/")) && has_scheme then
        Some (mkURL scheme rest None [] [] [] false force query [] [])
      else if negb (GoStrings.HasPrefix rest (go "/"))
              && GoStrings.Contains (GoStrings.Cut rest (go "/")).1.1 (go ":") then None
      else if (has_scheme || negb (GoStrings.HasPrefix rest (go "///")))
              && GoStrings.HasPrefix rest (go "//") then
        let '(authority, rest') := split_authority rest in
        '(user, host) ← parseAuthority authority;
        '(path, rawpath) ← setPath rest';
        Some (mkURL scheme [] user host path rawpath false force query [] [])
      else
        let omit := has_scheme && GoStrings.HasPrefix rest (go "/") in
        '(path, rawpath) ← setPath rest;
        Some (mkURL scheme [] None [] path rawpath omit force query [] [])
    end.

Definition Parse (rawURL : gostring) : option URL :=
  let '(u, frag, _) := GoStrings.Cut rawURL (go "#") in
  url ← parse u;
  match frag with
  | [] => Some url
  | _ =>
    '(f, rawf) ← setFragment frag;
    Some (mkURL (Scheme url) (Opaque url) (User url) (Host url) (Path url)
                (RawPath url) (OmitHost url) (ForceQuery url) (RawQuery url) f rawf)
  end.

Definition EscapedPath (u : URL) : gostring :=
  if negb (bool_decide (RawPath u = [])) && validEncoded (RawPath u) encodePath
     && bool_decide (unescape (RawPath u) encodePath = Some (Path u))
  then RawPath u
  else if bool_decide (Path u = go "*") then go "*"
  else escape (Path u) encodePath.

Definition EscapedFragment (u : URL) : gostring :=
  if negb (bool_decide (RawFragment u = [])) && validEncoded (RawFragment u) encodeFragment
     && bool_decide (unescape (RawFragment u) encodeFragment = Some (Fragment u))
  then RawFragment u
  else escape (Fragment u) encodeFragment.

Definition Userinfo_String (ui : Userinfo) : gostring :=
  escape (username ui) encodeUserPassword
  ++ (if passwordSet ui then go ":" ++ escape (password ui) encodeUserPassword else []).

Definition nonempty (s : gostring) : bool := negb (bool_decide (s = [])).

(** [URL.String]: scheme, authority, path, query and fragment put
    back together. *)
Definition String (u : URL) : gostring :=
  let scheme := if nonempty (Scheme u) then Scheme u ++ go ":" else [] in
  let body :=
    if nonempty (Opaque u) then scheme ++ Opaque u
    else
      let authority :=
        if nonempty (Scheme u) || nonempty (Host u) || bool_decide (is_Some (User u)) then
          if OmitHost u && negb (nonempty (Host u)) && bool_decide (User u = None) then []
          else
            (if nonempty (Host u) || nonempty (Path u) || bool_decide (is_Some (User u))
             then go "//" else [])
            ++ match User u with
               | Some ui => Userinfo_String ui ++ go "@"
               | None => []
               end
            ++ (if nonempty (Host u) then escape (Host u) encodeHost else [])
        else [] in
      let path := EscapedPath u in
      let slash :=
        if nonempty path && negb (GoStrings.HasPrefix path (go "/")) && nonempty (Host u)
        then go "/" else [] in
      let buf := scheme ++ authority ++ slash in
      let dot :=
        if negb (nonempty buf)
           && GoStrings.Contains (GoStrings.Cut path (go "/")).1.1 (go ":")
        then go "./" else [] in
      buf ++ dot ++ path in
  body
  ++ (if ForceQuery u || nonempty (RawQuery u) then go "?" ++ RawQuery u else [])
  ++ (if nonempty (Fragment u) then go "#" ++ EscapedFragment u else []).

End url.

(** ** The program: [main.go] *)

Import GoStrings.

Module Ability.
Record t := mk {
  Name : gostring;
  Description : gostring;
  Image : gostring
}.
End Ability.

Module Agent.
Record t := mk {
  Name : gostring;
  Role : gostring;
  Abilities : list Ability.t;
  Media : list gostring;
  Markdown : gostring
}.
End Agent.

Definition nl : gostring := [regexp.newline].

Definition len (s : gostring) : nat := length s.

Definition nonempty (s : gostring) : bool := negb (bool_decide (s = [])).

(** [urlEncode]: parse and print again; the raw string when it does not
    parse. *)
Definition urlEncode (rawURL : gostring) : gostring :=
  match url.Parse rawURL with
  | None => rawURL
  | Some parsedURL => url.String parsedURL
  end.

(** The compiled patterns. *)
Module re.
Import regexp.

(** [^#\s+(.+)$] *)
Definition name : list item :=
  [Bol false; Lit "#"%char; Rep true 1 space; Open 1; Rep true 1 dot; Close 1; Eol false].

(** [(?m)^ROLE\s*\n\s*(.+)$] *)
Definition role : list item :=
  [Bol true] ++ lits "ROLE"
  ++ [Rep true 0 space; Lit newline; Rep true 0 space;
      Open 1; Rep true 1 dot; Close 1; Eol true].

(** [!\[.*?\]\((.*?)\)] *)
Definition image : list item :=
  lits "![" ++ [Rep false 0 dot] ++ lits "](" ++ [Open 1; Rep false 0 dot; Close 1]
  ++ lits ")".

(** [(?m)^(\d+)\.\s*!\[.*?\]\((.*?)\)] *)
Definition abilityImage : list item :=
  [Bol true; Open 1; Rep true 1 digit; Close 1; Lit "."%char; Rep true 0 space]
  ++ lits "![" ++ [Rep false 0 dot] ++ lits "](" ++ [Open 2; Rep false 0 dot; Close 2]
  ++ lits ")".

(** [\[([^\]]+)\]\([^\)]+\)] *)
Definition link : list item :=
  [Lit "["%char; Open 1; Rep true 1 (isnt "]"%char); Close 1]
  ++ lits "](" ++ [Rep true 1 (isnt ")"%char); Lit ")"%char].

(** [!\[.*?\]\(.*?\)] *)
Definition image_nocapture : list item :=
  lits "![" ++ [Rep false 0 dot] ++ lits "](" ++ [Rep false 0 dot] ++ lits ")".

(** [\s+] *)
Definition spaces : list item := [Rep true 1 space].
End re.

(** [extractName]: the text of the first [# heading] line. *)
Fixpoint extractName_lines (lines : list gostring) : gostring :=
  match lines with
  | [] => []
  | line :: lines' =>
    match regexp.FindStringSubmatch re.name 1 line with
    | Some matches => TrimSpace (default [] (matches !! 1%nat))
    | None => extractName_lines lines'
    end
  end.

Definition extractName (markdown : gostring) : gostring :=
  extractName_lines (Split markdown nl).

(** [extractRole]: the value under the [ROLE] label. *)
Definition extractRole (markdown : gostring) : gostring :=
  match regexp.FindStringSubmatch re.role 1 markdown with
  | Some matches => TrimSpace (default [] (matches !! 1%nat))
  | None => []
  end.

(** [extractImages]: the image targets in document order, each raw target
    once. *)
Definition extractImages_step (acc : list gostring * gmap gostring bool)
    (m : list gostring) : list gostring * gmap gostring bool :=
  let '(images, seen) := acc in
  if (1 <? length m)%nat then
    let rawURL := TrimSpace (default [] (m !! 1%nat)) in
    if nonempty rawURL && negb (default false (seen !! rawURL)) then
      (images ++ [urlEncode rawURL], <[rawURL := true]> seen)
    else acc
  else acc.

Definition extractImages (markdown : gostring) : list gostring :=
  (foldl extractImages_step ([], ∅) (regexp.FindAllStringSubmatch re.image 1 markdown)).1.

(** [allWordsTitleCase]: every word starts with a byte in [A..Z]. *)
Definition allWordsTitleCase (s : gostring) : bool :=
  forallb (fun word => match word with
                       | [] => true
                       | first :: _ => between 65 (byte first) 90
                       end) (Fields s).

Definition description_footers : list gostring :=
  [ go "Download Riot Mobile Companion App";
    go "Twitter"; go "YouTube"; go "Instagram"; go "TikTok"; go "Facebook"; go "Discord";
    go "Riot Games";
    go "© 2020-2025 Riot Games";
    go "Privacy Notice";
    go "Terms of Service";
    go "ESRB";
    go "Blood"; go "Language"; go "Violence"; go "Users Interact"; go "In-Game Purchases";
    go "Check Session IFrame";
    go "OIDC OP Iframe";
    go "Auth Error" ].

(** One round of the footer loop of [cleanDescription]. *)
Definition cut_footer (desc pattern : gostring) : gostring :=
  if Contains desc pattern then
    match Index desc pattern with
    | Some idx => if (0 <? idx)%nat then take idx desc else desc
    | None => desc
    end
  else desc.

(** [cleanDescription]: links reduced to their text, images removed,
    whitespace collapsed, footer text cut off. *)
Definition cleanDescription (desc : gostring) : gostring :=
  let desc := regexp.ReplaceAllString re.link 1 desc [regexp.TGroup 1] in
  let desc := regexp.ReplaceAllString re.image_nocapture 0 desc [] in
  let desc := regexp.ReplaceAllString re.spaces 0 desc [regexp.TLit (go " ")] in
  let desc := TrimSpace desc in
  TrimSpace (foldl cut_footer desc description_footers).

Section extraction.
Context `{CaseMapping}.

Definition isAllCaps (line : gostring) : bool :=
  bool_decide (ToUpper line = line) && (0 <? len line)%nat.

Definition isTitleCase (line : gostring) : bool :=
  (0 <? len line)%nat
  && bool_decide (ToUpper (take 1 line) = take 1 line)
  && ((len line =? 1)%nat
      || bool_decide (ToLower (drop 1 line) = drop 1 line)
      || ((Count line (go " ") <=? 3)%nat && allWordsTitleCase line)).

Definition skipWords : list gostring :=
  map go ["ROLE"; "SPECIAL"; "ABILITIES"; "BLOOD"; "LANGUAGE"; "VIOLENCE"; "USERS";
          "INTERACT"; "PURCHASES"; "Download"; "Twitter"; "YouTube"; "Instagram";
          "TikTok"; "Facebook"; "Discord"; "Riot"; "Games"; "Privacy"; "Notice";
          "Terms"; "Service"; "ESRB"; "Check"; "Session"; "IFrame"; "OIDC"; "OP";
          "Auth"; "Error"]%string.

Definition isSkipWord (line : gostring) : bool :=
  let lineUpper := ToUpper line in
  existsb (fun word => bool_decide (lineUpper = ToUpper word)) skipWords.

(** The test that ends a description: the line looks like the next
    ability name. *)
Definition looks_like_name (nextLine : gostring) : bool :=
  nonempty nextLine
  && negb (HasPrefix nextLine (go "!"))
  && negb (HasPrefix nextLine (go "-"))
  && negb (HasPrefix nextLine (go "["))
  && (3 <? len nextLine)%nat && (len nextLine <? 50)%nat
  && (bool_decide (ToUpper nextLine = nextLine) || isTitleCase nextLine).

Definition is_footer_line (nextLine : gostring) : bool :=
  Contains nextLine (go "Download Riot")
  || Contains nextLine (go "Riot Games")
  || Contains nextLine (go "© 2020").

(** The description lines that follow a name line. *)
Fixpoint descriptionLines (lines : list gostring) : list gostring :=
  match lines with
  | [] => []
  | l :: lines' =>
    let nextLine := TrimSpace l in
    if looks_like_name nextLine then []
    else if is_footer_line nextLine then []
    else if nonempty nextLine && negb (HasPrefix nextLine (go "!"))
    then nextLine :: descriptionLines lines'
    else descriptionLines lines'
  end.

(** The state of the walk over the lines after the numbered images. *)
Record walk_state := WalkState {
  abilityIndex : nat;
  seenLargeImage : bool;
  abilities : list Ability.t
}.

Definition is_candidate (st : walk_state) (line : gostring) : bool :=
  seenLargeImage st
  && (3 <? len line)%nat
  && (len line <? 50)%nat
  && (isAllCaps line || isTitleCase line)
  && (Count line (go " ") <=? 3)%nat.

Definition ability_image (imageMap : gmap Z gostring) (abilityIndex : nat) : gostring :=
  if (abilityIndex + 1 <=? size imageMap)%nat
  then urlEncode (default [] (imageMap !! Z.of_nat (abilityIndex + 1)))
  else [].

(** One iteration of the walk: [l] is [lines[i]], [rest] the lines
    after it. *)
Definition walk_step (imageMap : gmap Z gostring) (st : walk_state)
    (l : gostring) (rest : list gostring) : walk_state :=
  let line := TrimSpace l in
  if negb (nonempty line) || HasPrefix line (go "!") then
    if HasPrefix line (go "!")
    then WalkState (abilityIndex st) true (abilities st)
    else st
  else if is_candidate st line then
    if isSkipWord line then st
    else
      let description := cleanDescription (Join (descriptionLines rest) (go " ")) in
      let image := ability_image imageMap (abilityIndex st) in
      WalkState (S (abilityIndex st)) (seenLargeImage st)
                (abilities st ++ [Ability.mk line description image])
  else st.

Fixpoint walk (imageMap : gmap Z gostring) (lines : list gostring) (st : walk_state)
  : walk_state :=
  match lines with
  | [] => st
  | l :: rest =>
    if (abilityIndex st <? 4)%nat
    then walk imageMap rest (walk_step imageMap st l rest)
    else st
  end.

Definition heading : gostring := go "## SPECIAL ABILITIES".

Definition footerPatterns : list gostring :=
  [ nl ++ go "- [Download Riot Mobile Companion App]";
    nl ++ go "[Riot Games]";
    nl ++ go "© 2020-2025" ].

Definition footerStart (abilitiesSection : gostring) : nat :=
  foldl (fun footerStart pattern =>
           match Index abilitiesSection pattern with
           | Some idx => if (idx <? footerStart)%nat then idx else footerStart
           | None => footerStart
           end) (len abilitiesSection) footerPatterns.

(** The section window: from the heading to the first footer marker. *)
Definition abilitiesSection (markdown : gostring) : option gostring :=
  match Index markdown heading with
  | None => None
  | Some abilitiesIndex =>
    let section := drop abilitiesIndex markdown in
    Some (take (footerStart section) section)
  end.

(** [fmt.Sscanf(digits, "%d", &num)] on a run of decimal digits: the
    value, or [num] left at zero when it does not fit an [int64]. *)
Definition Sscanf_d (digits : gostring) : Z :=
  let v := foldl (fun acc c => 10 * acc + (byte c - 48)) 0 digits in
  if v <=? 9223372036854775807 then v else 0.

Definition imageMap_of (imageMatches : list (list gostring)) : gmap Z gostring :=
  foldl (fun imageMap m =>
           if (3 <=? length m)%nat
           then <[Sscanf_d (default [] (m !! 1%nat)) := default [] (m !! 2%nat)]> imageMap
           else imageMap) ∅ imageMatches.

Definition numberedImagesEnd (lines : list gostring) : nat :=
  (foldl (fun '(i, numberedImagesEnd) line =>
            (S i, if regexp.MatchString re.abilityImage line then S i else numberedImagesEnd))
         (0%nat, 0%nat) lines).2.

Definition section_imageMap (section : gostring) : gmap Z gostring :=
  imageMap_of (regexp.FindAllStringSubmatch re.abilityImage 2 section).

Definition parseSection (section : gostring) : walk_state :=
  let imageMap := section_imageMap section in
  let lines := Split section nl in
  walk imageMap (drop (numberedImagesEnd lines) lines) (WalkState 0 false []).

(** [parseAbilities]: the abilities of the SPECIAL ABILITIES section. *)
Definition parseAbilities (markdown : gostring) : list Ability.t :=
  match abilitiesSection markdown with
  | None => []
  | Some section => abilities (parseSection section)
  end.

(** [parseMarkdown]: the agent of a markdown document. *)
Definition parseMarkdown (markdown : gostring) : Agent.t :=
  Agent.mk (extractName markdown) (extractRole markdown) (parseAbilities markdown)
           (extractImages markdown) markdown.

End extraction.

(** ** Reading the agent files

    [readAgentFiles] walks a directory listing.  The file system and the
    JSON decoder are the environment of the walk: what [ioutil.ReadDir]
    and [ioutil.ReadFile] return, how [filepath.Join] names a file, and
    the [markdown] field [json.Unmarshal] decodes. *)
Module os.
Record FileInfo := mkFileInfo {
  Name : gostring;
  IsDir : bool
}.
End os.

Section readAgentFiles.
Context `{CaseMapping}.
Variable error : Type.
Variable ReadDir : gostring -> list os.FileInfo + error.
Variable ReadFile : gostring -> gostring + error.
Variable filepath_Join : gostring -> gostring -> gostring.
Variable Unmarshal_Markdown : gostring -> gostring + error.

(** The warnings written to the standard error stream. *)
Inductive warning :=
| WarnReading (filePath : gostring) (err : error)
| WarnParsing (filePath : gostring) (err : error).

(** One iteration of the loop over the directory entries. *)
Definition readAgentFiles_step (dir : gostring)
    (st : gmap gostring Agent.t * list warning) (file : os.FileInfo)
  : gmap gostring Agent.t * list warning :=
  let '(agents, stderr) := st in
  if os.IsDir file || negb (HasSuffix (os.Name file) (go ".json")) then st
  else
    let filePath := filepath_Join dir (os.Name file) in
    match ReadFile filePath with
    | inr err => (agents, stderr ++ [WarnReading filePath err])
    | inl data =>
      match Unmarshal_Markdown data with
      | inr err => (agents, stderr ++ [WarnParsing filePath err])
      | inl markdown =>
        let agent := parseMarkdown markdown in
        if nonempty (Agent.Name agent)
        then (<[Agent.Name agent := agent]> agents, stderr)
        else st
      end
    end.

(** [readAgentFiles]: the error it returns, the agents map it leaves and
    the warnings it wrote. *)
Definition readAgentFiles (dir : gostring) (agents : gmap gostring Agent.t)
  : option error * gmap gostring Agent.t * list warning :=
  match ReadDir dir with
  | inr err => (Some err, agents, [])
  | inl files =>
    let '(agents', stderr) := foldl (readAgentFiles_step dir) (agents, []) files in
    (None, agents', stderr)
  end.

(** An agent read from an entry of the listing. *)
Definition read_from (dir : gostring) (files : list os.FileInfo) (a : Agent.t) : Prop :=
  exists file data markdown,
    file ∈ files
    /\ os.IsDir file = false
    /\ HasSuffix (os.Name file) (go ".json") = true
    /\ ReadFile (filepath_Join dir (os.Name file)) = inl data
    /\ Unmarshal_Markdown data = inl markdown
    /\ a = parseMarkdown markdown.

End readAgentFiles.

(** A case table that maps no rune above ASCII to another; used where a
    closed instance is needed (ASCII text never consults the table). *)
Definition ascii_case : CaseMapping := {| upper_rune r := r; lower_rune r := r |}.

(** ** Vocabulary of the statements *)

(** [p] occurs in [s] at offset [k]. *)
Definition occurs_at (p s : gostring) (k : nat) : Prop := p `prefix_of` drop k s.

(** A pattern is found in [d] at its very start or not at all. *)
Definition at_start_only (d p : gostring) : Prop :=
  forall k, p `prefix_of` drop k d -> p `prefix_of` d.

(** A line that starts, once trimmed, with the image marker. *)
Definition image_line (l : gostring) : bool := HasPrefix (TrimSpace l) (go "!").

(** What holds of the ability emitted at a slot: its name passed the stop
    list and its image is the one computed for the slot. *)
Definition emitted_ok `{CaseMapping} (imageMap : gmap Z gostring) (slot : nat)
    (a : Ability.t) : Prop :=
  isSkipWord (Ability.Name a) = false
  /\ Ability.Image a = ability_image imageMap slot.

(** The stop list in upper case, as [isSkipWord] compares it. *)
Definition stop_list_upper : list gostring :=
  map go ["ROLE"; "SPECIAL"; "ABILITIES"; "BLOOD"; "LANGUAGE"; "VIOLENCE"; "USERS";
          "INTERACT"; "PURCHASES"; "DOWNLOAD"; "TWITTER"; "YOUTUBE"; "INSTAGRAM";
          "TIKTOK"; "FACEBOOK"; "DISCORD"; "RIOT"; "GAMES"; "PRIVACY"; "NOTICE";
          "TERMS"; "SERVICE"; "ESRB"; "CHECK"; "SESSION"; "IFRAME"; "OIDC"; "OP";
          "AUTH"; "ERROR"]%string.

(** The document of the end-to-end scenario, and the record the scenario
    expects for it. *)
Definition jett_doc : gostring := go "# Jett
ROLE

Duelist

## SPECIAL ABILITIES
1. ![a](http://x/1.png)
CLOUDBURST
Throws a cloud.
© 2020-2025 Riot Games".

Definition jett_claimed : Agent.t :=
  Agent.mk (go "Jett") (go "Duelist")
    [Ability.mk (go "CLOUDBURST") (go "Throws a cloud.") (go "http://x/1.png")]
    [go "http://x/1.png"] jett_doc.

(** A section whose only numbered image carries the ordinal 2. *)
Definition gap_doc : gostring := go "## SPECIAL ABILITIES
2. ![b](http://x/2.png)
![big](http://x/big.png)
CLOUDBURST
throws a cloud.
UPDRAFT
jumps up.".

(** The trimmed target of a match of the image pattern. *)
Definition match_target (m : list gostring) : gostring :=
  TrimSpace (default [] (m !! 1%nat)).

(** The raw image targets of a document, in document order: trimmed, the
    empty ones left out. *)
Definition raw_targets (markdown : gostring) : list gostring :=
  filter (fun r => r <> []) (match_target <$> regexp.FindAllStringSubmatch re.image 1 markdown).

(** The first occurrences of a list, given what was seen before. *)
Fixpoint first_occurrences (seen : list gostring) (l : list gostring) : list gostring :=
  match l with
  | [] => []
  | x :: l' =>
    if bool_decide (x ∈ seen) then first_occurrences seen l'
    else x :: first_occurrences (x :: seen) l'
  end.

(** Three raw targets with one normal form, the first repeated. *)
Definition mixed_case_doc : gostring := go "![a](HTTP://x/a) ![b](http://x/a) ![c](HTTP://x/a)".


(** The bytes of a scheme name. *)
Definition scheme_char (c : ascii) : bool :=
  between 97 (byte c) 122 || between 65 (byte c) 90
  || (between 48 (byte c) 57 || url.is_in c "+-.").

(** The shapes a parsed URL (without fragment) can have. *)
Inductive parse_shape (rawURL : gostring) (u : url.URL) : Prop :=
| shape_star :
    rawURL = go "*" -> u = url.mkURL [] [] None [] (go "*") [] false false [] [] [] ->
    parse_shape rawURL u
| shape_opaque scheme0 rest0 rest force query :
    url.getScheme rawURL = url.SchemeOk scheme0 rest0 ->
    url.split_query rest0 = (rest, force, query) ->
    scheme0 <> [] ->
    u = url.mkURL (map lower_byte scheme0) rest None [] [] [] false force query [] [] ->
    parse_shape rawURL u
| shape_authority scheme0 rest0 rest force query authority rest' user host path rawpath :
    url.getScheme rawURL = url.SchemeOk scheme0 rest0 ->
    url.split_query rest0 = (rest, force, query) ->
    HasPrefix rest (go "//") = true ->
    url.split_authority rest = (authority, rest') ->
    url.parseAuthority authority = Some (user, host) ->
    url.setPath rest' = Some (path, rawpath) ->
    u = url.mkURL (map lower_byte scheme0) [] user host path rawpath false force query [] [] ->
    parse_shape rawURL u
| shape_path scheme0 rest0 rest force query path rawpath omit :
    url.getScheme rawURL = url.SchemeOk scheme0 rest0 ->
    url.split_query rest0 = (rest, force, query) ->
    (scheme0 = [] \/ HasPrefix rest (go "/") = true) ->
    (scheme0 = [] -> HasPrefix rest (go "//") = true -> HasPrefix rest (go "///") = true) ->
    url.setPath rest = Some (path, rawpath) ->
    u = url.mkURL (map lower_byte scheme0) [] None [] path rawpath omit force query [] [] ->
    parse_shape rawURL u.

(** A URL with its fragment set. *)
Definition with_fragment (u : url.URL) (f rawf : gostring) : url.URL :=
  url.mkURL (url.Scheme u) (url.Opaque u) (url.User u) (url.Host u) (url.Path u)
            (url.RawPath u) (url.OmitHost u) (url.ForceQuery u) (url.RawQuery u) f rawf.

(** The strings whose normal form is empty. *)
Definition empty_normal_forms : list gostring := [[]; go "#"; go "//"; go "//#"].


(** The byte [&]. *)
Definition amp : ascii := "&"%char.

(** The number of literal [&] in a string. *)
Definition amps (s : gostring) : nat := length (filter (fun c => c = amp) s).

(** The [&] of the printed user information. *)
Definition user_amps (user : option url.Userinfo) : nat :=
  match user with
  | Some ui => amps (url.Userinfo_String ui)
  | None => 0
  end.

(** The [&] of the printed URL that come from its opaque part or from its
    authority and path. *)
Definition body_amps (u : url.URL) : nat :=
  if url.nonempty (url.Opaque u) then amps (url.Opaque u)
  else (user_amps (url.User u) + amps (url.escape (url.Host u) url.encodeHost)
        + amps (url.EscapedPath u))%nat.

(** A path that starts with an escaped slash and holds a space. *)
Definition escaped_slash_url : gostring := go "/%2Fa@b@h/ x".

(** ** The role pattern, line by line *)

(** The tail of the role pattern after [ROLE\s*]. *)
Definition K3 := regexp.run [regexp.Close 1; regexp.Eol true].
Definition K2 := regexp.run [regexp.Open 1; regexp.Rep true 1 regexp.dot; regexp.Close 1; regexp.Eol true].
Definition K1 := regexp.run [regexp.Lit regexp.newline; regexp.Rep true 0 regexp.space; regexp.Open 1; regexp.Rep true 1 regexp.dot; regexp.Close 1; regexp.Eol true].

(** The span of capture group 1. *)
Definition group1 (st : regexp.caps) : option (nat * nat) := regexp.assoc 1 (regexp.closed st).

(** The end of a line: the end of the text or a newline. *)
Definition eol (s : gostring) : Prop := regexp.at_eol true s = true.

(** A line of pattern whitespace only ([\s] is tab, newline, form feed,
    carriage return and space). *)
Definition blank_line (l : gostring) : bool := forallb regexp.space l.

(** A label line: [ROLE] at the very start, then only whitespace. *)
Definition label_line (l : gostring) : bool :=
  HasPrefix l (go "ROLE") && blank_line (drop 4 l).

(** The first line below that is not blank, trimmed. *)
Fixpoint value_below (lines : list gostring) : gostring :=
  match lines with
  | [] => []
  | l :: lines' => if blank_line l then value_below lines' else TrimSpace l
  end.

(** The value below the first label line. *)
Fixpoint role_of_lines (lines : list gostring) : gostring :=
  match lines with
  | [] => []
  | l :: lines' => if label_line l then value_below lines' else role_of_lines lines'
  end.

(** What [extractRole] returns for a search result. *)
Definition role_value (whole : gostring) (m : option (nat * nat * regexp.caps)) : gostring :=
  match m with
  | Some m => TrimSpace (default [] (regexp.submatches whole 1 m !! 1%nat))
  | None => []
  end.

(** The text of the lines that follow a line. *)
Definition tail_text (lines : list gostring) : gostring :=
  match lines with
  | [] => []
  | _ :: _ => nl ++ Join lines nl
  end.

(** The label-then-value search as the specification words it: the label
    line is [ROLE] surrounded by optional whitespace, the value line the
    next line that is not empty once trimmed. *)
Definition spec_label_line (l : gostring) : bool := bool_decide (TrimSpace l = go "ROLE").

Definition spec_blank_line (l : gostring) : bool := bool_decide (TrimSpace l = []).

Fixpoint spec_value_below (lines : list gostring) : option gostring :=
  match lines with
  | [] => None
  | l :: lines' => if spec_blank_line l then spec_value_below lines' else Some (TrimSpace l)
  end.

Fixpoint spec_role_of_lines (lines : list gostring) : gostring :=
  match lines with
  | [] => []
  | l :: lines' =>
    if spec_label_line l then
      match spec_value_below lines' with
      | Some v => v
      | None => spec_role_of_lines lines'
      end
    else spec_role_of_lines lines'
  end.

Definition spec_extractRole (markdown : gostring) : gostring :=
  spec_role_of_lines (Split markdown nl).

(** A label line indented by one space. *)
Definition indented_label_doc : gostring := go " ROLE
Duelist".

(** ** Vocabulary of the further properties *)

(** *** The abilities *)

(** The byte count and shape tests a line passed to become a name. *)
Definition name_shape `{CaseMapping} (line : gostring) : Prop :=
  (3 < length line < 50)%nat
  /\ (Count line (go " ") <= 3)%nat
  /\ HasPrefix line (go "!") = false
  /\ (isAllCaps line = true \/ isTitleCase line = true)
  /\ isSkipWord line = false.

(** The ability read at line [i] of [lines]: the trimmed line is its name,
    the cleaned description lines below it its description. *)
Definition emitted_at `{CaseMapping} (lines : list gostring) (i : nat) (a : Ability.t) : Prop :=
  exists l, lines !! i = Some l
    /\ Ability.Name a = TrimSpace l
    /\ name_shape (TrimSpace l)
    /\ Ability.Description a =
       cleanDescription (Join (descriptionLines (drop (S i) lines)) (go " ")).

(** A section with one numbered image, an image line and a name. *)
Definition one_image_doc : gostring := go "## SPECIAL ABILITIES
1. ![a](http://x/1.png)
![big](http://x/big.png)
CLOUDBURST
throws a cloud.".

(** A line that ends a description: once trimmed it looks like a name or
    holds footer text. *)
Definition description_stop `{CaseMapping} (l : gostring) : bool :=
  looks_like_name (TrimSpace l) || is_footer_line (TrimSpace l).

(** A trimmed line that is description text: not empty and no image. *)
Definition description_text (t : gostring) : bool :=
  nonempty t && negb (HasPrefix t (go "!")).

(** *** The name pattern *)

(** The tail of the name pattern after [#\s+]. *)
Definition N3 := regexp.run [regexp.Close 1; regexp.Eol false].
Definition N2 := regexp.run [regexp.Open 1; regexp.Rep true 1 regexp.dot; regexp.Close 1; regexp.Eol false].

(** A name heading: [#], a whitespace byte and at least one more byte; the
    text after the [#]. *)
Definition heading_text (line : gostring) : option gostring :=
  match line with
  | c0 :: c1 :: c2 :: t =>
    if bool_decide (c0 = "#"%char) && regexp.space c1 then Some (c1 :: c2 :: t) else None
  | _ => None
  end.

(** The trimmed text of the first name heading. *)
Fixpoint name_of_lines (lines : list gostring) : gostring :=
  match lines with
  | [] => []
  | line :: lines' =>
    match heading_text line with
    | Some t => TrimSpace t
    | None => name_of_lines lines'
    end
  end.

(** *** Whitespace *)

(** The whitespace step of [cleanDescription], byte by byte: every run of
    pattern whitespace becomes one space. *)
Fixpoint collapse (in_run : bool) (s : gostring) : gostring :=
  match s with
  | [] => []
  | c :: s' =>
    if regexp.space c then (if in_run then collapse true s' else " "%char :: collapse true s')
    else c :: collapse false s'
  end.

(** The only pattern whitespace of [s] is single spaces. *)
Fixpoint single_spaced (after_space : bool) (s : gostring) : bool :=
  match s with
  | [] => true
  | c :: s' =>
    if regexp.space c
    then bool_decide (c = " "%char) && negb after_space && single_spaced true s'
    else single_spaced false s'
  end.

(** The lengths of the leading run of whitespace, and of the leading run
    of other bytes. *)
Fixpoint space_run (s : gostring) : nat :=
  match s with
  | c :: s' => if regexp.space c then S (space_run s') else 0
  | [] => 0
  end.

Fixpoint nonspace_run (s : gostring) : nat :=
  match s with
  | c :: s' => if regexp.space c then 0 else S (nonspace_run s')
  | [] => 0
  end.

(** *** Image targets and links *)

(** The tail of the image pattern after the opening parenthesis. *)
Definition I3 := regexp.run [regexp.Close 1; regexp.Lit ")"%char].
Definition I2 := regexp.run (regexp.lits "](" ++ [regexp.Open 1; regexp.Rep false 0 regexp.dot;
                                                  regexp.Close 1; regexp.Lit ")"%char]).

(** A byte an image target can hold. *)
Definition target_byte (c : ascii) : Prop := c <> ")"%char /\ c <> regexp.newline.

(** The tail of the link pattern after the text group. *)
Definition L2 := regexp.run (regexp.lits "](" ++ [regexp.Rep true 1 (regexp.isnt ")"%char);
                                                  regexp.Lit ")"%char]).

(** A description the cleaning has nothing to do on: no bracket, single
    spaces as only pattern whitespace, nothing to trim, no footer text. *)
Definition plain_description (desc : gostring) : Prop :=
  Contains desc (go "[") = false
  /\ forallb (fun c => negb (regexp.space c) || bool_decide (c = " "%char)) desc = true
  /\ Contains desc (go "  ") = false
  /\ TrimSpace desc = desc
  /\ forallb (fun pattern => negb (Contains desc pattern)) description_footers = true.

(** *** The shapes of URLs *)

(** The bytes of a plain host name, of a path that needs no escape, and of
    a query. *)
Definition host_byte (c : ascii) : bool := url.isalnum c || url.is_in c "-.".
Definition path_byte (c : ascii) : bool := negb (url.shouldEscape c url.encodePath).
Definition query_byte (c : ascii) : bool :=
  negb ((byte c <? 32) || (byte c =? 127)) && negb (bool_decide (c = "#"%char)).

(** The bytes of a reference that is read as a path: no escape, no
    delimiter of another part, no control byte. *)
Definition reference_byte (c : ascii) : bool :=
  negb ((byte c <? 32) || (byte c =? 127)) && negb (url.is_in c "%?#:").

(** A scheme name: a letter, then scheme bytes. *)
Definition scheme_name (s : gostring) : bool :=
  match s with
  | c :: _ => between 97 (byte c) 122 || between 65 (byte c) 90
  | [] => false
  end && forallb scheme_char s.

(** A path that is empty or starts with a slash, of path bytes only. *)
Definition web_path (p : gostring) : bool :=
  match p with
  | c :: _ => bool_decide (c = "/"%char)
  | [] => true
  end && forallb path_byte p.

(** [scheme://host/path?query], the query being optional. *)
Definition web_url (scheme host path : gostring) (query : option gostring) : gostring :=
  scheme ++ go "://" ++ host ++ path
  ++ match query with Some q => "?"%char :: q | None => [] end.

(** *** Words *)

(** An ASCII byte that is no space. *)
Definition word_byte (c : ascii) : bool :=
  (byte c <? 128) && negb (unicode.IsSpace (byte c)).

(** A word: at least one byte, ASCII bytes that are no space. *)
Definition ascii_word (w : gostring) : bool :=
  nonempty w && forallb word_byte w.

(** The test [allWordsTitleCase] applies to a word. *)
Definition starts_with_capital (w : gostring) : bool :=
  match w with
  | [] => true
  | first :: _ => between 65 (byte first) 90
  end.

(** A byte that is no lower-case ASCII letter. *)
Definition not_lower (c : ascii) : bool := negb (between 97 (byte c) 122).

(** * Properties *)

(** ** Substrings: [HasPrefix] and [Index] *)

Lemma HasPrefix_spec (s p : gostring) : HasPrefix s p = true <-> p `prefix_of` s.
Proof.
  revert s. induction p as [|c p IH]; intros s; simpl.
  - split; [intros _; apply prefix_nil | done].
  - destruct s as [|x s].
    + split; [done | intros Hp; by apply prefix_nil_not in Hp].
    + rewrite andb_true_iff, bool_decide_eq_true, IH. split.
      * intros [-> Hp]. by apply prefix_cons.
      * intros Hp. split; [by apply prefix_cons_inv_1 in Hp | by apply prefix_cons_inv_2 in Hp].
Qed.

Lemma HasPrefix_false (s p : gostring) : HasPrefix s p = false <-> ¬ p `prefix_of` s.
Proof. rewrite <- HasPrefix_spec. destruct (HasPrefix s p); naive_solver. Qed.

Lemma Index_Some (s p : gostring) (k : nat) :
  Index s p = Some k ->
  p `prefix_of` drop k s /\ (k <= length s)%nat /\
  forall j, (j < k)%nat -> ¬ p `prefix_of` drop j s.
Proof.
  revert k. induction s as [|x s IH]; intros k; simpl.
  - destruct (HasPrefix [] p) eqn:E; [|done].
    intros [= <-]. apply HasPrefix_spec in E. split_and!; [done | done | lia].
  - destruct (HasPrefix (x :: s) p) eqn:E.
    + intros [= <-]. apply HasPrefix_spec in E. split_and!; [done | simpl; lia | lia].
    + destruct (Index s p) as [k'|] eqn:Ei; [|done]. simpl. intros [= <-].
      destruct (IH k' eq_refl) as (H1 & H2 & H3). split_and!; [done | simpl; lia |].
      intros [|j] Hj; simpl.
      * by apply HasPrefix_false.
      * apply H3. lia.
Qed.

Lemma Index_None (s p : gostring) :
  Index s p = None -> forall j, ¬ p `prefix_of` drop j s.
Proof.
  induction s as [|x s IH]; simpl.
  - destruct (HasPrefix [] p) eqn:E; [done|]. intros _ j.
    rewrite drop_nil. by apply HasPrefix_false.
  - destruct (HasPrefix (x :: s) p) eqn:E; [done|].
    destruct (Index s p) eqn:Ei; [done|]. intros _ [|j]; simpl.
    + by apply HasPrefix_false.
    + by apply IH.
Qed.

Lemma Index_found (s p : gostring) (j : nat) :
  p `prefix_of` drop j s -> exists k, Index s p = Some k /\ (k <= j)%nat.
Proof.
  intros Hp. destruct (Index s p) as [k|] eqn:E.
  - exists k. split; [done|]. destruct (Index_Some _ _ _ E) as (_ & _ & H3).
    destruct (decide (k <= j)%nat); [done|]. exfalso. apply (H3 j); [lia | done].
  - exfalso. by apply (Index_None _ _ E j).
Qed.

Lemma Index_first (s p : gostring) (i : nat) :
  occurs_at p s i -> (forall j, (j < i)%nat -> ¬ occurs_at p s j) -> Index s p = Some i.
Proof.
  intros Hi Hfirst. destruct (Index_found s p i Hi) as (k & Hk & Hle).
  destruct (Index_Some _ _ _ Hk) as (Hpk & _ & _).
  destruct (decide (k = i)) as [->|Hne]; [done|].
  exfalso. apply (Hfirst k); [lia | done].
Qed.


(** ** The section window *)

Section window.
Context `{CaseMapping}.

Lemma footer_fold (s : gostring) (pats : list gostring) (n0 : nat) :
  let fs := foldl (fun footerStart pattern =>
               match Index s pattern with
               | Some idx => if (idx <? footerStart)%nat then idx else footerStart
               | None => footerStart
               end) n0 pats in
  (fs <= n0)%nat /\
  (forall p k, p ∈ pats -> occurs_at p s k -> (fs <= k)%nat) /\
  (fs = n0 \/ exists p, p ∈ pats /\ occurs_at p s fs).
Proof.
  cbv zeta. revert n0. induction pats as [|q pats IH]; intros n0; simpl.
  - split_and!; [lia | intros p k Hp; by apply elem_of_nil in Hp | by left].
  - set (n1 := match Index s q with
               | Some idx => if (idx <? n0)%nat then idx else n0
               | None => n0 end).
    destruct (IH n1) as (Hle & Hmin & Hat).
    assert (Hn1 : (n1 <= n0)%nat).
    { unfold n1. destruct (Index s q); [|lia]. destruct (Nat.ltb_spec n n0); lia. }
    split_and!; [lia | |].
    + intros p k [->|Hp]%elem_of_cons Hocc; [|by eapply Hmin].
      destruct (Index_found s q k Hocc) as (k' & Hk' & Hk'le).
      assert (n1 <= k')%nat; [|lia].
      unfold n1. rewrite Hk'. destruct (Nat.ltb_spec k' n0); lia.
    + destruct Hat as [->|(p & Hp & Hocc)].
      * unfold n1. destruct (Index s q) as [idx|] eqn:Ei; [|by left].
        destruct (Nat.ltb_spec idx n0); [|by left].
        right. exists q. split; [by left|]. by destruct (Index_Some _ _ _ Ei).
      * right. exists p. split; [by right | done].
Qed.

(** C3: without the heading there are no abilities; with it, the parsed
    window starts at the first occurrence of the heading and stops right
    before the earliest footer marker found after it (or at the end of
    the document), so nothing at or after that marker is in the window. *)
Theorem section_window (markdown : gostring) :
  ((forall k, ¬ occurs_at heading markdown k) -> parseAbilities markdown = []) /\
  (forall i, occurs_at heading markdown i ->
     (forall j, (j < i)%nat -> ¬ occurs_at heading markdown j) ->
     exists window rest,
       abilitiesSection markdown = Some window /\
       parseAbilities markdown = abilities (parseSection window) /\
       drop i markdown = window ++ rest /\
       (forall p k, p ∈ footerPatterns -> occurs_at p (drop i markdown) k ->
                    (length window <= k)%nat) /\
       (rest = [] \/ exists p, p ∈ footerPatterns /\ p `prefix_of` rest)).
Proof.
  split.
  - intros Hno. unfold parseAbilities, abilitiesSection.
    destruct (Index markdown heading) as [i|] eqn:Ei; [|done].
    destruct (Index_Some _ _ _ Ei) as (Hp & _). by destruct (Hno i).
  - intros i Hi Hfirst. pose proof (Index_first _ _ _ Hi Hfirst) as Ei.
    set (section := drop i markdown).
    exists (take (footerStart section) section), (drop (footerStart section) section).
    unfold parseAbilities, abilitiesSection. rewrite Ei. fold section.
    destruct (footer_fold section footerPatterns (len section)) as (Hle & Hmin & Hat).
    fold (footerStart section) in Hle, Hmin, Hat.
    split_and!; [done | done | by rewrite take_drop | |].
    + intros p k Hp Hocc. rewrite length_take. specialize (Hmin p k Hp Hocc). lia.
    + destruct Hat as [Heq|(p & Hp & Hocc)].
      * left. rewrite Heq. by apply drop_all.
      * right. by exists p.
Qed.
End window.


(** ** The walk over the lines of the section *)

Section walk_facts.
Context `{CaseMapping}.

(** What a step can do: leave the state, raise the flag, or emit. *)
Lemma walk_step_cases imageMap st l rest :
  walk_step imageMap st l rest = st
  \/ (image_line l = true
      /\ walk_step imageMap st l rest = WalkState (abilityIndex st) true (abilities st))
  \/ (image_line l = false /\ seenLargeImage st = true
      /\ isSkipWord (TrimSpace l) = false
      /\ walk_step imageMap st l rest =
         WalkState (S (abilityIndex st)) (seenLargeImage st)
           (abilities st ++
              [Ability.mk (TrimSpace l)
                 (cleanDescription (Join (descriptionLines rest) (go " ")))
                 (ability_image imageMap (abilityIndex st))])).
Proof.
  unfold walk_step, image_line.
  destruct (HasPrefix (TrimSpace l) (go "!")) eqn:Himg.
  - rewrite orb_true_r. right; left. done.
  - rewrite orb_false_r. destruct (nonempty (TrimSpace l)); simpl; [|by left].
    destruct (is_candidate st (TrimSpace l)) eqn:Hc; [|by left].
    destruct (isSkipWord (TrimSpace l)) eqn:Hs; [by left|].
    right; right. split_and!; try done.
    unfold is_candidate in Hc. by destruct (seenLargeImage st).
Qed.

Lemma walk_step_flag imageMap st l rest :
  seenLargeImage st = true -> seenLargeImage (walk_step imageMap st l rest) = true.
Proof.
  intros Hf. destruct (walk_step_cases imageMap st l rest) as [->|[(_ & ->)|(_ & _ & _ & ->)]]; done.
Qed.

Lemma walk_flag imageMap lines st :
  seenLargeImage st = true -> seenLargeImage (walk imageMap lines st) = true.
Proof.
  revert st. induction lines as [|l rest IH]; intros st Hf; simpl; [done|].
  destruct (abilityIndex st <? 4)%nat; [|done].
  apply IH. by apply walk_step_flag.
Qed.

Lemma walk_step_unlicensed imageMap st l rest :
  seenLargeImage st = false -> image_line l = false ->
  walk_step imageMap st l rest = st.
Proof.
  intros Hf Hl.
  destruct (walk_step_cases imageMap st l rest) as [->|[(Hi & _)|(_ & Hs & _)]]; congruence.
Qed.

Lemma walk_unlicensed imageMap pre post st :
  seenLargeImage st = false -> Forall (fun l => image_line l = false) pre ->
  walk imageMap (pre ++ post) st = walk imageMap post st.
Proof.
  intros Hf Hpre. induction Hpre as [|l pre Hl Hpre IH]; simpl; [done|].
  rewrite walk_step_unlicensed by done.
  destruct (abilityIndex st <? 4)%nat eqn:E; [done|].
  destruct post; simpl; [done | by rewrite E].
Qed.

(** The abilities of a walk: those of the start state, then the new ones,
    each from a step on a name that is no stop word, with the image of
    its slot. *)
Lemma walk_abilities imageMap lines st :
  length (abilities st) = abilityIndex st ->
  (forall s a, abilities st !! s = Some a -> emitted_ok imageMap s a) ->
  length (abilities (walk imageMap lines st)) = abilityIndex (walk imageMap lines st)
  /\ (abilityIndex (walk imageMap lines st) <= Nat.max 4 (abilityIndex st))%nat
  /\ forall s a, abilities (walk imageMap lines st) !! s = Some a -> emitted_ok imageMap s a.
Proof.
  revert st. induction lines as [|l rest IH]; intros st Hlen Hok; simpl.
  - split_and!; [done | lia | done].
  - destruct (Nat.ltb_spec (abilityIndex st) 4); [|split_and!; [done | lia | done]].
    destruct (walk_step_cases imageMap st l rest) as [->|[(_ & ->)|(_ & _ & Hs & ->)]].
    + apply IH; done.
    + destruct (IH (WalkState (abilityIndex st) true (abilities st))) as (H1 & H2 & H3); try done.
    + destruct (IH (WalkState (S (abilityIndex st)) (seenLargeImage st)
           (abilities st ++
              [Ability.mk (TrimSpace l)
                 (cleanDescription (Join (descriptionLines rest) (go " ")))
                 (ability_image imageMap (abilityIndex st))]))) as (H1 & H2 & H3).
      * simpl. rewrite length_app. simpl. lia.
      * simpl. intros s a Hsa.
        apply lookup_app_Some in Hsa as [Hsa|[Hge Hsa]]; [by apply Hok|].
        rewrite Hlen in Hge, Hsa.
        destruct (s - abilityIndex st)%nat as [|n] eqn:Hd; [|done].
        simpl in Hsa. injection Hsa as <-. replace s with (abilityIndex st) by lia. done.
      * cbn [abilityIndex] in H2. split_and!; [done | lia | done].
Qed.

Lemma skipWords_upper : map ToUpper skipWords = stop_list_upper.
Proof. by vm_compute. Qed.

Lemma isSkipWord_false line :
  isSkipWord line = false -> ToUpper line ∉ stop_list_upper.
Proof.
  unfold isSkipWord. intros Hs Hin. rewrite <- skipWords_upper in Hin.
  apply list_elem_of_fmap in Hin as (w & Hw & Hin).
  apply not_true_iff_false in Hs. apply Hs.
  apply existsb_exists. exists w. split; [by apply list_elem_of_In|].
  by apply bool_decide_eq_true.
Qed.

Lemma parseSection_abilities section :
  let st := parseSection section in
  (length (abilities st) <= 4)%nat
  /\ forall s a, abilities st !! s = Some a ->
                 emitted_ok (section_imageMap section) s a.
Proof.
  cbv zeta. unfold parseSection.
  destruct (walk_abilities (section_imageMap section)
              (drop (numberedImagesEnd (Split section nl)) (Split section nl))
              (WalkState 0 false [])) as (H1 & H2 & H3); [done | done |].
  split; [|done]. rewrite H1. cbn [abilityIndex] in H2. lia.
Qed.

(** C5: no emitted ability has a name whose upper-case form is an entry
    of the stop list; in particular a line reading ROLE is never a name. *)
Theorem stop_words_not_emitted (markdown : gostring) :
  Forall (fun a => (ToUpper (Ability.Name a) ∉ stop_list_upper)
                   /\ Ability.Name a <> go "ROLE")
         (parseAbilities markdown).
Proof.
  unfold parseAbilities. destruct (abilitiesSection markdown) as [section|]; [|constructor].
  destruct (parseSection_abilities section) as [_ Hok].
  apply Forall_lookup. intros s a Hsa. destruct (Hok s a Hsa) as [Hskip _].
  pose proof (isSkipWord_false _ Hskip) as Hup. split; [done|].
  intros Hrole. apply Hup. rewrite Hrole. by vm_compute; left.
Qed.

Lemma slot_image (markdown : gostring) (s : nat) (a : Ability.t) :
  parseAbilities markdown !! s = Some a ->
  exists section, abilitiesSection markdown = Some section
    /\ Ability.Image a = ability_image (section_imageMap section) s.
Proof.
  unfold parseAbilities. destruct (abilitiesSection markdown) as [section|]; [|done].
  intros Hsa. exists section. split; [done|].
  destruct (parseSection_abilities section) as [_ Hok].
  by destruct (Hok s a Hsa).
Qed.

(** C2: on [gap_doc] the ordinal map holds key 2, yet the ability in
    slot 1 gets no image: presence is tested by the size of the map. *)
Theorem gap_doc_images :
  abilitiesSection gap_doc = Some gap_doc
  /\ section_imageMap gap_doc = {[ 2%Z := go "http://x/2.png" ]}
  /\ parseAbilities gap_doc =
     [Ability.mk (go "CLOUDBURST") (go "throws a cloud.") [];
      Ability.mk (go "UPDRAFT") (go "jumps up.") []].
Proof. split_and!; by vm_compute. Qed.

(** C10: the seen-large-image flag is never cleared by a step or by the
    rest of the walk, any image line raises it, and the walk through
    lines without an image line, started with the flag down, changes
    nothing: no ability is emitted before an image line. *)
Theorem large_image_latch :
  (forall imageMap st l rest,
      seenLargeImage st = true ->
      seenLargeImage (walk_step imageMap st l rest) = true)
  /\ (forall imageMap st l rest,
      image_line l = true ->
      seenLargeImage (walk_step imageMap st l rest) = true)
  /\ (forall imageMap lines st,
      seenLargeImage st = true ->
      seenLargeImage (walk imageMap lines st) = true)
  /\ (forall imageMap pre post st,
      seenLargeImage st = false ->
      Forall (fun l => image_line l = false) pre ->
      walk imageMap (pre ++ post) st = walk imageMap post st)
  /\ (forall section,
      let lines := Split section nl in
      Forall (fun l => image_line l = false) (drop (numberedImagesEnd lines) lines) ->
      abilities (parseSection section) = []).
Proof.
  split_and!.
  - apply walk_step_flag.
  - intros imageMap st l rest Hl.
    destruct (walk_step_cases imageMap st l rest) as [Hst|[(_ & ->)|(Hn & _)]];
      [|done|congruence].
    revert Hst. unfold walk_step. fold (image_line l). rewrite Hl, orb_true_r.
    by intros <-.
  - apply walk_flag.
  - apply walk_unlicensed.
  - intros section lines Hno. unfold parseSection. fold lines.
    rewrite <- (app_nil_r (drop _ lines)). by rewrite walk_unlicensed.
Qed.
End walk_facts.

(** ** Cleaning a description *)

Lemma TrimLeft_fuel_drop fuel s : exists k, TrimLeft_fuel fuel s = drop k s.
Proof.
  revert s. induction fuel as [|fuel IH]; intros s; simpl; [by exists 0%nat|].
  destruct (utf8.DecodeRuneInString s) as [r w]. destruct w as [|w]; [by exists 0%nat|].
  destruct (unicode.IsSpace r); [|by exists 0%nat].
  destruct (IH (drop (S w) s)) as [k ->]. exists (S w + k)%nat. by rewrite drop_drop.
Qed.

Lemma TrimRight_fuel_take fuel s : exists k, TrimRight_fuel fuel s = take k s.
Proof.
  revert s. induction fuel as [|fuel IH]; intros s; simpl.
  - exists (length s). by rewrite take_ge.
  - destruct (utf8.DecodeLastRuneInString s) as [r w].
    destruct w as [|w]; [exists (length s); by rewrite take_ge|].
    destruct (unicode.IsSpace r); [|exists (length s); by rewrite take_ge].
    destruct (IH (take (length s - S w) s)) as [k ->].
    exists (k `min` (length s - S w))%nat. by rewrite take_take.
Qed.

Lemma TrimSpace_infix s : exists a b, TrimSpace s = take b (drop a s).
Proof.
  unfold TrimSpace, TrimRightSpace, TrimLeftSpace.
  destruct (TrimLeft_fuel_drop (length s) s) as [a ->].
  destruct (TrimRight_fuel_take (length (drop a s)) (drop a s)) as [b ->]. by exists a, b.
Qed.

Lemma TrimLeftSpace_keep s :
  unicode.IsSpace (utf8.DecodeRuneInString s).1 = false -> TrimLeftSpace s = s.
Proof.
  unfold TrimLeftSpace. destruct (length s); simpl; [done|].
  destruct (utf8.DecodeRuneInString s) as [r w]. simpl. intros ->. by destruct w.
Qed.

(** The footer loop. *)
Lemma cut_footer_step (desc pattern : gostring) :
  cut_footer desc pattern =
  match Index desc pattern with
  | Some (S k) => take (S k) desc
  | _ => desc
  end.
Proof.
  unfold cut_footer, Contains. by destruct (Index desc pattern) as [[|k]|].
Qed.

Lemma prefix_of_drop_take (p d : gostring) (k b : nat) :
  p `prefix_of` drop k (take b d) -> p `prefix_of` drop k d.
Proof.
  intros [t Ht]. rewrite <- (take_drop b d) at 1. rewrite drop_app, Ht, <- app_assoc.
  by eexists.
Qed.

Lemma prefix_of_take_len (p d : gostring) (b : nat) :
  p `prefix_of` d -> (length p <= b)%nat -> p `prefix_of` take b d.
Proof.
  intros [t ->] Hb. rewrite take_app_ge by done. by eexists.
Qed.

Lemma at_start_only_take d p b : at_start_only d p -> at_start_only (take b d) p.
Proof.
  intros Hd k Hk. pose proof (prefix_of_drop_take _ _ _ _ Hk) as Hk'.
  apply prefix_of_take_len; [by eapply Hd|].
  apply prefix_length in Hk. rewrite length_drop, length_take in Hk. lia.
Qed.

Lemma cut_footer_prefix d p : exists b, cut_footer d p = take b d.
Proof.
  rewrite cut_footer_step. destruct (Index d p) as [[|k]|].
  - exists (length d). by rewrite take_ge.
  - by eexists.
  - exists (length d). by rewrite take_ge.
Qed.

Lemma cut_footer_at_start d p : at_start_only (cut_footer d p) p.
Proof.
  rewrite cut_footer_step. destruct (Index d p) as [[|k]|] eqn:Ei.
  - intros _ _. by destruct (Index_Some _ _ _ Ei) as (Hp & _).
  - intros j Hj. exfalso. destruct (Index_Some _ _ _ Ei) as (_ & _ & Hfirst).
    pose proof (prefix_of_drop_take _ _ _ _ Hj) as Hj'.
    destruct (decide (j < S k)%nat) as [Hlt|Hge]; [by apply (Hfirst j)|].
    apply prefix_length in Hj. rewrite length_drop, length_take in Hj.
    destruct p as [|c p]; [|cbn [length] in Hj; lia].
    destruct d; simpl in Ei; done.
  - intros j Hj. by destruct (Index_None _ _ Ei j).
Qed.

Lemma cut_footers_at_start (pats : list gostring) :
  forall d done_,
    Forall (at_start_only d) done_ ->
    Forall (at_start_only (foldl cut_footer d pats)) (done_ ++ pats)
    /\ exists b, foldl cut_footer d pats = take b d.
Proof.
  induction pats as [|p pats IH]; intros d done_ Hdone; simpl.
  - rewrite app_nil_r. split; [done|]. exists (length d). by rewrite take_ge.
  - destruct (cut_footer_prefix d p) as [b Hb].
    destruct (IH (cut_footer d p) (done_ ++ [p])) as [H1 [b' H2]].
    + apply Forall_app. split.
      * rewrite Hb. eapply Forall_impl; [done|]. intros q Hq. by apply at_start_only_take.
      * constructor; [apply cut_footer_at_start | constructor].
    + rewrite <- app_assoc in H1. split; [done|].
      rewrite H2, Hb. exists (b' `min` b)%nat. by rewrite take_take.
Qed.


Lemma footers_start_plain :
  Forall (fun p => forall rest, TrimLeftSpace (p ++ rest) = p ++ rest) description_footers.
Proof.
  unfold description_footers.
  repeat (constructor; [intros rest; apply TrimLeftSpace_keep; vm_compute; reflexivity|]).
  constructor.
Qed.

(** C4 (amended): a round of the footer loop cuts the description at the
    first occurrence of the fragment when that occurrence is not at offset
    0 and leaves it alone otherwise; hence a cleaned description contains a
    footer fragment only if it starts with it. *)
Theorem footer_cut (desc : gostring) :
  (forall d pattern,
     cut_footer d pattern =
     match Index d pattern with
     | Some (S k) => take (S k) d
     | _ => d
     end)
  /\ Forall (fun pattern =>
       forall k, pattern `prefix_of` drop k (cleanDescription desc) ->
                 pattern `prefix_of` cleanDescription desc) description_footers.
Proof.
  split; [apply cut_footer_step|].
  unfold cleanDescription.
  set (d0 := TrimSpace (regexp.ReplaceAllString re.spaces _ _ _)).
  destruct (cut_footers_at_start description_footers d0 []) as [Hat _]; [constructor|].
  rewrite app_nil_l in Hat.
  generalize dependent (foldl cut_footer d0 description_footers). intros dF Hat.
  pose proof footers_start_plain as Hplain.
  apply Forall_forall. intros p Hp k Hk.
  rewrite Forall_forall in Hat. specialize (Hat p Hp).
  rewrite Forall_forall in Hplain. specialize (Hplain p Hp).
  clear Hp d0.
  destruct (TrimSpace_infix dF) as (a & b & Hab).
  assert (Hin : p `prefix_of` dF).
  { apply (Hat (a + k)%nat). rewrite Hab in Hk.
    apply prefix_of_drop_take in Hk. by rewrite drop_drop in Hk. }
  destruct Hin as [rest ->].
  unfold TrimSpace, TrimRightSpace in Hk |- *. rewrite Hplain in Hk |- *.
  destruct (TrimRight_fuel_take (length (p ++ rest)) (p ++ rest)) as [b' Hb'].
  rewrite Hb' in Hk |- *.
  apply prefix_of_take_len; [by eexists|].
  apply prefix_length in Hk. rewrite length_drop, length_take in Hk. lia.
Qed.

(** C4 (as stated, refuted): a description that starts with a footer
    fragment is kept whole, later occurrences included. *)
Lemma footer_at_start_kept :
  cleanDescription (go "Twitter and Twitter") = go "Twitter and Twitter"
  /\ Contains (cleanDescription (go "Twitter and Twitter")) (go "Twitter") = true.
Proof. split; by vm_compute. Qed.

(** ** The end-to-end scenario *)

(** C1 (as stated, refuted): the extraction of [jett_doc] has no ability,
    so it is not the record of the scenario. *)
Lemma jett_no_abilities :
  Agent.Abilities (@parseMarkdown ascii_case jett_doc) = []
  /\ @parseMarkdown ascii_case jett_doc <> jett_claimed.
Proof. split; by vm_compute. Qed.

(** C1 (amended): [jett_doc] yields the name Jett, the role Duelist, the
    single media URL and no ability: no image line follows the numbered
    image, so no name is licensed. *)
Theorem jett_record `{CaseMapping} :
  parseMarkdown jett_doc =
  Agent.mk (go "Jett") (go "Duelist") [] [go "http://x/1.png"] jett_doc.
Proof. by vm_compute. Qed.

(** ** The media list *)

Lemma first_occurrences_elem seen l r :
  r ∈ first_occurrences seen l <-> r ∈ l /\ r ∉ seen.
Proof.
  revert seen. induction l as [|x l IH]; intros seen; simpl.
  - split; [by intros ?%elem_of_nil | by intros [?%elem_of_nil _]].
  - case_bool_decide as Hx.
    + rewrite IH, elem_of_cons. intuition (subst; congruence).
    + rewrite elem_of_cons, IH, !elem_of_cons.
      destruct (decide (r = x)); intuition (subst; congruence).
Qed.

Lemma first_occurrences_NoDup seen l : NoDup (first_occurrences seen l).
Proof.
  revert seen. induction l as [|x l IH]; intros seen; simpl; [constructor|].
  case_bool_decide; [done|]. constructor; [|done].
  rewrite first_occurrences_elem, elem_of_cons. intuition (subst; congruence).
Qed.

Lemma first_occurrences_sublist seen l : first_occurrences seen l `sublist_of` l.
Proof.
  revert seen. induction l as [|x l IH]; intros seen; simpl; [done|].
  case_bool_decide; [by apply sublist_cons | by apply sublist_skip].
Qed.

Lemma first_occurrences_ext seen seen' l :
  (forall r, r ∈ seen <-> r ∈ seen') ->
  first_occurrences seen l = first_occurrences seen' l.
Proof.
  revert seen seen'. induction l as [|x l IH]; intros seen seen' Hs; simpl; [done|].
  rewrite (bool_decide_ext _ _ (Hs x)). case_bool_decide; [by apply IH|].
  f_equal. apply IH. intros r. rewrite !elem_of_cons. by rewrite (Hs r).
Qed.

Lemma first_occurrences_app seen pre post :
  first_occurrences seen (pre ++ post) =
  first_occurrences seen pre ++ first_occurrences (pre ++ seen) post.
Proof.
  revert seen. induction pre as [|x pre IH]; intros seen; simpl; [done|].
  case_bool_decide as Hx.
  - rewrite IH. f_equal. apply first_occurrences_ext. intros r.
    rewrite !elem_of_app, !elem_of_cons, !elem_of_app.
    split; [tauto | intros [->|?]; tauto].
  - rewrite IH. simpl.
    rewrite (first_occurrences_ext (pre ++ x :: seen) (x :: pre ++ seen)); [done|].
    intros r. rewrite !elem_of_cons, !elem_of_app, elem_of_cons. tauto.
Qed.

Lemma submatches_length text n m : length (regexp.submatches text n m) = S n.
Proof.
  destruct m as [[b e] st]. simpl. by rewrite length_map, length_seq.
Qed.

Lemma extractImages_fold (ms : list (list gostring)) :
  Forall (fun m => length m = 2%nat) ms ->
  forall images (seen : gmap gostring bool) (S : list gostring),
    (forall r, default false (seen !! r) = true <-> r ∈ S) ->
    (foldl extractImages_step (images, seen) ms).1 =
    images ++ (urlEncode <$> first_occurrences S (filter (fun r => r <> []) (match_target <$> ms))).
Proof.
  induction 1 as [|m ms Hm Hms IH]; intros images seen S Hseen; simpl.
  - by rewrite app_nil_r.
  - rewrite Hm. simpl. fold (match_target m).
    rewrite filter_cons. unfold nonempty.
    destruct (decide (match_target m <> [])) as [Hne|He].
    + rewrite (bool_decide_eq_false_2 (match_target m = [])) by done. simpl.
      destruct (default false (seen !! match_target m)) eqn:Hs; simpl.
      * rewrite bool_decide_eq_true_2 by (by apply Hseen). by apply IH.
      * rewrite bool_decide_eq_false_2.
        2:{ intros Hin. apply Hseen in Hin. congruence. }
        rewrite (IH _ _ (match_target m :: S)).
        -- simpl. by rewrite <- app_assoc.
        -- intros r. rewrite elem_of_cons.
           destruct (decide (r = match_target m)) as [->|Hr].
           ++ rewrite lookup_insert_eq. simpl. intuition (subst; congruence).
           ++ rewrite lookup_insert_ne by done. rewrite Hseen. intuition (subst; congruence).
    + rewrite bool_decide_eq_true_2 by (by destruct (decide (match_target m = [])); [|done]).
      simpl. by apply IH.
Qed.

Lemma extractImages_kept (markdown : gostring) :
  extractImages markdown = urlEncode <$> first_occurrences [] (raw_targets markdown).
Proof.
  unfold extractImages, raw_targets.
  assert (Hlen : Forall (fun m : list gostring => length m = 2%nat)
                   (regexp.FindAllStringSubmatch re.image 1 markdown)).
  { unfold regexp.FindAllStringSubmatch. apply Forall_fmap, Forall_forall.
    intros m _. apply submatches_length. }
  rewrite (extractImages_fold _ Hlen [] ∅ []); [done|].
  intros r. rewrite lookup_empty. simpl. split; [done | by intros ?%elem_of_nil].
Qed.

Lemma first_occurrences_all (l : list gostring) (r : gostring) :
  r ∈ first_occurrences [] l <-> r ∈ l.
Proof.
  rewrite first_occurrences_elem. split; [by intros [? _]|].
  intros Hr. split; [done | by intros ?%elem_of_nil].
Qed.

(** C8: the media list is the normal forms of the first occurrences of the
    raw targets, in document order: no raw target is listed twice, each
    distinct one is listed, and targets that differ only before
    normalisation are not merged. *)
Theorem media_first_occurrences (markdown : gostring) :
  let raws := raw_targets markdown in
  let kept := first_occurrences [] raws in
  extractImages markdown = urlEncode <$> kept
  /\ NoDup kept
  /\ (forall r, r ∈ kept <-> r ∈ raws)
  /\ kept `sublist_of` raws
  /\ (forall pre post, raws = pre ++ post -> first_occurrences [] pre `prefix_of` kept)
  /\ extractImages mixed_case_doc = [go "http://x/a"; go "http://x/a"].
Proof.
  cbv zeta. split_and!.
  - apply extractImages_kept.
  - apply first_occurrences_NoDup.
  - apply first_occurrences_all.
  - apply first_occurrences_sublist.
  - intros pre post ->. rewrite first_occurrences_app. by eexists.
  - by vm_compute.
Qed.

(** ** URL normalisation *)

Lemma unescape_nil s mode : url.unescape s mode = Some [] -> s = [].
Proof.
  destruct s as [|c t]; [done|]. simpl.
  repeat case_bool_decide; simpl.
  - destruct t as [|h1 [|h2 rest]]; try done.
    repeat (match goal with |- context [if ?b then _ else _] => destruct b end; try done);
      destruct (url.unescape rest mode); done.
  - destruct (url.unescape t mode); done.
  - repeat (match goal with |- context [if ?b then _ else _] => destruct b end; try done);
      destruct (url.unescape t mode); done.
Qed.

Lemma escape_nil s mode : url.escape s mode = [] -> s = [].
Proof.
  destruct s as [|c t]; [done|]. unfold url.escape. simpl. unfold url.escape_byte.
  repeat (match goal with |- context [if ?b then _ else _] => destruct b end; try done).
Qed.

Lemma LastIndexByte_lt s c i : LastIndexByte s c = Some i -> (i < length s)%nat.
Proof.
  revert i. induction s as [|x s IH]; intros i; simpl; [done|].
  destruct (LastIndexByte s c) as [j|].
  - intros [= <-]. specialize (IH j eq_refl). lia.
  - case_bool_decide; [|done]. intros [= <-]. lia.
Qed.

Lemma getScheme_from_nil rawURL i s rest :
  s = drop i rawURL ->
  url.getScheme_from rawURL i s = url.SchemeOk [] rest -> rest = rawURL.
Proof.
  revert i. induction s as [|c s IH]; intros i Hs; simpl.
  - by intros [= <-].
  - assert (Hs' : s = drop (S i) rawURL).
    { replace (S i) with (i + 1)%nat by lia. by rewrite <- drop_drop, <- Hs. }
    assert (Hlen : (i < length rawURL)%nat).
    { apply (f_equal length) in Hs. rewrite length_drop in Hs. simpl in Hs. lia. }
    destruct (_ || _); [by apply IH|].
    destruct (_ || _).
    { destruct i; [by intros [= <-] | by apply IH]. }
    case_bool_decide; [|by intros [= <-]].
    destruct i; [done|]. intros [= Ht <-]. exfalso.
    destruct rawURL; simpl in *; [lia | done].
Qed.

Lemma String_nil u :
  url.String u = [] ->
  url.Scheme u = [] /\ url.Opaque u = [] /\ url.User u = None /\ url.Host u = []
  /\ url.Path u = [] /\ url.ForceQuery u = false /\ url.RawQuery u = []
  /\ url.Fragment u = [].
Proof.
  destruct u as [sch op us ho pa rp om fq rq fr rf]. unfold url.String.
  cbn [url.Scheme url.Opaque url.User url.Host url.Path url.RawPath url.OmitHost
       url.ForceQuery url.RawQuery url.Fragment url.RawFragment].
  intros H. apply app_eq_nil in H as [Hbody H]. apply app_eq_nil in H as [Hq Hf].
  assert (fr = []) as -> by (by destruct fr).
  assert (fq = false /\ rq = []) as [-> ->] by (by destruct fq, rq).
  destruct op as [|o op]; simpl in Hbody.
  2:{ by apply app_eq_nil in Hbody as [_ ?]. }
  apply app_eq_nil in Hbody as [Hbuf Hpath]. apply app_eq_nil in Hpath as [_ Hpath].
  apply app_eq_nil in Hbuf as [Hsch Hbuf]. apply app_eq_nil in Hbuf as [Hauth _].
  assert (sch = []) as ->.
  { destruct sch; [done|]. simpl in Hsch. done. }
  assert (pa = []) as ->.
  { unfold url.EscapedPath in Hpath. cbn [url.Path url.RawPath] in Hpath.
    destruct (_ && _) eqn:E in Hpath.
    - subst rp. done.
    - destruct (bool_decide (pa = go "*")); [done|]. by apply escape_nil in Hpath. }
  assert (ho = [] /\ us = None) as [-> ->].
  { destruct ho, us; simpl in Hauth; try done; by destruct om. }
  done.
Qed.

Lemma parseHost_nil host : url.parseHost host = Some [] -> host = [].
Proof.
  unfold url.parseHost. destruct host as [|c host]; [done|]. intros H. exfalso.
  assert (Hplain : url.unescape (c :: host) url.encodeHost <> Some []).
  { by intros ?%unescape_nil. }
  destruct (HasPrefix (c :: host) (go "[")).
  - destruct (LastIndexByte (c :: host) "]") as [i|] eqn:Ei; [|done].
    apply LastIndexByte_lt in Ei.
    destruct (negb _); [done|].
    destruct (Index _ _) as [zone|]; [|done].
    destruct (url.unescape (take zone (c :: host)) url.encodeHost) as [h1|]; [|done].
    destruct (url.unescape (slice (c :: host) zone i) url.encodeZone) as [h2|]; [|done].
    destruct (url.unescape (drop i (c :: host)) url.encodeHost) as [h3|] eqn:E3; [|done].
    simpl in H. injection H as H. apply app_eq_nil in H as [_ [_ ->]%app_eq_nil].
    apply unescape_nil in E3. apply (f_equal length) in E3.
    rewrite length_drop in E3. change (length (@nil ascii)) with 0%nat in E3. lia.
  - destruct (LastIndexByte (c :: host) ":") as [i|]; [|done].
    by destruct (url.validOptionalPort _).
Qed.

Lemma parseAuthority_nil authority :
  url.parseAuthority authority = Some (None, []) -> authority = [].
Proof.
  unfold url.parseAuthority.
  destruct (LastIndexByte authority "@") as [i|].
  - destruct (url.parseHost _); simpl; [|done].
    destruct (negb _); [done|]. destruct (negb _).
    + by destruct (url.unescape _ _).
    + destruct (Cut _ _) as [[name pass] b].
      destruct (url.unescape name _); simpl; [|done]. by destruct (url.unescape pass _).
  - destruct (url.parseHost authority) as [h|] eqn:E; simpl; [|done].
    intros [= ->]. by apply parseHost_nil.
Qed.

Lemma Index_split s sep i :
  Index s sep = Some i -> s = take i s ++ sep ++ drop (i + length sep) s.
Proof.
  intros Hi. destruct (Index_Some _ _ _ Hi) as ([t Ht] & _ & _).
  rewrite <- (take_drop i s) at 1. f_equal. rewrite Ht at 1. f_equal.
  rewrite <- drop_drop, Ht. by rewrite drop_app_length.
Qed.

Lemma HasSuffix_app s suffix : HasSuffix (s ++ suffix) suffix = true.
Proof.
  unfold HasSuffix. rewrite rev_app_distr. apply HasPrefix_spec. by eexists.
Qed.

Lemma Count_last s sep i :
  sep <> [] -> Index s sep = Some i -> drop (i + length sep) s = [] -> Count s sep = 1%nat.
Proof.
  intros Hsep Hi Hd. unfold Count.
  destruct (length s) eqn:Hl.
  - destruct s; [|done]. destruct sep; [done|]. simpl in Hi. done.
  - simpl. rewrite Hi, Hd. destruct n; [done|]. simpl.
    destruct sep; [done|]. done.
Qed.


Lemma getScheme_from_spec rawURL i s scheme rest :
  s = drop i rawURL -> forallb scheme_char (take i rawURL) = true ->
  url.getScheme_from rawURL i s = url.SchemeOk scheme rest ->
  (scheme = [] /\ rest = rawURL)
  \/ (rawURL = scheme ++ ":"%char :: rest /\ forallb scheme_char scheme = true).
Proof.
  revert i. induction s as [|c s IH]; intros i Hs Hok; simpl.
  - intros [= <- <-]. by left.
  - assert (Hs' : s = drop (S i) rawURL).
    { replace (S i) with (i + 1)%nat by lia. by rewrite <- drop_drop, <- Hs. }
    assert (Hi : rawURL !! i = Some c).
    { rewrite <- (Nat.add_0_r i), <- lookup_drop, <- Hs. done. }
    assert (Hstep : scheme_char c = true -> forallb scheme_char (take (S i) rawURL) = true).
    { intros Hc. rewrite (take_S_r _ _ _ Hi), forallb_app, Hok. simpl. by rewrite Hc. }
    unfold scheme_char in Hstep.
    destruct (between 97 (byte c) 122 || between 65 (byte c) 90) eqn:E1.
    { apply IH; [done | by apply Hstep]. }
    destruct (between 48 (byte c) 57 || url.is_in c "+-.") eqn:E2.
    { destruct i; [intros [= <- <-]; by left | apply IH; [done | by apply Hstep]]. }
    case_bool_decide as Hc; [|intros [= <- <-]; by left].
    destruct i; [done|]. intros [= <- <-]. right. split; [|done].
    rewrite <- (take_drop (S i) rawURL) at 1. by rewrite <- Hs, Hc.
Qed.

Lemma getScheme_spec rawURL scheme rest :
  url.getScheme rawURL = url.SchemeOk scheme rest ->
  (scheme = [] /\ rest = rawURL)
  \/ (rawURL = scheme ++ ":"%char :: rest /\ forallb scheme_char scheme = true).
Proof. by apply getScheme_from_spec. Qed.

Lemma HasSuffix_split s suffix :
  HasSuffix s suffix = true -> s = take (length s - length suffix) s ++ suffix.
Proof.
  unfold HasSuffix. intros [t Ht]%HasPrefix_spec.
  apply (f_equal (@rev ascii)) in Ht. rewrite rev_involutive, rev_app_distr, rev_involutive in Ht.
  rewrite Ht, length_app, Nat.add_sub, take_app_length. done.
Qed.

Lemma split_query_spec rest0 rest force query :
  url.split_query rest0 = (rest, force, query) ->
  rest0 = rest ++ (if force || nonempty query then "?"%char :: query else []).
Proof.
  unfold url.split_query, Cut. change (go "?") with ["?"%char].
  destruct (HasSuffix rest0 ["?"%char]) eqn:Hsuf; simpl.
  - case_bool_decide as Hcount.
    + intros ?; simplify_eq. exact (HasSuffix_split _ _ Hsuf).
    + destruct (Index rest0 ["?"%char]) as [i|] eqn:Hi.
      * intros ?; simplify_eq. simpl. pose proof (Index_split _ _ _ Hi) as Hsplit.
        unfold nonempty. case_bool_decide as Hq; simpl; [|exact Hsplit].
        exfalso. apply Hcount. by apply (Count_last _ _ i).
      * intros ?; simplify_eq. simpl. by rewrite app_nil_r.
  - destruct (Index rest0 ["?"%char]) as [i|] eqn:Hi.
    + intros ?; simplify_eq. simpl. pose proof (Index_split _ _ _ Hi) as Hsplit.
      unfold nonempty. case_bool_decide as Hq; simpl; [|exact Hsplit].
      exfalso. cbn [length] in Hsplit. rewrite Hq in Hsplit.
      rewrite Hsplit, HasSuffix_app in Hsuf. done.
    + intros ?; simplify_eq. simpl. by rewrite app_nil_r.
Qed.

Lemma split_authority_spec rest authority rest' :
  url.split_authority rest = (authority, rest') -> drop 2 rest = authority ++ rest'.
Proof.
  unfold url.split_authority. destruct (Index _ _).
  - intros [= <- <-]. by rewrite take_drop.
  - intros [= <- <-]. by rewrite app_nil_r.
Qed.

Lemma parse_inv rawURL u : url.parse rawURL = Some u -> parse_shape rawURL u.
Proof.
  unfold url.parse. destruct (url.stringContainsCTLByte rawURL); [done|].
  case_bool_decide as Hstar.
  { intros [= <-]. by apply shape_star. }
  destruct (url.getScheme rawURL) as [|scheme0 rest0] eqn:Hsch; [done|].
  destruct (url.split_query rest0) as [[rest force] query] eqn:Hq.
  assert (Hnil : bool_decide (map lower_byte scheme0 = []) = bool_decide (scheme0 = [])).
  { by destruct scheme0. }
  rewrite Hnil. clear Hnil.
  destruct (bool_decide (scheme0 = [])) eqn:Hs0;
    [apply bool_decide_eq_true in Hs0 | apply bool_decide_eq_false in Hs0];
    destruct (HasPrefix rest (go "/")) eqn:Hslash; cbn [negb andb orb].
  - destruct (_ && _) eqn:Hauth.
    + destruct (url.split_authority rest) as [authority rest'] eqn:Hsplit.
      destruct (url.parseAuthority authority) as [[user host]|] eqn:Hpa; [|done].
      destruct (url.setPath rest') as [[path rawpath]|] eqn:Hsp; [|done].
      intros [= <-]. apply andb_prop in Hauth as [_ H2].
      by eapply shape_authority.
    + destruct (url.setPath rest) as [[path rawpath]|] eqn:Hsp; [|done].
      intros [= <-]. eapply shape_path; eauto.
      intros _ H2. rewrite H2, andb_true_r in Hauth.
      by destruct (HasPrefix rest (go "///")).
  - destruct (Contains _ _); [done|].
    assert (Hno : HasPrefix rest (go "//") = false).
    { apply HasPrefix_false. intros Hp. apply HasPrefix_false in Hslash. apply Hslash.
      etrans; [|exact Hp]. by exists (go "/"). }
    rewrite Hno, andb_false_r.
    destruct (url.setPath rest) as [[path rawpath]|] eqn:Hsp; [|done].
    intros [= <-]. eapply shape_path; eauto. congruence.
  - destruct (HasPrefix rest (go "//")) eqn:H2.
    + destruct (url.split_authority rest) as [authority rest'] eqn:Hsplit.
      destruct (url.parseAuthority authority) as [[user host]|] eqn:Hpa; [|done].
      destruct (url.setPath rest') as [[path rawpath]|] eqn:Hsp; [|done].
      intros [= <-]. by eapply shape_authority.
    + destruct (url.setPath rest) as [[path rawpath]|] eqn:Hsp; [|done].
      intros [= <-]. eapply shape_path; eauto; congruence.
  - intros [= <-]. by eapply shape_opaque.
Qed.

Lemma Cut_spec s sep a b found :
  Cut s sep = (a, b, found) ->
  s = a ++ (if found then sep ++ b else []) /\ (found = false -> b = []).
Proof.
  unfold Cut. destruct (Index s sep) as [i|] eqn:Hi; intros ?; simplify_eq.
  - split; [by apply Index_split | done].
  - by rewrite app_nil_r.
Qed.

Lemma Parse_inv rawURL u :
  url.Parse rawURL = Some u ->
  exists u0 frag found base,
    Cut rawURL (go "#") = (u0, frag, found)
    /\ url.parse u0 = Some base
    /\ ((frag = [] /\ u = base)
        \/ (frag <> [] /\ exists f rawf,
              url.setFragment frag = Some (f, rawf) /\ u = with_fragment base f rawf)).
Proof.
  unfold url.Parse. destruct (Cut rawURL (go "#")) as [[u0 frag] found] eqn:Hcut.
  destruct (url.parse u0) as [base|] eqn:Hp; [|done]. cbn [mbind option_bind].
  destruct frag as [|c frag].
  - intros [= <-]. exists u0, [], found, base. split_and!; [done | done | by left].
  - destruct (url.setFragment (c :: frag)) as [[f rawf]|] eqn:Hf; [|done].
    cbn [mbind option_bind]. intros [= <-].
    exists u0, (c :: frag), found, base. split_and!; [done | done |].
    right. split; [done|]. by exists f, rawf.
Qed.

Lemma setPath_nil p rawpath : url.setPath p = Some ([], rawpath) -> p = [].
Proof.
  unfold url.setPath. destruct (url.unescape p url.encodePath) as [path|] eqn:E; [|done].
  cbn [mbind option_bind]. intros ?; simplify_eq. by apply unescape_nil in E.
Qed.

Lemma setFragment_nil f rawf : url.setFragment f = Some ([], rawf) -> f = [].
Proof.
  unfold url.setFragment. destruct (url.unescape f url.encodeFragment) as [frag|] eqn:E; [|done].
  cbn [mbind option_bind]. intros ?; simplify_eq. by apply unescape_nil in E.
Qed.

Lemma parse_nil u0 base :
  url.parse u0 = Some base ->
  url.Scheme base = [] -> url.User base = None -> url.Host base = [] ->
  url.Path base = [] -> url.ForceQuery base = false -> url.RawQuery base = [] ->
  u0 = [] \/ u0 = go "//".
Proof.
  intros Hp%parse_inv Hsch Hus Hho Hpa Hfq Hrq.
  destruct Hp as [? ->|scheme0 rest0 rest force query Hg Hq Hne ->
                 |scheme0 rest0 rest force query authority rest' user host path rawpath
                    Hg Hq H2 Hsplit Hauth Hsp ->
                 |scheme0 rest0 rest force query path rawpath omit Hg Hq _ _ Hsp ->];
    cbn in Hsch, Hus, Hho, Hpa, Hfq, Hrq; subst.
  - done.
  - by destruct scheme0.
  - destruct scheme0; [|done]. apply getScheme_from_nil in Hg; [|done]. subst rest0.
    apply split_query_spec in Hq. cbn in Hq. rewrite app_nil_r in Hq. subst rest.
    apply parseAuthority_nil in Hauth. apply setPath_nil in Hsp. subst.
    apply split_authority_spec in Hsplit. right.
    apply HasPrefix_spec in H2 as [t ->].
    change (drop 2 (go "//" ++ t)) with t in Hsplit. rewrite Hsplit. done.
  - destruct scheme0; [|done]. apply getScheme_from_nil in Hg; [|done]. subst rest0.
    apply split_query_spec in Hq. cbn in Hq. rewrite app_nil_r in Hq. subst rest.
    apply setPath_nil in Hsp. by left.
Qed.

Lemma urlEncode_nil (rawURL : gostring) :
  urlEncode rawURL = [] <-> rawURL ∈ empty_normal_forms.
Proof.
  split.
  - unfold urlEncode. destruct (url.Parse rawURL) as [u|] eqn:HP.
    2:{ intros ->. by left. }
    intros (Hsch & Hop & Hus & Hho & Hpa & Hfq & Hrq & Hfr)%String_nil.
    apply Parse_inv in HP as (u0 & frag & found & base & Hcut & Hp & Hfrag).
    apply Cut_spec in Hcut as [-> Hb].
    assert (frag = [] /\ u = base) as [-> ->].
    { destruct Hfrag as [|(Hne & f & rawf & Hf & ->)]; [done|]. cbn in Hfr. subst f.
      by apply setFragment_nil in Hf. }
    destruct (parse_nil _ _ Hp Hsch Hus Hho Hpa Hfq Hrq) as [->| ->];
      destruct found; vm_compute; repeat constructor.
  - unfold empty_normal_forms. rewrite !elem_of_cons, elem_of_nil.
    intros [->|[->|[->|[->|[]]]]]; by vm_compute.
Qed.

(** C7 (as stated, refuted): the target [#] is not empty, parses, and is
    stored in the media list as the empty string. *)
Lemma hash_target_stored_empty :
  urlEncode (go "#") = [] /\ extractImages (go "![a](#)") = [[]].
Proof. split; by vm_compute. Qed.

(** C7 (amended): a string that does not parse is returned unchanged; the
    normal form of a string is empty exactly for the empty string, [#],
    [//] and [//#]; every media entry is the normal form of a non-empty
    trimmed target, so it is empty only for the last three; and the image
    of a slot within the map is the normal form of the target stored for
    it. *)
Theorem stored_urls :
  (forall rawURL, url.Parse rawURL = None -> urlEncode rawURL = rawURL)
  /\ (forall rawURL, urlEncode rawURL = [] <-> rawURL ∈ empty_normal_forms)
  /\ (forall markdown,
        Forall (fun entry => exists rawURL,
                    rawURL ∈ raw_targets markdown /\ rawURL <> []
                    /\ entry = urlEncode rawURL
                    /\ (entry = [] -> rawURL ∈ [go "#"; go "//"; go "//#"]))
               (extractImages markdown))
  /\ (forall (imageMap : gmap Z gostring) slot target,
        (slot + 1 <= size imageMap)%nat ->
        imageMap !! Z.of_nat (slot + 1) = Some target ->
        ability_image imageMap slot = urlEncode target).
Proof.
  split_and!.
  - intros rawURL Hp. unfold urlEncode. by rewrite Hp.
  - apply urlEncode_nil.
  - intros markdown.
    rewrite extractImages_kept.
    apply Forall_fmap, Forall_forall. intros rawURL Hr.
    apply (proj1 (first_occurrences_all _ _)) in Hr. exists rawURL.
    assert (Hne : rawURL <> []).
    { unfold raw_targets in Hr. by apply list_elem_of_filter in Hr as [? _]. }
    split_and!; [done | done | done |].
    intros He%urlEncode_nil. unfold empty_normal_forms in He.
    by apply elem_of_cons in He as [?|?].
  - intros imageMap slot target Hle Hk. unfold ability_image.
    rewrite (proj2 (Nat.leb_le _ _) Hle), Hk. done.
Qed.

(** ** Ampersands *)

Lemma amps_app s t : amps (s ++ t) = (amps s + amps t)%nat.
Proof. unfold amps. by rewrite filter_app, length_app. Qed.

Lemma amps_cons c s : amps (c :: s) = ((if bool_decide (c = amp) then 1 else 0) + amps s)%nat.
Proof. unfold amps. rewrite filter_cons. case_bool_decide; by destruct (decide _). Qed.

Lemma amps_take_drop s n : amps s = (amps (take n s) + amps (drop n s))%nat.
Proof. by rewrite <- amps_app, take_drop. Qed.

Lemma ishex_not_amp c : url.ishex c = true -> bool_decide (c = amp) = false.
Proof. case_bool_decide as Hc; [|done]. by rewrite Hc. Qed.

Lemma unescape_amps_aux n : forall s mode t,
  (length s <= n)%nat -> url.unescape s mode = Some t -> (amps s <= amps t)%nat.
Proof.
  induction n as [|n IH]; intros s mode t Hlen.
  - destruct s; [|simpl in Hlen; lia]. by intros [= <-].
  - destruct s as [|c s]; [by intros [= <-]|]. simpl in Hlen. simpl.
    case_bool_decide as Hpc.
    + destruct s as [|h1 [|h2 rest]]; try done.
      destruct (url.ishex h1) eqn:Hh1; [|done]. destruct (url.ishex h2) eqn:Hh2; [|done].
      cbn [andb negb].
      repeat (match goal with |- context [if ?b then _ else _] => destruct b end; try done).
      all: destruct (url.unescape rest mode) as [t'|] eqn:E; [|done]; simpl; intros [= <-].
      all: assert (amps rest <= amps t')%nat by (apply (IH _ mode); [simpl in Hlen; lia | done]).
      all: subst c; rewrite !amps_cons, (ishex_not_amp _ Hh1), (ishex_not_amp _ Hh2).
      all: rewrite (bool_decide_eq_false_2 (url.percent = amp)) by done; lia.
    + case_bool_decide as Hplus.
      * destruct (url.unescape s mode) as [t'|] eqn:E; [|done]. simpl. intros [= <-].
        assert (amps s <= amps t')%nat by (apply (IH _ mode); [lia | done]).
        subst c. rewrite !amps_cons.
        rewrite (bool_decide_eq_false_2 ("+"%char = amp)) by done. lia.
      * destruct (_ && _); [done|].
        destruct (url.unescape s mode) as [t'|] eqn:E; [|done]. simpl. intros [= <-].
        assert (amps s <= amps t')%nat by (apply (IH _ mode); [lia | done]).
        rewrite !amps_cons. lia.
Qed.

Lemma unescape_amps s mode t : url.unescape s mode = Some t -> (amps s <= amps t)%nat.
Proof. by apply (unescape_amps_aux (length s)). Qed.

Lemma escape_byte_amps c mode :
  url.shouldEscape amp mode = false -> amps (url.escape_byte c mode) = amps [c].
Proof.
  destruct mode; try done; intros _;
    destruct c as [[] [] [] [] [] [] [] []]; by vm_compute.
Qed.

Lemma escape_amps s mode :
  url.shouldEscape amp mode = false -> amps (url.escape s mode) = amps s.
Proof.
  intros Hm. induction s as [|c s IH]; [done|].
  unfold url.escape in *. simpl. rewrite amps_app, IH, (escape_byte_amps _ _ Hm).
  by rewrite <- amps_app.
Qed.

Lemma LastIndexByte_split s c i :
  LastIndexByte s c = Some i -> s = take i s ++ c :: drop (S i) s.
Proof.
  revert i. induction s as [|x s IH]; intros i; simpl; [done|].
  destruct (LastIndexByte s c) as [j|].
  - intros [= <-]. simpl. f_equal. by apply IH.
  - case_bool_decide as Hx; [|done]. intros [= <-]. simpl. by rewrite Hx, drop_0.
Qed.

Lemma scheme_amps s : forallb scheme_char s = true -> amps s = 0%nat.
Proof.
  induction s as [|c s IH]; [done|]. simpl. intros [Hc Hs]%andb_prop.
  rewrite amps_cons, IH by done. case_bool_decide as Ha; [|done].
  rewrite Ha in Hc. by vm_compute in Hc.
Qed.

Lemma parseHost_amps h host :
  url.parseHost h = Some host -> (amps h <= amps host)%nat.
Proof.
  unfold url.parseHost.
  destruct (HasPrefix h (go "[")).
  - destruct (LastIndexByte h "]") as [i|]; [|done].
    destruct (negb _); [done|].
    destruct (Index (take i h) (go "%25")) as [zone|] eqn:Hz; [|apply unescape_amps].
    destruct (url.unescape (take zone h) url.encodeHost) as [h1|] eqn:E1; [|done].
    destruct (url.unescape (slice h zone i) url.encodeZone) as [h2|] eqn:E2; [|done].
    destruct (url.unescape (drop i h) url.encodeHost) as [h3|] eqn:E3; [|done].
    cbn [mbind option_bind]. intros [= <-].
    apply unescape_amps in E1, E2, E3.
    assert (Hzi : (zone <= i)%nat).
    { destruct (Index_Some _ _ _ Hz) as (_ & Hle & _). rewrite length_take in Hle. lia. }
    rewrite !amps_app. rewrite (amps_take_drop h zone).
    rewrite (amps_take_drop (drop zone h) (i - zone)).
    rewrite drop_drop. replace (zone + (i - zone))%nat with i by lia.
    unfold slice in E2. lia.
  - destruct (LastIndexByte h ":") as [i|]; [|apply unescape_amps].
    destruct (url.validOptionalPort _); [apply unescape_amps | done].
Qed.

Lemma parseAuthority_amps authority user host :
  url.parseAuthority authority = Some (user, host) ->
  (amps authority <= user_amps user + amps (url.escape host url.encodeHost))%nat.
Proof.
  unfold url.parseAuthority. rewrite escape_amps by done.
  destruct (LastIndexByte authority "@") as [i|] eqn:Hi.
  - destruct (url.parseHost (drop (S i) authority)) as [h|] eqn:Hh; [|done].
    cbn [mbind option_bind]. apply parseHost_amps in Hh.
    apply LastIndexByte_split in Hi.
    assert (Hsum : amps authority = (amps (take i authority) + amps (drop (S i) authority))%nat).
    { rewrite Hi at 1. rewrite amps_app, amps_cons. done. }
    destruct (negb (url.validUserinfo _)); [done|].
    destruct (negb (Contains _ _)).
    + destruct (url.unescape (take i authority) _) as [name|] eqn:En; [|done].
      cbn [mbind option_bind]. intros [= <- <-]. apply unescape_amps in En.
      unfold user_amps, url.Userinfo_String.
      cbn [url.username url.password url.passwordSet].
      rewrite app_nil_r, escape_amps by done. lia.
    + destruct (Cut (take i authority) (go ":")) as [[name pass] found] eqn:Hcut.
      apply Cut_spec in Hcut as [Hcut Hnf].
      destruct (url.unescape name _) as [name'|] eqn:En; [|done].
      destruct (url.unescape pass _) as [pass'|] eqn:Ep; [|done].
      cbn [mbind option_bind]. intros [= <- <-].
      apply unescape_amps in En, Ep.
      unfold user_amps, url.Userinfo_String.
      cbn [url.username url.password url.passwordSet].
      change (go ":" ++ ?x) with (":"%char :: x).
      rewrite amps_app, amps_cons, !escape_amps by done.
      assert (amps (take i authority) = (amps name + amps pass)%nat).
      { rewrite Hcut, amps_app. destruct found.
        - by rewrite amps_app.
        - rewrite Hnf by done. done. }
      rewrite (bool_decide_eq_false_2 (":"%char = amp)) by done. lia.
  - destruct (url.parseHost authority) as [h|] eqn:Hh; [|done].
    cbn [mbind option_bind]. intros [= <- <-]. apply parseHost_amps in Hh. simpl. lia.
Qed.

Lemma setPath_amps p u :
  url.setPath p = Some (url.Path u, url.RawPath u) ->
  (amps p <= amps (url.EscapedPath u))%nat.
Proof.
  unfold url.setPath, url.EscapedPath.
  destruct (url.unescape p url.encodePath) as [path|] eqn:E; [|done].
  cbn [mbind option_bind]. intros [= Hpath Hraw]. apply unescape_amps in E.
  destruct (_ && _) eqn:Hc.
  - rewrite <- Hraw in Hc |- *.
    destruct (bool_decide (p = url.escape path url.encodePath)); [by cbn in Hc | lia].
  - rewrite <- Hpath. destruct (bool_decide (path = go "*")) eqn:Hs.
    + apply bool_decide_eq_true in Hs. rewrite Hs in E. exact E.
    + by rewrite escape_amps.
Qed.

Lemma setFragment_amps f u :
  url.setFragment f = Some (url.Fragment u, url.RawFragment u) ->
  (amps f <= amps (url.EscapedFragment u))%nat.
Proof.
  unfold url.setFragment, url.EscapedFragment.
  destruct (url.unescape f url.encodeFragment) as [frag|] eqn:E; [|done].
  cbn [mbind option_bind]. intros [= Hfrag Hraw]. apply unescape_amps in E.
  destruct (_ && _) eqn:Hc.
  - rewrite <- Hraw in Hc |- *.
    destruct (bool_decide (f = url.escape frag url.encodeFragment)); [by cbn in Hc | lia].
  - rewrite <- Hfrag. by rewrite escape_amps.
Qed.

Lemma nonempty_false s : url.nonempty s = false -> s = [].
Proof. unfold url.nonempty. by destruct s. Qed.

Lemma String_amps u :
  (body_amps u + amps (url.RawQuery u)
   + (if url.nonempty (url.Fragment u) then amps (url.EscapedFragment u) else 0)
   <= amps (url.String u))%nat.
Proof.
  unfold url.String, body_amps.
  set (path := url.EscapedPath u). set (frag := url.EscapedFragment u).
  rewrite !amps_app.
  assert (Hq : (amps (url.RawQuery u) <=
                amps (if url.ForceQuery u || url.nonempty (url.RawQuery u)
                      then go "?" ++ url.RawQuery u else []))%nat).
  { destruct (url.ForceQuery u || url.nonempty (url.RawQuery u)) eqn:E.
    - change (go "?" ++ url.RawQuery u) with ("?"%char :: url.RawQuery u).
      rewrite amps_cons. lia.
    - apply orb_false_elim in E as [_ ->%nonempty_false]. done. }
  assert (Hf : ((if url.nonempty (url.Fragment u) then amps frag else 0) <=
                amps (if url.nonempty (url.Fragment u) then go "#" ++ frag else []))%nat).
  { destruct (url.nonempty (url.Fragment u)); [|done].
    change (go "#" ++ frag) with ("#"%char :: frag). rewrite amps_cons. lia. }
  destruct (url.nonempty (url.Opaque u)).
  { rewrite amps_app. lia. }
  rewrite !amps_app.
  assert (Ha : (user_amps (url.User u) + amps (url.escape (url.Host u) url.encodeHost) <=
     amps (if url.nonempty (url.Scheme u) || url.nonempty (url.Host u)
              || bool_decide (is_Some (url.User u))
           then
             if url.OmitHost u && negb (url.nonempty (url.Host u))
                && bool_decide (url.User u = None)
             then []
             else
               (if url.nonempty (url.Host u) || url.nonempty (url.Path u)
                   || bool_decide (is_Some (url.User u))
                then go "//" else [])
               ++ match url.User u with
                  | Some ui => url.Userinfo_String ui ++ go "@"
                  | None => []
                  end
               ++ (if url.nonempty (url.Host u) then url.escape (url.Host u) url.encodeHost
                   else [])
           else []))%nat).
  { destruct (url.User u) as [ui|]; destruct (url.nonempty (url.Host u)) eqn:Hh;
      try (apply nonempty_false in Hh; rewrite Hh);
      rewrite ?orb_true_r, ?andb_false_r; cbn [orb andb negb user_amps];
      rewrite ?orb_true_r, ?andb_false_r; rewrite ?amps_app; try lia.
    all: repeat (match goal with |- context [if ?b then _ else _] => destruct b end);
      rewrite ?amps_app; cbn; lia. }
  lia.
Qed.

Lemma split_amps u0 scheme0 rest0 rest force query :
  url.getScheme u0 = url.SchemeOk scheme0 rest0 ->
  url.split_query rest0 = (rest, force, query) ->
  (amps u0 <= amps rest + amps query)%nat.
Proof.
  intros Hg Hq.
  assert (H0 : amps u0 = amps rest0).
  { apply getScheme_spec in Hg as [[_ ->]|[-> Hs]]; [done|].
    rewrite amps_app, amps_cons, (scheme_amps _ Hs).
    by rewrite (bool_decide_eq_false_2 (":"%char = amp)). }
  apply split_query_spec in Hq. rewrite H0, Hq, amps_app.
  destruct (force || nonempty query); [|change (amps []) with 0%nat; lia].
  rewrite amps_cons. rewrite (bool_decide_eq_false_2 ("?"%char = amp)) by done. lia.
Qed.

Lemma parse_amps u0 base :
  url.parse u0 = Some base ->
  (amps u0 <= body_amps base + amps (url.RawQuery base))%nat.
Proof.
  intros Hp%parse_inv.
  destruct Hp as [-> ->|scheme0 rest0 rest force query Hg Hq Hne ->
                 |scheme0 rest0 rest force query authority rest' user host path rawpath
                    Hg Hq H2 Hsplit Hauth Hsp ->
                 |scheme0 rest0 rest force query path rawpath omit Hg Hq _ _ Hsp ->].
  - by vm_compute.
  - pose proof (split_amps _ _ _ _ _ _ Hg Hq) as H. unfold body_amps.
    cbn [url.Opaque url.RawQuery].
    destruct (url.nonempty rest) eqn:Hr; [lia|].
    apply nonempty_false in Hr. subst rest. cbn [amps filter length] in H. 
    change (amps []) with 0%nat in H. lia.
  - pose proof (split_amps _ _ _ _ _ _ Hg Hq) as H. unfold body_amps.
    cbn [url.Opaque url.RawQuery url.User url.Host url.nonempty bool_decide negb].
    apply parseAuthority_amps in Hauth.
    match goal with |- context [url.EscapedPath ?u] =>
      pose proof (setPath_amps rest' u Hsp) as Hpath end.
    apply split_authority_spec in Hsplit.
    apply HasPrefix_spec in H2 as [t Ht]. rewrite Ht in H, Hsplit.
    change (drop 2 (go "//" ++ t)) with t in Hsplit. subst t.
    change (go "//" ++ ?x) with ("/"%char :: "/"%char :: x) in H.
    rewrite !amps_cons, amps_app in H.
    rewrite (bool_decide_eq_false_2 ("/"%char = amp)) in H by done.
    change (url.nonempty []) with false. cbv iota. lia.
  - pose proof (split_amps _ _ _ _ _ _ Hg Hq) as H. unfold body_amps.
    cbn [url.Opaque url.RawQuery url.User url.Host url.nonempty bool_decide negb].
    match goal with |- context [url.EscapedPath ?u] =>
      pose proof (setPath_amps rest u Hsp) as Hpath end.
    change (url.nonempty []) with false. cbv iota. cbn [user_amps].
    change (amps (url.escape [] url.encodeHost)) with 0%nat. lia.
Qed.

Lemma body_amps_with_fragment base f rawf :
  body_amps (with_fragment base f rawf) = body_amps base.
Proof. done. Qed.

(** The normal form of a string has at least as many [&] as the string. *)
Lemma ampersands_kept (rawURL : gostring) :
  (amps rawURL <= amps (urlEncode rawURL))%nat.
Proof.
  unfold urlEncode. destruct (url.Parse rawURL) as [u|] eqn:HP; [|lia].
  apply Parse_inv in HP as (u0 & frag & found & base & Hcut & Hp & Hfrag).
  apply Cut_spec in Hcut as [Hraw Hnf]. apply parse_amps in Hp.
  pose proof (String_amps u) as Hu.
  assert (Hsum : (amps rawURL <= amps u0 + amps frag)%nat).
  { rewrite Hraw, amps_app. destruct found; [|change (amps []) with 0%nat; lia].
    change (go "#" ++ frag) with ("#"%char :: frag). rewrite amps_cons.
    rewrite (bool_decide_eq_false_2 ("#"%char = amp)) by done. lia. }
  destruct Hfrag as [[-> ->]|(Hne & f & rawf & Hf & ->)].
  - change (amps []) with 0%nat in Hsum. lia.
  - assert (Hfne : url.nonempty f = true).
    { unfold url.nonempty. destruct f; [|done]. by apply setFragment_nil in Hf. }
    pose proof (setFragment_amps frag (with_fragment base f rawf) Hf) as Hfa.
    rewrite body_amps_with_fragment in Hu.
    change (url.RawQuery (with_fragment base f rawf)) with (url.RawQuery base) in Hu.
    change (url.Fragment (with_fragment base f rawf)) with f in Hu.
    rewrite Hfne in Hu. lia.
Qed.

(** C6 (as stated, refuted): the normal form of [escaped_slash_url] has its
    path re-read as an authority, and normalising it again escapes the
    first [@]. *)
Lemma normal_form_not_stable :
  urlEncode escaped_slash_url = go "//a@b@h/%20x"
  /\ urlEncode (urlEncode escaped_slash_url) = go "//a%40b@h/%20x".
Proof. split; by vm_compute. Qed.

(** C6 (amended): normalisation never turns a literal [&] into an escape:
    the normal form has at least as many [&] bytes as the string; and a
    second normalisation changes nothing when the string, or its normal
    form, does not parse. *)
Theorem normal_form_ampersands (rawURL : gostring) :
  (amps rawURL <= amps (urlEncode rawURL))%nat
  /\ (url.Parse rawURL = None -> urlEncode (urlEncode rawURL) = urlEncode rawURL)
  /\ (url.Parse (urlEncode rawURL) = None ->
      urlEncode (urlEncode rawURL) = urlEncode rawURL).
Proof.
  split_and!.
  - apply ampersands_kept.
  - intros Hp. unfold urlEncode at 2 3. rewrite Hp. unfold urlEncode. by rewrite Hp.
  - intros Hp. unfold urlEncode at 1. by rewrite Hp.
Qed.

(** ** The role pattern *)

Lemma rep_unfold greedy p k s need prev pos st :
  regexp.rep greedy p k s need prev pos st =
  let stop := match need with O => k prev pos s st | S _ => None end in
  let more :=
    match s with
    | x :: s' => if p x then regexp.rep greedy p k s' (pred need) (Some x) (S pos) st else None
    | [] => None
    end in
  if greedy
  then match more with Some r => Some r | None => stop end
  else match stop with Some r => Some r | None => more end.
Proof. by destruct s. Qed.

Lemma K3_eq prev pos s st :
  K3 prev pos s st = if regexp.at_eol true s then Some (pos, regexp.close_group 1 pos st) else None.
Proof. done. Qed.

Lemma K2_eq prev pos s st :
  K2 prev pos s st = regexp.rep true regexp.dot K3 s 1 prev pos (regexp.open_group 1 pos st).
Proof. done. Qed.

Lemma K1_eq prev pos s st :
  K1 prev pos s st =
  match s with
  | x :: s' => if bool_decide (x = regexp.newline) then regexp.rep true regexp.space K2 s' 0 (Some x) (S pos) st
               else None
  | [] => None
  end.
Proof. done. Qed.

Lemma run_role_eq prev pos s st :
  regexp.run re.role prev pos s st =
  if regexp.at_bol true prev then
    match s with
    | c1 :: c2 :: c3 :: c4 :: s4 =>
      if bool_decide (c1 = "R"%char) && bool_decide (c2 = "O"%char)
         && bool_decide (c3 = "L"%char) && bool_decide (c4 = "E"%char)
      then regexp.rep true regexp.space K1 s4 0 (Some c4) (pos + 4) st
      else None
    | _ => None
    end
  else None.
Proof.
  unfold re.role. cbn [regexp.lits go list_ascii_of_string map app regexp.run].
  destruct (regexp.at_bol true prev); [|done].
  destruct s as [|c1 [|c2 [|c3 [|c4 s4]]]]; repeat case_bool_decide; try done.
  cbn [andb]. replace (pos + 4)%nat with (S (S (S (S pos)))) by lia. done.
Qed.

(** *** Where the value group can lie *)

Lemma K3_bounds s need prev pos st e st' :
  regexp.rep true regexp.dot K3 s need prev pos st = Some (e, st') ->
  st' = regexp.close_group 1 e st /\ (pos <= e <= pos + length s)%nat.
Proof.
  revert need prev pos. induction s as [|x s IH]; intros need prev pos; rewrite rep_unfold; cbv zeta.
  - destruct need; [|done]. rewrite K3_eq. cbn. intros [= <- <-]. split; [done | lia].
  - destruct (regexp.dot x).
    + destruct (regexp.rep true regexp.dot K3 s (pred need) (Some x) (S pos) st) as [[e1 st1]|] eqn:Hm.
      * intros [= <- <-]. apply IH in Hm as [-> ?]. split; [done | simpl; lia].
      * destruct need; [|done]. rewrite K3_eq.
        destruct (regexp.at_eol true (x :: s)); [|done]. intros [= <- <-]. split; [done | simpl; lia].
    + destruct need; [|done]. rewrite K3_eq.
      destruct (regexp.at_eol true (x :: s)); [|done]. intros [= <- <-]. split; [done | simpl; lia].
Qed.

Lemma group1_open_close gb e st :
  group1 (regexp.close_group 1 e (regexp.open_group 1 gb st)) = Some (gb, e).
Proof. done. Qed.

Lemma K2_bounds prev pos s st e st' :
  K2 prev pos s st = Some (e, st') ->
  group1 st' = Some (pos, e) /\ (pos <= e <= pos + length s)%nat.
Proof.
  rewrite K2_eq. intros [-> ?]%K3_bounds. by rewrite group1_open_close.
Qed.

Lemma K2_rep_bounds s need prev pos st e st' :
  regexp.rep true regexp.space K2 s need prev pos st = Some (e, st') ->
  exists gb, group1 st' = Some (gb, e) /\ (pos <= gb <= e)%nat /\ (e <= pos + length s)%nat.
Proof.
  revert need prev pos. induction s as [|x s IH]; intros need prev pos; rewrite rep_unfold; cbv zeta.
  - destruct need; [|done]. intros [? ?]%K2_bounds. exists pos. split_and!; [done | lia | lia | lia].
  - assert (Hstop : match need with
                    | 0%nat => K2 prev pos (x :: s) st
                    | S _ => None
                    end = Some (e, st') ->
            exists gb, group1 st' = Some (gb, e) /\ (pos <= gb <= e)%nat
                       /\ (e <= pos + length (x :: s))%nat).
    { destruct need; [|done]. intros [? ?]%K2_bounds. exists pos. split_and!; [done | lia | lia | lia]. }
    destruct (regexp.space x); [|done].
    destruct (regexp.rep true regexp.space K2 s (pred need) (Some x) (S pos) st) as [[e1 st1]|] eqn:Hm; [|done].
    intros [= <- <-]. apply IH in Hm as (gb & ? & ? & ?). exists gb. simpl. split_and!; [done | lia | lia | lia].
Qed.

Lemma K1_bounds prev pos s st e st' :
  K1 prev pos s st = Some (e, st') ->
  exists gb, group1 st' = Some (gb, e) /\ (pos <= gb <= e)%nat /\ (e <= pos + length s)%nat.
Proof.
  rewrite K1_eq. destruct s as [|x s]; [done|]. case_bool_decide; [|done].
  intros (gb & ? & ? & ?)%K2_rep_bounds. exists gb. simpl. split_and!; [done | lia | lia | lia].
Qed.

Lemma K1_rep_bounds s need prev pos st e st' :
  regexp.rep true regexp.space K1 s need prev pos st = Some (e, st') ->
  exists gb, group1 st' = Some (gb, e) /\ (pos <= gb <= e)%nat /\ (e <= pos + length s)%nat.
Proof.
  revert need prev pos. induction s as [|x s IH]; intros need prev pos; rewrite rep_unfold; cbv zeta.
  - destruct need; [|done]. apply K1_bounds.
  - assert (Hstop : match need with
                    | 0%nat => K1 prev pos (x :: s) st
                    | S _ => None
                    end = Some (e, st') ->
            exists gb, group1 st' = Some (gb, e) /\ (pos <= gb <= e)%nat
                       /\ (e <= pos + length (x :: s))%nat).
    { destruct need; [|done]. apply K1_bounds. }
    destruct (regexp.space x); [|done].
    destruct (regexp.rep true regexp.space K1 s (pred need) (Some x) (S pos) st) as [[e1 st1]|] eqn:Hm; [|done].
    intros [= <- <-]. apply IH in Hm as (gb & ? & ? & ?). exists gb. simpl. split_and!; [done | lia | lia | lia].
Qed.

Lemma run_role_bounds prev pos s st e st' :
  regexp.run re.role prev pos s st = Some (e, st') ->
  exists gb, group1 st' = Some (gb, e) /\ (pos + 4 <= gb <= e)%nat /\ (e <= pos + length s)%nat.
Proof.
  rewrite run_role_eq. destruct (regexp.at_bol true prev); [|done].
  destruct s as [|c1 [|c2 [|c3 [|c4 s4]]]]; try done.
  destruct (_ && _); [|done].
  intros (gb & ? & ? & ?)%K1_rep_bounds. exists gb. cbn [length].
  split_and!; [done | lia | lia | lia].
Qed.

Lemma search_unfold re prev pos s :
  regexp.search re prev pos s =
  match regexp.run re prev pos s regexp.no_caps with
  | Some (e, st) => Some (pos, e, st)
  | None =>
    match s with
    | [] => None
    | c :: s' => regexp.search re (Some c) (S pos) s'
    end
  end.
Proof. by destruct s. Qed.

Lemma search_role_bounds s prev pos b e st' :
  regexp.search re.role prev pos s = Some (b, e, st') ->
  exists gb, group1 st' = Some (gb, e)
    /\ (pos <= b)%nat /\ (b + 4 <= gb <= e)%nat /\ (e <= pos + length s)%nat.
Proof.
  revert prev pos. induction s as [|x s IH]; intros prev pos; rewrite search_unfold.
  - destruct (regexp.run re.role prev pos [] regexp.no_caps) as [[e1 st1]|] eqn:Hr; [|done].
    intros [= <- <- <-]. apply run_role_bounds in Hr as (gb & ? & ? & ?).
    exists gb. simpl in *. split_and!; [done | lia | lia | lia | lia].
  - destruct (regexp.run re.role prev pos (x :: s) regexp.no_caps) as [[e1 st1]|] eqn:Hr.
    + intros [= <- <- <-]. apply run_role_bounds in Hr as (gb & ? & ? & ?).
      exists gb. split_and!; [done | lia | lia | lia | lia].
    + intros (gb & ? & ? & ? & ?)%IH. exists gb. cbn [length].
      split_and!; [done | lia | lia | lia | lia].
Qed.

Lemma eol_no_dot s : eol s -> match s with x :: _ => regexp.dot x = false | [] => True end.
Proof.
  unfold eol. destruct s as [|x s]; [done|]. simpl. unfold regexp.dot.
  case_bool_decide; [done | done].
Qed.

Lemma dots_then_eol d s' need prev pos st :
  forallb regexp.dot d = true -> eol s' -> (need <= length d)%nat ->
  regexp.rep true regexp.dot K3 (d ++ s') need prev pos st =
  Some ((pos + length d)%nat, regexp.close_group 1 (pos + length d) st).
Proof.
  intros Hd Hs'. revert need prev pos.
  induction d as [|c d IH]; intros need prev pos Hn; rewrite rep_unfold; cbv zeta.
  - simpl in Hn. assert (need = 0)%nat as -> by lia. simpl.
    pose proof (eol_no_dot _ Hs') as Hx. rewrite K3_eq, Hs', Nat.add_0_r.
    destruct s' as [|x s']; [done|]. by rewrite Hx.
  - simpl in Hd. apply andb_prop in Hd as [Hc Hd]. cbn [app]. rewrite Hc.
    rewrite (IH Hd) by (simpl in Hn; lia). cbn [length].
    by replace (S pos + length d)%nat with (pos + S (length d))%nat by lia.
Qed.

Lemma spaces_then_value t x d s' prev pos st :
  forallb regexp.space t = true -> regexp.space x = false -> forallb regexp.dot (x :: d) = true -> eol s' ->
  regexp.rep true regexp.space K2 (t ++ x :: d ++ s') 0 prev pos st =
  Some ((pos + length t + S (length d))%nat,
        regexp.close_group 1 (pos + length t + S (length d)) (regexp.open_group 1 (pos + length t) st)).
Proof.
  intros Ht Hx Hd Hs'. revert prev pos.
  induction t as [|c t IH]; intros prev pos; rewrite rep_unfold; cbv zeta.
  - cbn [app]. rewrite Hx, K2_eq.
    rewrite (dots_then_eol (x :: d) s' 1 prev pos) by (done || simpl; lia).
    cbn [length]. by rewrite Nat.add_0_r.
  - simpl in Ht. apply andb_prop in Ht as [Hc Ht]. cbn [app]. rewrite Hc.
    rewrite (IH Ht). cbn [length].
    by replace (S pos + length t)%nat with (pos + S (length t))%nat by lia.
Qed.

Lemma no_newline_in_line t r need prev pos st :
  forallb regexp.dot t = true ->
  match r with y :: _ => regexp.space y = false | [] => True end ->
  regexp.rep true regexp.space K1 (t ++ r) need prev pos st = None.
Proof.
  intros Ht Hr. revert need prev pos.
  induction t as [|c t IH]; intros need prev pos; rewrite rep_unfold; cbv zeta.
  - cbn [app]. destruct r as [|y r].
    + by destruct need.
    + rewrite Hr. destruct need; [|done]. rewrite K1_eq. case_bool_decide as Hy; [|done].
      rewrite Hy in Hr. done.
  - simpl in Ht. apply andb_prop in Ht as [Hc Ht]. cbn [app].
    rewrite (IH Ht). destruct (regexp.space c); (destruct need; [|done]); rewrite K1_eq;
      unfold regexp.dot in Hc; by destruct (bool_decide (c = regexp.newline)).
Qed.

Lemma label_then_value W1 t x d s' prev pos st :
  forallb regexp.space W1 = true -> forallb regexp.space t = true -> forallb regexp.dot t = true ->
  regexp.space x = false -> forallb regexp.dot (x :: d) = true -> eol s' ->
  regexp.rep true regexp.space K1 (W1 ++ regexp.newline :: t ++ x :: d ++ s') 0 prev pos st =
  Some ((pos + length W1 + 1 + length t + S (length d))%nat,
        regexp.close_group 1 (pos + length W1 + 1 + length t + S (length d))
          (regexp.open_group 1 (pos + length W1 + 1 + length t) st)).
Proof.
  intros HW Ht Htd Hx Hd Hs'. revert prev pos.
  induction W1 as [|c W1 IH]; intros prev pos; rewrite rep_unfold; cbv zeta.
  - cbn [app]. change (regexp.space regexp.newline) with true. cbv iota.
    rewrite (no_newline_in_line t (x :: d ++ s')) by done.
    rewrite K1_eq, bool_decide_eq_true_2 by done.
    rewrite spaces_then_value by done. cbn [length].
    by replace (pos + 0 + 1)%nat with (S pos) by lia.
  - simpl in HW. apply andb_prop in HW as [Hc HW]. cbn [app]. rewrite Hc.
    rewrite (IH HW). cbn [length].
    by replace (S pos + length W1)%nat with (pos + S (length W1))%nat by lia.
Qed.

(** *** Trimming whitespace of the pattern *)

Lemma space_is_space c t :
  regexp.space c = true ->
  utf8.DecodeRuneInString (c :: t) = (byte c, 1%nat) /\ unicode.IsSpace (byte c) = true.
Proof.
  destruct c as [[] [] [] [] [] [] [] []]; intros Hc; vm_compute in Hc; try done;
    split; by vm_compute.
Qed.

Lemma TrimLeftSpace_cons c s : regexp.space c = true -> TrimLeftSpace (c :: s) = TrimLeftSpace s.
Proof.
  intros Hc. unfold TrimLeftSpace. cbn [length TrimLeft_fuel].
  destruct (space_is_space c s Hc) as [-> ->]. cbn [drop]. done.
Qed.

Lemma TrimLeftSpace_spaces t v : forallb regexp.space t = true -> TrimLeftSpace (t ++ v) = TrimLeftSpace v.
Proof.
  induction t as [|c t IH]; [done|]. simpl. intros [Hc Ht]%andb_prop.
  rewrite TrimLeftSpace_cons by done. by apply IH.
Qed.

Lemma TrimSpace_spaces t v : forallb regexp.space t = true -> TrimSpace (t ++ v) = TrimSpace v.
Proof. intros Ht. unfold TrimSpace. by rewrite TrimLeftSpace_spaces. Qed.

Lemma TrimSpace_blank s : forallb regexp.space s = true -> TrimSpace s = [].
Proof.
  intros Hs. rewrite <- (app_nil_r s). rewrite TrimSpace_spaces by done. done.
Qed.

Lemma Join_cons l ls : Join (l :: ls) nl = l ++ tail_text ls.
Proof. destruct ls; [by rewrite app_nil_r | done]. Qed.

Lemma tail_text_eol ls : eol (tail_text ls).
Proof. by destruct ls. Qed.

Lemma extractRole_value markdown :
  extractRole markdown = role_value markdown (regexp.search re.role None 0 markdown).
Proof.
  unfold extractRole, regexp.FindStringSubmatch, regexp.search_at, role_value, regexp.prev_at.
  rewrite drop_0. by destruct (regexp.search re.role None 0 markdown).
Qed.

Lemma role_value_group whole b e st gb :
  group1 st = Some (gb, e) ->
  role_value whole (Some (b, e, st)) = TrimSpace (slice whole gb e).
Proof. unfold role_value, group1. cbn. by intros ->. Qed.

Lemma forallb_take {A} (p : A -> bool) n l : forallb p l = true -> forallb p (take n l) = true.
Proof.
  revert n. induction l as [|x l IH]; intros [|n]; simpl; try done.
  intros [-> Hl]%andb_prop. by apply IH.
Qed.

Lemma forallb_drop {A} (p : A -> bool) n l : forallb p l = true -> forallb p (drop n l) = true.
Proof.
  revert n. induction l as [|x l IH]; intros [|n]; simpl; try done.
  intros [_ Hl]%andb_prop. by apply IH.
Qed.

Lemma blank_text ls :
  Forall (fun l => blank_line l = true) ls -> forallb regexp.space (tail_text ls) = true.
Proof.
  induction 1 as [|l ls Hl Hls IH]; [done|].
  cbn [tail_text]. rewrite Join_cons. change (nl ++ ?x) with (regexp.newline :: x).
  cbn [forallb]. change (regexp.space regexp.newline) with true. rewrite forallb_app, IH.
  unfold blank_line in Hl. by rewrite Hl.
Qed.

Lemma value_below_cases ls :
  (Forall (fun l => blank_line l = true) ls /\ value_below ls = [])
  \/ (exists blanks lj after,
        ls = blanks ++ lj :: after
        /\ Forall (fun l => blank_line l = true) blanks
        /\ blank_line lj = false /\ value_below ls = TrimSpace lj).
Proof.
  induction ls as [|l ls IH]; [by left|]. simpl.
  destruct (blank_line l) eqn:Hl.
  - destruct IH as [[Hall Hv]|(blanks & lj & after & -> & Hb & Hlj & Hv)].
    + left. split; [by constructor | done].
    + right. exists (l :: blanks), lj, after. split_and!; [done | by constructor | done | done].
  - right. exists [], l, ls. split_and!; [done | constructor | done | done].
Qed.

Lemma not_blank_split l :
  blank_line l = false ->
  exists t x d, l = t ++ x :: d /\ forallb regexp.space t = true /\ regexp.space x = false.
Proof.
  induction l as [|c l IH]; [done|]. unfold blank_line in *. simpl.
  destruct (regexp.space c) eqn:Hc.
  - intros (t & x & d & -> & Ht & Hx)%IH. exists (c :: t), x, d. simpl. by rewrite Hc, Ht.
  - intros _. by exists [], c, l.
Qed.

Lemma tail_text_app blanks lj after :
  tail_text (blanks ++ lj :: after) = tail_text blanks ++ nl ++ lj ++ tail_text after.
Proof.
  induction blanks as [|b blanks IH].
  - cbn [app tail_text]. by rewrite Join_cons.
  - cbn [app tail_text] in *. rewrite !Join_cons, IH.
    destruct blanks; cbn [tail_text app]; by rewrite <- ?app_assoc.
Qed.

Lemma slice_middle (a m z : gostring) :
  slice (a ++ m ++ z) (length a) (length a + length m) = m.
Proof.
  unfold slice. rewrite drop_app_length.
  replace (length a + length m - length a)%nat with (length m) by lia.
  by rewrite take_app_length.
Qed.

Lemma label_line_split l :
  label_line l = true -> exists w, l = go "ROLE" ++ w /\ forallb regexp.space w = true.
Proof.
  unfold label_line. intros [[w ->]%HasPrefix_spec Hw]%andb_prop. exists w. done.
Qed.

(** A label line with a value below: the match starts at the line and its
    group is the value line without its leading whitespace. *)
Lemma search_label_value pre prev w blanks t x d after :
  regexp.at_bol true prev = true ->
  forallb regexp.space w = true ->
  Forall (fun l => blank_line l = true) blanks ->
  forallb regexp.space t = true -> forallb regexp.dot t = true ->
  regexp.space x = false -> forallb regexp.dot (x :: d) = true ->
  let lines := (go "ROLE" ++ w) :: blanks ++ (t ++ x :: d) :: after in
  role_value (pre ++ Join lines nl) (regexp.search re.role prev (length pre) (Join lines nl))
  = TrimSpace (x :: d).
Proof.
  intros Hbol Hw Hblanks Ht Htd Hx Hd lines. unfold lines.
  rewrite Join_cons, tail_text_app.
  set (W1 := w ++ tail_text blanks).
  assert (HW1 : forallb regexp.space W1 = true).
  { unfold W1. by rewrite forallb_app, Hw, blank_text. }
  assert (Htext : (go "ROLE" ++ w) ++ tail_text blanks ++ nl ++ (t ++ x :: d) ++ tail_text after
                  = go "ROLE" ++ W1 ++ regexp.newline :: t ++ x :: d ++ tail_text after).
  { unfold W1. by rewrite <- !app_assoc. }
  rewrite Htext, search_unfold, run_role_eq, Hbol.
  change (go "ROLE" ++ ?s) with ("R"%char :: "O"%char :: "L"%char :: "E"%char :: s).
  cbv iota. rewrite !bool_decide_eq_true_2 by done. cbn [andb].
  rewrite (label_then_value W1 t x d (tail_text after)) by (done || apply tail_text_eol).
  rewrite (role_value_group _ _ _ _ (length pre + 4 + length W1 + 1 + length t)) by done.
  f_equal.
  set (a := pre ++ "R"%char :: "O"%char :: "L"%char :: "E"%char :: W1 ++ regexp.newline :: t).
  assert (Hwhole : pre ++ "R"%char :: "O"%char :: "L"%char :: "E"%char :: W1
                       ++ regexp.newline :: t ++ x :: d ++ tail_text after
                   = a ++ (x :: d) ++ tail_text after).
  { unfold a. rewrite <- !app_assoc. cbn [app]. rewrite <- !app_assoc. done. }
  assert (Hlen : length a = (length pre + 4 + length W1 + 1 + length t)%nat).
  { unfold a. rewrite length_app. cbn [length]. rewrite length_app. cbn [length]. lia. }
  rewrite Hwhole, <- Hlen.
  replace (length a + S (length d))%nat with (length a + length (x :: d))%nat by done.
  apply slice_middle.
Qed.

(** A label line with only blank lines below: whatever is found has a
    blank value. *)
Lemma search_label_blank pre prev w ls :
  forallb regexp.space w = true ->
  Forall (fun l => blank_line l = true) ls ->
  let text := Join ((go "ROLE" ++ w) :: ls) nl in
  role_value (pre ++ text) (regexp.search re.role prev (length pre) text) = [].
Proof.
  intros Hw Hls text.
  destruct (regexp.search re.role prev (length pre) text) as [[[b e] st']|] eqn:Hs; [|done].
  apply search_role_bounds in Hs as (gb & Hg & Hb & Hgb & He).
  rewrite (role_value_group _ _ _ _ gb) by done.
  apply TrimSpace_blank. unfold slice. apply forallb_take.
  replace gb with ((length pre + 4) + (gb - (length pre + 4)))%nat by lia.
  rewrite <- drop_drop. apply forallb_drop.
  unfold text. rewrite Join_cons, <- !app_assoc.
  replace (length pre + 4)%nat with (length (pre ++ go "ROLE")).
  2:{ rewrite length_app. done. }
  rewrite app_assoc, drop_app_length, forallb_app, Hw. by apply blank_text.
Qed.

Lemma run_not_label l rest prev pos st :
  label_line l = false -> forallb regexp.dot l = true ->
  match rest with y :: _ => y = regexp.newline | [] => True end ->
  regexp.run re.role prev pos (l ++ rest) st = None.
Proof.
  intros Hl Hnl Hrest. rewrite run_role_eq. destruct (regexp.at_bol true prev); [|done].
  destruct (l ++ rest) as [|c1 [|c2 [|c3 [|c4 s4]]]] eqn:Hs; try done.
  destruct (_ && _) eqn:Hrole; [|done].
  apply andb_prop in Hrole as [[[->%bool_decide_eq_true ->%bool_decide_eq_true]%andb_prop
    ->%bool_decide_eq_true]%andb_prop ->%bool_decide_eq_true].
  assert (Hpre : exists w, l = go "ROLE" ++ w /\ s4 = w ++ rest).
  { destruct l as [|a1 [|a2 [|a3 [|a4 w]]]]; cbn [app] in Hs.
    - destruct rest; [done|]. injection Hs as -> _. done.
    - injection Hs as -> Hs. destruct rest; [done|]. injection Hs as -> _. done.
    - injection Hs as -> -> Hs. destruct rest; [done|]. injection Hs as -> _. done.
    - injection Hs as -> -> -> Hs. destruct rest; [done|]. injection Hs as -> _. done.
    - injection Hs as -> -> -> -> <-. by exists w. }
  destruct Hpre as (w & -> & ->).
  unfold label_line in Hl. rewrite (proj2 (HasPrefix_spec _ _)) in Hl by (by eexists).
  change (drop 4 (go "ROLE" ++ w)) with w in Hl. cbn [andb] in Hl.
  apply not_blank_split in Hl as (t & y & w2 & -> & Ht & Hy).
  change (go "ROLE" ++ ?s) with ("R"%char :: "O"%char :: "L"%char :: "E"%char :: s) in Hnl.
  cbn [forallb] in Hnl. rewrite forallb_app in Hnl.
  do 4 (apply andb_prop in Hnl as [_ Hnl]). apply andb_prop in Hnl as [Htd _].
  rewrite <- app_assoc. cbn [app]. by apply no_newline_in_line.
Qed.

Lemma search_skip_line l ls prev pos :
  regexp.run re.role prev pos (l ++ tail_text ls) regexp.no_caps = None ->
  forallb regexp.dot l = true ->
  regexp.search re.role prev pos (l ++ tail_text ls) =
  match ls with
  | [] => None
  | _ :: _ => regexp.search re.role (Some regexp.newline) (pos + length l + 1) (Join ls nl)
  end.
Proof.
  revert prev pos. induction l as [|c l IH]; intros prev pos Hrun Hl.
  - cbn [app] in *. rewrite search_unfold, Hrun. destruct ls as [|l' ls]; [done|].
    cbn [tail_text app nl length]. by replace (pos + 0 + 1)%nat with (S pos) by lia.
  - simpl in Hl. apply andb_prop in Hl as [Hc Hl]. cbn [app] in *.
    rewrite search_unfold, Hrun, IH; [| |done].
    + cbn [length]. destruct ls; [done|].
      by replace (S pos + length l + 1)%nat with (pos + S (length l) + 1)%nat by lia.
    + rewrite run_role_eq. unfold regexp.dot in Hc. cbn [regexp.at_bol].
      by destruct (bool_decide (c = regexp.newline)).
Qed.

Lemma search_lines lines :
  Forall (fun l => forallb regexp.dot l = true) lines ->
  forall pre prev, regexp.at_bol true prev = true ->
    role_value (pre ++ Join lines nl) (regexp.search re.role prev (length pre) (Join lines nl))
    = role_of_lines lines.
Proof.
  induction 1 as [|l ls Hl Hls IH]; intros pre prev Hbol.
  - cbn [Join]. rewrite search_unfold, run_role_eq, Hbol. done.
  - cbn [role_of_lines]. destruct (label_line l) eqn:Hlabel.
    + apply label_line_split in Hlabel as (w & -> & Hw).
      destruct (value_below_cases ls) as [[Hall ->]|(blanks & lj & after & -> & Hb & Hlj & ->)].
      * by apply search_label_blank.
      * apply not_blank_split in Hlj as (t & x & d & -> & Ht & Hx).
        apply Forall_app in Hls as [_ Hls]. apply Forall_cons in Hls as [Hlj _].
        rewrite forallb_app in Hlj. apply andb_prop in Hlj as [Htd Hd].
        rewrite (TrimSpace_spaces t) by done.
        by apply search_label_value.
    + rewrite Join_cons.
      rewrite search_skip_line; [|apply run_not_label; [done | done | by destruct ls] | done].
      destruct ls as [|l' ls']; [done|].
      specialize (IH (pre ++ l ++ nl) (Some regexp.newline) eq_refl).
      rewrite <- !app_assoc in IH. rewrite length_app, length_app in IH.
      cbn [tail_text]. change (length nl) with 1%nat in IH.
      by rewrite Nat.add_assoc in IH.
Qed.

Lemma no_newline_before s i :
  (forall j, (j < i)%nat -> ¬ nl `prefix_of` drop j s) -> forallb regexp.dot (take i s) = true.
Proof.
  revert i. induction s as [|c s IH]; intros [|i] Hno; try done.
  cbn [take forallb]. rewrite IH.
  - rewrite andb_true_r. unfold regexp.dot. case_bool_decide as Hc; [|done].
    exfalso. apply (Hno 0%nat); [lia|]. rewrite Hc. by exists s.
  - intros j Hj. apply (Hno (S j)). lia.
Qed.

Lemma Split_fuel_lines fuel s :
  (length s <= fuel)%nat ->
  Join (Split_fuel fuel s nl) nl = s
  /\ Forall (fun l => forallb regexp.dot l = true) (Split_fuel fuel s nl).
Proof.
  revert s. induction fuel as [|fuel IH]; intros s Hlen.
  - destruct s; [|simpl in Hlen; lia]. split; [done | by repeat constructor].
  - cbn [Split_fuel]. destruct (Index s nl) as [i|] eqn:Hi.
    + destruct (Index_Some _ _ _ Hi) as (Hp & Hle & Hfirst).
      destruct (IH (drop (i + length nl) s)) as [HJ HF].
      { rewrite length_drop. change (length nl) with 1%nat.
        destruct Hp as [t Ht]. apply (f_equal length) in Ht.
        rewrite length_drop, length_app in Ht. change (length nl) with 1%nat in Ht. lia. }
      split.
      * rewrite Join_cons.
        destruct (Split_fuel fuel (drop (i + length nl) s) nl) as [|l' ls'] eqn:Hsp.
        { destruct fuel; cbn [Split_fuel] in Hsp; [done|].
          by destruct (Index (drop (i + length nl) s) nl). }
        cbn [tail_text]. rewrite HJ. symmetry. by apply Index_split.
      * constructor; [by apply no_newline_before | done].
    + split; [done|]. constructor; [|constructor].
      rewrite <- (take_ge s (length s)) by lia. apply no_newline_before.
      intros j _. by apply (Index_None _ _ Hi).
Qed.

(** C9 (as stated, refuted): a label line with leading whitespace is a
    label for the specification and not for the program. *)
Lemma indented_label_not_found :
  extractRole indented_label_doc = []
  /\ spec_extractRole indented_label_doc = go "Duelist".
Proof. split; by vm_compute. Qed.

(** C9 (amended): role extraction returns the trimmed text of the first
    non-blank line below the first label line, a label line being [ROLE] at
    the very start of a line followed only by whitespace, and the empty
    string when there is no label line or no such line below it. *)
Theorem extractRole_lines (markdown : gostring) :
  extractRole markdown = role_of_lines (Split markdown nl).
Proof.
  destruct (Split_fuel_lines (length markdown) markdown) as [HJ HF]; [done|].
  fold (Split markdown nl) in HJ, HF.
  rewrite extractRole_value. rewrite <- HJ at 1 2.
  by apply (search_lines _ HF [] None).
Qed.

(** * Further properties *)

(** ** The abilities of a section *)

Section walk_trace.
Context `{CaseMapping}.

Lemma walk_step_emits imageMap st l rest :
  walk_step imageMap st l rest = st
  \/ (exists f, walk_step imageMap st l rest = WalkState (abilityIndex st) f (abilities st))
  \/ (name_shape (TrimSpace l)
      /\ exists image,
         walk_step imageMap st l rest =
         WalkState (S (abilityIndex st)) (seenLargeImage st)
           (abilities st ++
              [Ability.mk (TrimSpace l)
                 (cleanDescription (Join (descriptionLines rest) (go " "))) image])).
Proof.
  unfold walk_step.
  destruct (HasPrefix (TrimSpace l) (go "!")) eqn:Himg.
  - rewrite orb_true_r. right; left. by eexists.
  - rewrite orb_false_r. destruct (nonempty (TrimSpace l)); simpl; [|by left].
    destruct (is_candidate st (TrimSpace l)) eqn:Hc; [|by left].
    destruct (isSkipWord (TrimSpace l)) eqn:Hs; [by left|].
    right; right. split; [|by eexists].
    unfold is_candidate, len in Hc.
    repeat (apply andb_true_iff in Hc as [Hc ?]).
    unfold name_shape. split_and!; try done.
    + by apply Nat.ltb_lt.
    + by apply Nat.ltb_lt.
    + by apply Nat.leb_le.
    + by apply orb_true_iff.
Qed.

Lemma walk_trace imageMap lines n st :
  exists idxs new,
    abilities (walk imageMap (drop n lines) st) = abilities st ++ new
    /\ Forall2 (emitted_at lines) idxs new
    /\ StronglySorted lt idxs
    /\ Forall (fun i => n <= i)%nat idxs.
Proof.
  remember (drop n lines) as ls eqn:Hls. revert n st Hls.
  induction ls as [|l rest IH]; intros n st Hls; simpl.
  - exists [], []. rewrite app_nil_r. split_and!; constructor.
  - destruct (abilityIndex st <? 4)%nat.
    2:{ exists [], []. rewrite app_nil_r. split_and!; constructor. }
    assert (Hl : lines !! n = Some l).
    { assert (Hd : drop n lines !! 0%nat = Some l) by by rewrite <- Hls.
      by rewrite lookup_drop, Nat.add_0_r in Hd. }
    assert (Hrest : rest = drop (S n) lines).
    { change (S n) with (1 + n)%nat. rewrite Nat.add_comm, <- drop_drop, <- Hls. done. }
    destruct (walk_step_emits imageMap st l rest) as [->|[[f ->]|(Hshape & image & ->)]].
    + destruct (IH (S n) st Hrest) as (idxs & new & H1 & H2 & H3 & H4).
      exists idxs, new. split_and!; try done.
      eapply Forall_impl; [done|]. simpl. lia.
    + destruct (IH (S n) (WalkState (abilityIndex st) f (abilities st)) Hrest)
        as (idxs & new & H1 & H2 & H3 & H4).
      exists idxs, new. split_and!; try done.
      eapply Forall_impl; [done|]. simpl. lia.
    + set (a := Ability.mk _ _ _).
      destruct (IH (S n) (WalkState (S (abilityIndex st)) (seenLargeImage st)
                            (abilities st ++ [a])) Hrest)
        as (idxs & new & H1 & H2 & H3 & H4).
      exists (n :: idxs), (a :: new). split_and!.
      * rewrite H1. simpl. by rewrite <- app_assoc.
      * constructor; [|done]. exists l. split_and!; try done.
        simpl. by rewrite Hrest.
      * constructor; [done|]. eapply Forall_impl; [done|]. simpl. lia.
      * constructor; [lia|]. eapply Forall_impl; [done|]. simpl. lia.
Qed.

(** X1: [parseAbilities] never returns more than four abilities. *)
Theorem abilities_at_most_four (markdown : gostring) :
  (length (parseAbilities markdown) <= 4)%nat.
Proof.
  unfold parseAbilities. destruct (abilitiesSection markdown) as [section|]; [|simpl; lia].
  destruct (parseSection_abilities section) as [Hlen _]. lia.
Qed.

(** X2: without a section there is no ability; otherwise every ability is
    read at a line of the section window that lies after the numbered
    images: its name is the trimmed line, which has 4 to 49 bytes, at most
    three spaces, no leading image marker, is all caps or title case and
    is no stop word; its description is the cleaned text of the
    description lines below that line; and the abilities come in the
    order of their lines. *)
Theorem abilities_in_document_order (markdown : gostring) :
  match abilitiesSection markdown with
  | None => parseAbilities markdown = []
  | Some section =>
    let lines := Split section nl in
    exists idxs,
      Forall2 (emitted_at lines) idxs (parseAbilities markdown)
      /\ StronglySorted lt idxs
      /\ Forall (fun i => numberedImagesEnd lines <= i < length lines)%nat idxs
  end.
Proof.
  unfold parseAbilities. destruct (abilitiesSection markdown) as [section|]; [|done].
  cbv zeta. unfold parseSection. set (lines := Split section nl).
  destruct (walk_trace (section_imageMap section) lines (numberedImagesEnd lines)
              (WalkState 0 false [])) as (idxs & new & H1 & H2 & H3 & H4).
  rewrite H1. simpl. exists idxs. split_and!; try done.
  apply Forall_forall. intros i Hi. split; [by eapply Forall_forall in H4|].
  apply list_elem_of_lookup in Hi as [k Hk].
  destruct (Forall2_lookup_l _ _ _ _ _ H2 Hk) as (a & _ & (l & Hl & _)).
  by apply lookup_lt_Some in Hl.
Qed.
End walk_trace.

Lemma numberedImagesEnd_fold lines i0 n0 :
  let r := foldl (fun '(i, numberedImagesEnd) line =>
                    (S i, if regexp.MatchString re.abilityImage line then S i else numberedImagesEnd))
                 (i0, n0) lines in
  r.1 = (i0 + length lines)%nat
  /\ ((r.2 = n0 /\ Forall (fun l => regexp.MatchString re.abilityImage l = false) lines)
      \/ exists k l, lines !! k = Some l /\ regexp.MatchString re.abilityImage l = true
           /\ r.2 = (i0 + S k)%nat
           /\ Forall (fun l => regexp.MatchString re.abilityImage l = false) (drop (S k) lines)).
Proof.
  cbv zeta. revert i0 n0. induction lines as [|l lines IH]; intros i0 n0.
  - simpl. split; [lia|]. left. split; [done | constructor].
  - cbn [foldl]. 
    destruct (IH (S i0) (if regexp.MatchString re.abilityImage l then S i0 else n0)) as [H1 H2].
    split; [rewrite H1; simpl; lia|].
    destruct H2 as [[H2 Hall]|(k & l' & Hk & Hm & H2 & Hall)].
    + destruct (regexp.MatchString re.abilityImage l) eqn:Hl.
      * right. exists 0%nat, l. split_and!; try done. rewrite H2. lia.
      * left. split; [done | by constructor].
    + right. exists (S k), l'. split_and!; try done. rewrite H2. lia.
Qed.

(** X3: the walk starts right after the last line that matches the
    numbered-image pattern, and at the first line when no line matches:
    no line from there on matches the pattern. *)
Theorem numberedImagesEnd_last (lines : list gostring) :
  let n := numberedImagesEnd lines in
  (n <= length lines)%nat
  /\ Forall (fun l => regexp.MatchString re.abilityImage l = false) (drop n lines)
  /\ match n with
     | O => True
     | S k => exists l, lines !! k = Some l /\ regexp.MatchString re.abilityImage l = true
     end.
Proof.
  cbv zeta. unfold numberedImagesEnd.
  destruct (numberedImagesEnd_fold lines 0 0) as [_ [[-> Hall]|(k & l & Hk & Hm & -> & Hall)]].
  - split_and!; [lia | by rewrite drop_0 | done].
  - simpl. split_and!; [by apply lookup_lt_Some in Hk | done | by exists l].
Qed.

Section images.
Context `{CaseMapping}.

(** X4: when the keys of the ordinal map all lie between 1 and the size
    of the map (the numbered images are numbered without a gap), the
    ability of a slot has the normal form of the target stored under the
    ordinal of the slot, and no image when the map has no such key. *)
Theorem dense_ordinals_images (markdown section : gostring) (slot : nat) (a : Ability.t) :
  abilitiesSection markdown = Some section ->
  (forall k, is_Some (section_imageMap section !! k) ->
             1 <= k <= Z.of_nat (size (section_imageMap section))) ->
  parseAbilities markdown !! slot = Some a ->
  Ability.Image a =
  match section_imageMap section !! Z.of_nat (slot + 1) with
  | Some target => urlEncode target
  | None => []
  end.
Proof.
  intros Hs Hdense Ha. destruct (slot_image markdown slot a Ha) as (section' & Hs' & ->).
  rewrite Hs in Hs'. injection Hs' as <-.
  unfold ability_image. destruct (Nat.leb_spec (slot + 1) (size (section_imageMap section))) as [Hle|Hgt].
  - destruct (section_imageMap section !! Z.of_nat (slot + 1)); [done|].
    simpl. apply urlEncode_nil. by left.
  - destruct (section_imageMap section !! Z.of_nat (slot + 1)) eqn:Hk; [|done].
    destruct (Hdense (Z.of_nat (slot + 1))) as [_ ?]; [by rewrite Hk | lia].
Qed.
End images.

Lemma dense_ordinals_images_witness :
  Ability.Image (Ability.mk (go "CLOUDBURST") (go "throws a cloud.") (go "http://x/1.png"))
  = match section_imageMap one_image_doc !! Z.of_nat (0 + 1) with
    | Some target => urlEncode target
    | None => []
    end.
Proof.
  apply (@dense_ordinals_images ascii_case one_image_doc one_image_doc 0).
  - by vm_compute.
  - assert (Hm : section_imageMap one_image_doc = {[ 1 := go "http://x/1.png" ]}) by by vm_compute.
    rewrite Hm. intros k [v Hk]. apply lookup_singleton_Some in Hk as [<- _].
    rewrite map_size_singleton. lia.
  - by vm_compute.
Defined.

Section description.
Context `{CaseMapping}.

(** X5: the description lines of a name are the trimmed lines, up to the
    first line that looks like a name or holds footer text, that are not
    empty and do not start with the image marker. *)
Theorem descriptionLines_until_stop (lines : list gostring) :
  exists k,
    (k <= length lines)%nat
    /\ Forall (fun l => description_stop l = false) (take k lines)
    /\ match lines !! k with Some l => description_stop l = true | None => k = length lines end
    /\ descriptionLines lines
       = filter (fun t => description_text t = true) (TrimSpace <$> take k lines).
Proof.
  induction lines as [|l lines (k & Hk & Hbefore & Hat & Heq)].
  - exists 0%nat. split_and!; [done | constructor | done | done].
  - cbn [descriptionLines]. destruct (description_stop l) eqn:Hstop.
    + exists 0%nat. split_and!; [simpl; lia | constructor | done |].
      unfold description_stop in Hstop. apply orb_true_iff in Hstop as [Hn | Hf].
      * by rewrite Hn.
      * rewrite Hf. by destruct (looks_like_name (TrimSpace l)).
    + exists (S k). unfold description_stop in Hstop. apply orb_false_iff in Hstop as [Hn Hf].
      rewrite Hn, Hf. split_and!; [simpl; lia | | |].
      * cbn [take]. constructor; [|done]. unfold description_stop. by rewrite Hn, Hf.
      * cbn [lookup list_lookup]. destruct (lines !! k); [done | simpl; lia].
      * cbn [take fmap list_fmap]. rewrite filter_cons. fold (description_text (TrimSpace l)).
        rewrite Heq. by destruct (description_text (TrimSpace l)); destruct (decide _).
Qed.
End description.

(** ** The name heading *)

Lemma N3_eq prev pos s st :
  N3 prev pos s st = match s with [] => Some (pos, regexp.close_group 1 pos st) | _ :: _ => None end.
Proof. unfold N3. simpl. by destruct s. Qed.

Lemma N2_eq prev pos s st :
  N2 prev pos s st = regexp.rep true regexp.dot N3 s 1 prev pos (regexp.open_group 1 pos st).
Proof. done. Qed.

Lemma dots_to_end s need prev pos st :
  forallb regexp.dot s = true -> (need <= 1)%nat ->
  regexp.rep true regexp.dot N3 s need prev pos st =
  match s, need with
  | [], S _ => None
  | _, _ => Some ((pos + length s)%nat, regexp.close_group 1 (pos + length s) st)
  end.
Proof.
  revert need prev pos. induction s as [|x s IH]; intros need prev pos Hd H1;
    rewrite rep_unfold; cbv zeta.
  - destruct need; [|done]. rewrite N3_eq. simpl. by rewrite Nat.add_0_r.
  - simpl in Hd. apply andb_true_iff in Hd as [Hx Hd]. rewrite Hx.
    rewrite IH by (done || lia).
    destruct s as [|y s].
    + replace (pred need) with 0%nat by lia. simpl. by rewrite Nat.add_0_r, Nat.add_1_r.
    + simpl. replace (S (pos + S (length s)))%nat with (pos + S (S (length s)))%nat by lia.
      by destruct need.
Qed.

Lemma name_spaces_then_text ws x d need prev pos st :
  forallb regexp.space ws = true -> regexp.space x = false ->
  forallb regexp.dot (x :: d) = true -> (need <= length ws)%nat -> (need <= 1)%nat ->
  regexp.rep true regexp.space N2 (ws ++ x :: d) need prev pos st =
  Some ((pos + length ws + S (length d))%nat,
        regexp.close_group 1 (pos + length ws + S (length d))
          (regexp.open_group 1 (pos + length ws) st)).
Proof.
  revert need prev pos. induction ws as [|c ws IH]; intros need prev pos Hws Hx Hd Hn H1;
    rewrite rep_unfold; cbv zeta.
  - simpl. rewrite Hx. destruct need; [|simpl in Hn; lia].
    rewrite N2_eq, dots_to_end by (done || lia).
    simpl. rewrite !Nat.add_0_r. done.
  - simpl in Hws. apply andb_true_iff in Hws as [Hc Hws].
    simpl. rewrite Hc. rewrite IH by (done || simpl in *; lia).
    do 2 f_equal; [lia | f_equal; [lia | f_equal; lia]].
Qed.

Lemma name_all_spaces ws c need prev pos st :
  forallb regexp.space (ws ++ [c]) = true -> forallb regexp.dot (ws ++ [c]) = true ->
  (need <= length ws)%nat -> (need <= 1)%nat ->
  regexp.rep true regexp.space N2 (ws ++ [c]) need prev pos st =
  Some ((pos + length ws + 1)%nat,
        regexp.close_group 1 (pos + length ws + 1)
          (regexp.open_group 1 (pos + length ws) st)).
Proof.
  revert need prev pos. induction ws as [|x ws IH]; intros need prev pos Hws Hd Hn H1;
    rewrite rep_unfold; cbv zeta.
  - simpl in Hws, Hd, Hn. rewrite andb_true_r in Hws, Hd.
    destruct need; [|lia]. cbn [app pred length]. rewrite Hws.
    rewrite (rep_unfold _ _ _ []). cbv zeta.
    rewrite !N2_eq. rewrite (dots_to_end []) by (done || lia).
    rewrite (dots_to_end [c]) by (simpl; rewrite ?Hd; done || lia).
    simpl. rewrite !Nat.add_0_r. done.
  - simpl in Hws, Hd. apply andb_true_iff in Hws as [Hx Hws]. apply andb_true_iff in Hd as [Hdx Hd].
    simpl. rewrite Hx. rewrite IH by (done || simpl in *; lia).
    do 2 f_equal; [lia | f_equal; [lia | f_equal; lia]].
Qed.

Lemma run_name_eq prev pos s st :
  regexp.run re.name prev pos s st =
  if regexp.at_bol false prev then
    match s with
    | c0 :: t =>
      if bool_decide (c0 = "#"%char) then regexp.rep true regexp.space N2 t 1 (Some c0) (S pos) st
      else None
    | [] => None
    end
  else None.
Proof. done. Qed.

Lemma search_name_later c pos s : regexp.search re.name (Some c) pos s = None.
Proof.
  revert c pos. induction s as [|x s IH]; intros c pos; rewrite search_unfold, run_name_eq; simpl; [done|].
  apply IH.
Qed.

Lemma search_name line :
  regexp.search re.name None 0 line =
  match regexp.run re.name None 0 line regexp.no_caps with
  | Some (e, st) => Some (0%nat, e, st)
  | None => None
  end.
Proof.
  rewrite search_unfold. destruct (regexp.run _ _ _ _ _) as [[e st]|]; [done|].
  destruct line; [done|]. apply search_name_later.
Qed.

Lemma slice_at (a m z text : gostring) (b e : nat) :
  text = a ++ m ++ z -> b = length a -> e = (length a + length m)%nat -> slice text b e = m.
Proof. intros -> -> ->. apply slice_middle. Qed.

(** What the name pattern finds on a line without a newline. *)
Lemma find_name line :
  forallb regexp.dot line = true ->
  (fun matches : list gostring => TrimSpace (default [] (matches !! 1%nat)))
    <$> regexp.FindStringSubmatch re.name 1 line
  = TrimSpace <$> heading_text line.
Proof.
  intros Hd. unfold regexp.FindStringSubmatch, regexp.search_at.
  change (regexp.prev_at line 0) with (@None ascii). rewrite drop_0, search_name, run_name_eq.
  cbn [regexp.at_bol].
  destruct line as [|c0 t1]; [done|].
  unfold heading_text.
  destruct (bool_decide (c0 = "#"%char)) eqn:Hc0.
  2:{ by destruct t1 as [|c1 [|c2 t]]. }
  apply bool_decide_eq_true in Hc0 as ->.
  simpl in Hd.
  destruct t1 as [|c1 t2].
  { by rewrite rep_unfold. }
  destruct (regexp.space c1) eqn:Hc1.
  2:{ rewrite rep_unfold. cbv zeta. rewrite Hc1. by destruct t2. }
  destruct t2 as [|c2 t].
  { rewrite rep_unfold. cbv zeta. rewrite Hc1. by rewrite rep_unfold. }
  cbn [andb fmap option_fmap option_map].
  destruct (blank_line (c1 :: c2 :: t)) eqn:Hb.
  - destruct (exists_last (l := c1 :: c2 :: t)) as (ws & c & Heq); [done|].
    rewrite Heq in Hd, Hb |- *.
    assert (length ws >= 1)%nat.
    { apply (f_equal length) in Heq. rewrite length_app in Heq. simpl in Heq. lia. }
    rewrite name_all_spaces by (done || lia).
    cbn [fmap option_fmap option_map regexp.submatches map seq].
    pose proof (group1_open_close (1 + length ws) (1 + length ws + 1) regexp.no_caps) as Hg.
    unfold group1 in Hg. rewrite Hg. cbn [lookup list_lookup default].
    rewrite (slice_at ("#"%char :: ws) [c] []) by (simpl; done || lia).
    rewrite (TrimSpace_blank (ws ++ [c])) by done.
    assert (Hc : forallb regexp.space [c] = true).
    { unfold blank_line in Hb. rewrite forallb_app in Hb. by apply andb_true_iff in Hb as [_ ?]. }
    unfold id. by rewrite (TrimSpace_blank [c]).
  - destruct (not_blank_split _ Hb) as (ws & x & d & Heq & Hws & Hx).
    assert (length ws >= 1)%nat.
    { destruct ws; [|simpl; lia]. simpl in Heq. injection Heq as -> _. congruence. }
    rewrite Heq in Hd |- *.
    assert (Hdd : forallb regexp.dot (x :: d) = true).
    { rewrite forallb_app in Hd. by apply andb_true_iff in Hd as [_ ?]. }
    rewrite name_spaces_then_text by (done || lia).
    cbn [fmap option_fmap option_map regexp.submatches map seq].
    pose proof (group1_open_close (1 + length ws) (1 + length ws + S (length d)) regexp.no_caps) as Hg.
    unfold group1 in Hg. rewrite Hg. cbn [lookup list_lookup default].
    rewrite (slice_at ("#"%char :: ws) (x :: d) []) by (simpl; rewrite ?app_nil_r; done || lia).
    unfold id. by rewrite (TrimSpace_spaces ws).
Qed.

(** X6: [extractName] returns the trimmed text after the [#] of the first
    line that is a [#], a whitespace byte and at least one more byte, and
    the empty string when there is no such line; a line of [#] followed
    by whitespace only ends the search with the empty name. *)
Theorem extractName_first_heading (markdown : gostring) :
  extractName markdown = name_of_lines (Split markdown nl).
Proof.
  destruct (Split_fuel_lines (length markdown) markdown) as [_ HF]; [done|].
  unfold extractName. fold (Split markdown nl) in HF.
  induction HF as [|line lines Hline HF IH]; [done|].
  cbn [extractName_lines name_of_lines].
  pose proof (find_name line Hline) as Hfind.
  destruct (regexp.FindStringSubmatch re.name 1 line) as [matches|];
    destruct (heading_text line) as [t|]; simpl in Hfind; try done.
  by injection Hfind.
Qed.

(** ** The whitespace of a cleaned description *)

Lemma rep_spaces s need prev pos st :
  regexp.rep true regexp.space (regexp.run []) s need prev pos st =
  if (need <=? space_run s)%nat then Some ((pos + space_run s)%nat, st) else None.
Proof.
  revert need prev pos. induction s as [|x s IH]; intros need prev pos; rewrite rep_unfold; cbv zeta.
  - simpl. destruct need; simpl; [by rewrite Nat.add_0_r | done].
  - simpl. destruct (regexp.space x).
    + rewrite IH. destruct need as [|need]; simpl.
      * do 2 f_equal. lia.
      * destruct (need <=? space_run s)%nat; [|done]. do 2 f_equal. lia.
    + destruct need; simpl; [by rewrite Nat.add_0_r | done].
Qed.

Lemma search_spaces s prev pos :
  regexp.search re.spaces prev pos s =
  if (nonspace_run s <? length s)%nat
  then Some ((pos + nonspace_run s)%nat,
             (pos + nonspace_run s + space_run (drop (nonspace_run s) s))%nat, regexp.no_caps)
  else None.
Proof.
  revert prev pos. induction s as [|x s IH]; intros prev pos; rewrite search_unfold.
  - done.
  - unfold re.spaces. cbn [regexp.run]. rewrite rep_spaces.
    cbn [space_run nonspace_run length]. destruct (regexp.space x) eqn:Hx.
    + simpl. rewrite Hx. do 3 f_equal; lia.
    + simpl. rewrite IH.
      destruct (Nat.ltb_spec (nonspace_run s) (length s));
        destruct (Nat.ltb_spec (S (nonspace_run s)) (S (length s))); try lia; [|done].
      do 3 f_equal; lia.
Qed.

Lemma collapse_no_space s : nonspace_run s = length s -> collapse false s = s.
Proof.
  induction s as [|x s IH]; simpl; [done|].
  destruct (regexp.space x); [done|]. intros [= ?]. by rewrite IH.
Qed.

Lemma collapse_run b s :
  collapse b s = (if b then [] else match space_run s with O => [] | S _ => [" "%char] end)
                 ++ collapse false (drop (space_run s) s).
Proof.
  revert b. induction s as [|x s IH]; intros b; simpl.
  - by destruct b.
  - destruct (regexp.space x) eqn:Hx.
    + rewrite (IH true). simpl. by destruct b.
    + simpl. rewrite Hx. by destruct b.
Qed.

Lemma collapse_step s :
  (nonspace_run s < length s)%nat ->
  collapse false s =
  take (nonspace_run s) s ++ " "%char ::
    collapse false (drop (nonspace_run s + space_run (drop (nonspace_run s) s)) s).
Proof.
  induction s as [|x s IH]; simpl; [lia|].
  destruct (regexp.space x) eqn:Hx.
  - intros _. simpl. rewrite Hx. simpl. by rewrite (collapse_run true).
  - intros Hlt. simpl. rewrite IH by lia. done.
Qed.

Lemma space_run_pos s :
  (nonspace_run s < length s)%nat -> (0 < space_run (drop (nonspace_run s) s))%nat.
Proof.
  induction s as [|x s IH]; simpl; [lia|].
  destruct (regexp.space x) eqn:Hx; simpl; [rewrite Hx; lia|]. intros. apply IH. lia.
Qed.

Lemma runs_le s : (nonspace_run s + space_run (drop (nonspace_run s) s) <= length s)%nat.
Proof.
  assert (Hr : forall t, (space_run t <= length t)%nat).
  { induction t as [|y t IHt]; simpl; [lia|]. destruct (regexp.space y); lia. }
  induction s as [|x s IH]; simpl; [lia|].
  destruct (regexp.space x) eqn:Hx; simpl; [rewrite Hx; specialize (Hr s); lia | lia].
Qed.

Lemma replace_spaces text fuel pos :
  (length text - pos < fuel)%nat -> (pos <= length text)%nat ->
  regexp.replace_matches text 0 [regexp.TLit (go " ")] pos
    (regexp.find_all fuel re.spaces text pos)
  = collapse false (drop pos text).
Proof.
  revert pos. induction fuel as [|fuel IH]; intros pos Hf Hp; [lia|].
  cbn [regexp.find_all]. unfold regexp.search_at. rewrite search_spaces.
  set (s := drop pos text).
  destruct (Nat.ltb_spec (nonspace_run s) (length s)) as [Hlt|Hge].
  - pose proof (space_run_pos s Hlt) as Hpos. pose proof (runs_le s) as Hle.
    assert (Hlen : length s = (length text - pos)%nat) by (unfold s; by rewrite length_drop).
    rewrite (proj2 (Nat.eqb_neq _ _)) by lia.
    cbn [regexp.replace_matches]. rewrite IH by lia.
    rewrite (collapse_step s Hlt). unfold slice. fold s.
    replace (pos + nonspace_run s - pos)%nat with (nonspace_run s) by lia.
    f_equal. change (regexp.expand _ _) with [" "%char]. cbn [app]. f_equal. f_equal.
    generalize (space_run (drop (nonspace_run s) s)) (nonspace_run s). intros b a.
    unfold s. rewrite !drop_drop. f_equal. lia.
  - simpl. fold s. symmetry. apply collapse_no_space.
    assert (Hn : forall t, (nonspace_run t <= length t)%nat).
    { induction t as [|y t IHt]; simpl; [lia|]. destruct (regexp.space y); lia. }
    specialize (Hn s). lia.
Qed.

Lemma ReplaceAll_spaces text :
  regexp.ReplaceAllString re.spaces 0 text [regexp.TLit (go " ")] = collapse false text.
Proof.
  unfold regexp.ReplaceAllString, regexp.FindAll. rewrite replace_spaces by lia. by rewrite drop_0.
Qed.

Lemma collapse_single_spaced b s : single_spaced b (collapse b s) = true.
Proof.
  revert b. induction s as [|x s IH]; intros b; simpl; [done|].
  destruct (regexp.space x) eqn:Hx.
  - destruct b; [apply IH|]. simpl. change (regexp.space " "%char) with true. simpl. apply IH.
  - simpl. rewrite Hx. apply IH.
Qed.

Lemma single_spaced_weaken b s : single_spaced b s = true -> single_spaced false s = true.
Proof.
  destruct s as [|x s]; simpl; [done|]. destruct (regexp.space x); [|done].
  destruct b; simpl; [by rewrite andb_false_r | done].
Qed.

Lemma single_spaced_tail b x s : single_spaced b (x :: s) = true -> single_spaced false s = true.
Proof.
  simpl. destruct (regexp.space x).
  - intros [_ Hs]%andb_true_iff. by eapply single_spaced_weaken.
  - done.
Qed.

Lemma single_spaced_drop b k s : single_spaced b s = true -> single_spaced false (drop k s) = true.
Proof.
  revert b s. induction k as [|k IH]; intros b s Hs.
  - rewrite drop_0. by eapply single_spaced_weaken.
  - destruct s as [|x s]; [done|]. simpl. eapply IH. by eapply single_spaced_tail.
Qed.

Lemma single_spaced_take b k s : single_spaced b s = true -> single_spaced b (take k s) = true.
Proof.
  revert b s. induction k as [|k IH]; intros b s Hs; [by rewrite take_0|].
  destruct s as [|x s]; [done|]. simpl in *. destruct (regexp.space x).
  - apply andb_true_iff in Hs as [-> Hs]. simpl. by apply IH.
  - by apply IH.
Qed.

Lemma single_spaced_bytes b s :
  single_spaced b s = true -> Forall (fun c => regexp.space c = true -> c = " "%char) s.
Proof.
  revert b. induction s as [|x s IH]; intros b Hs; [constructor|].
  simpl in Hs. destruct (regexp.space x) eqn:Hx.
  - apply andb_true_iff in Hs as [[Hc _]%andb_true_iff Hs].
    constructor; [intros _; by apply bool_decide_eq_true in Hc | by eapply IH].
  - constructor; [congruence | by eapply IH].
Qed.

Lemma single_spaced_no_double b s : single_spaced b s = true -> Contains s (go "  ") = false.
Proof.
  intros Hs. unfold Contains. apply bool_decide_eq_false. intros [k Hk].
  apply Index_Some in Hk as ([t Ht] & _ & _).
  apply (single_spaced_drop _ k) in Hs. rewrite Ht in Hs. by vm_compute in Hs.
Qed.

Lemma single_spaced_TrimSpace b s : single_spaced b s = true -> single_spaced false (TrimSpace s) = true.
Proof.
  intros Hs. destruct (TrimSpace_infix s) as (a & k & ->).
  apply single_spaced_take. by eapply single_spaced_drop.
Qed.

Lemma single_spaced_cut_footers d ps :
  single_spaced false d = true -> single_spaced false (foldl cut_footer d ps) = true.
Proof.
  revert d. induction ps as [|p ps IH]; intros d Hd; simpl; [done|].
  apply IH. rewrite cut_footer_step. destruct (Index d p) as [[|k]|]; try done.
  by apply single_spaced_take.
Qed.

(** The ends of a trimmed string. *)
Lemma Decode_width_0 s r : utf8.DecodeRuneInString s = (r, 0%nat) -> s = [].
Proof.
  destruct s as [|c0 t]; [done|]. unfold utf8.DecodeRuneInString.
  repeat (match goal with
          | |- context [if ?b then _ else _] => destruct b
          | |- context [match ?l with [] => _ | _ :: _ => _ end] => destruct l
          end; try done).
Qed.

Lemma TrimLeft_fuel_head fuel s c t :
  (length s <= fuel)%nat -> TrimLeft_fuel fuel s = c :: t -> regexp.space c = false.
Proof.
  revert s. induction fuel as [|fuel IH]; intros s Hf; simpl.
  - destruct s; [done | simpl in Hf; lia].
  - destruct (utf8.DecodeRuneInString s) as [r w] eqn:Hdec.
    destruct w as [|w].
    { apply Decode_width_0 in Hdec as ->. done. }
    destruct (unicode.IsSpace r) eqn:Hr.
    + apply IH. rewrite length_drop. destruct s; simpl in *; lia.
    + intros ->. destruct (regexp.space c) eqn:Hc; [|done].
      destruct (space_is_space c t Hc) as [Hd Hsp]. rewrite Hd in Hdec.
      injection Hdec as <- _. congruence.
Qed.

Lemma DecodeLast_space s c :
  last s = Some c -> regexp.space c = true ->
  utf8.DecodeLastRuneInString s = (byte c, 1%nat) /\ unicode.IsSpace (byte c) = true.
Proof.
  intros Hl Hc. destruct (space_is_space c [] Hc) as [_ Hsp]. split; [|done].
  unfold utf8.DecodeLastRuneInString.
  assert (Hlen : (0 < length s)%nat) by (destruct s; [done | simpl; lia]).
  rewrite (proj2 (Z.eqb_neq _ 0)) by lia.
  assert (Hnth : nth (Z.to_nat (Z.of_nat (length s) - 1)) s "000"%char = c).
  { rewrite last_lookup in Hl. replace (Z.to_nat (Z.of_nat (length s) - 1)) with (pred (length s)) by lia.
    by apply nth_lookup_Some with (d := "000"%char) in Hl. }
  rewrite Hnth.
  assert ((byte c <? utf8.RuneSelf) = true) as ->; [|done].
  unfold regexp.space in Hc. unfold utf8.RuneSelf. apply Z.ltb_lt.
  repeat (apply orb_true_iff in Hc as [Hc|Hc]); apply Z.eqb_eq in Hc; lia.
Qed.

Lemma TrimRight_fuel_last fuel s c :
  (length s <= fuel)%nat -> last (TrimRight_fuel fuel s) = Some c -> regexp.space c = false.
Proof.
  revert s. induction fuel as [|fuel IH]; intros s Hf; simpl.
  - destruct s; [done | simpl in Hf; lia].
  - destruct (utf8.DecodeLastRuneInString s) as [r w] eqn:Hdec.
    assert (Hkeep : last s = Some c -> (unicode.IsSpace r = false \/ w = 0%nat) -> regexp.space c = false).
    { intros Hl Hr. destruct (regexp.space c) eqn:Hc; [|done].
      destruct (DecodeLast_space s c Hl Hc) as [Hd Hsp]. rewrite Hd in Hdec.
      injection Hdec as <- <-. destruct Hr; [congruence | done]. }
    destruct w as [|w]; [intros; apply Hkeep; auto|].
    destruct (unicode.IsSpace r) eqn:Hr; [|intros; apply Hkeep; auto].
    apply IH. rewrite length_take. destruct s; simpl in *; lia.
Qed.

Lemma TrimSpace_ends s :
  (forall c, head (TrimSpace s) = Some c -> regexp.space c = false)
  /\ (forall c, last (TrimSpace s) = Some c -> regexp.space c = false).
Proof.
  unfold TrimSpace, TrimRightSpace. split.
  - destruct (TrimRight_fuel_take (length (TrimLeftSpace s)) (TrimLeftSpace s)) as [k ->].
    intros c Hc. destruct (TrimLeftSpace s) as [|c' t] eqn:Ht; [by rewrite take_nil in Hc|].
    destruct k; simpl in Hc; [done|]. injection Hc as ->.
    unfold TrimLeftSpace in Ht. by eapply TrimLeft_fuel_head in Ht.
  - intros c. by apply TrimRight_fuel_last.
Qed.

(** X7: in a cleaned description the only pattern whitespace is the
    space, no two spaces are adjacent, and the text neither starts nor
    ends with pattern whitespace. *)
Theorem cleanDescription_whitespace (desc : gostring) :
  let cleaned := cleanDescription desc in
  Forall (fun c => regexp.space c = true -> c = " "%char) cleaned
  /\ Contains cleaned (go "  ") = false
  /\ (forall c, head cleaned = Some c -> regexp.space c = false)
  /\ (forall c, last cleaned = Some c -> regexp.space c = false).
Proof.
  cbv zeta. unfold cleanDescription. rewrite ReplaceAll_spaces.
  set (d := regexp.ReplaceAllString re.image_nocapture 0 _ _).
  assert (Hs : single_spaced false
                 (TrimSpace (foldl cut_footer (TrimSpace (collapse false d)) description_footers)) = true).
  { eapply single_spaced_TrimSpace, single_spaced_cut_footers, single_spaced_TrimSpace.
    apply collapse_single_spaced. }
  destruct (TrimSpace_ends (foldl cut_footer (TrimSpace (collapse false d)) description_footers))
    as [Hh Hl].
  split_and!; [by eapply single_spaced_bytes | by eapply single_spaced_no_double | done | done].
Qed.

(** ** The image targets *)

(** What a repeated class hands to its continuation: the state it was
    given, after some bytes of the class. *)
Lemma rep_inv greedy p k s need prev pos st r :
  regexp.rep greedy p k s need prev pos st = Some r ->
  exists n prev', (n <= length s)%nat /\ forallb p (take n s) = true
    /\ k prev' (pos + n)%nat (drop n s) st = Some r.
Proof.
  revert need prev pos. induction s as [|x s IH]; intros need prev pos; rewrite rep_unfold; cbv zeta.
  - intros Hr. exists 0%nat, prev. rewrite Nat.add_0_r.
    assert (k prev pos [] st = Some r).
    { destruct need, greedy; simpl in Hr; try done. by destruct (k prev pos [] st). }
    split_and!; [simpl; lia | done | done].
  - assert (Hstop : match need with O => k prev pos (x :: s) st | S _ => None end = Some r ->
                    exists n prev', (n <= length (x :: s))%nat /\ forallb p (take n (x :: s)) = true
                      /\ k prev' (pos + n)%nat (drop n (x :: s)) st = Some r).
    { intros Hr. exists 0%nat, prev. rewrite Nat.add_0_r. destruct need; [|done].
      split_and!; [simpl; lia | done | done]. }
    assert (Hmore : (if p x then regexp.rep greedy p k s (pred need) (Some x) (S pos) st else None)
                    = Some r ->
                    exists n prev', (n <= length (x :: s))%nat /\ forallb p (take n (x :: s)) = true
                      /\ k prev' (pos + n)%nat (drop n (x :: s)) st = Some r).
    { destruct (p x) eqn:Hx; [|done]. intros (n & prev' & Hn & Hp & Hk)%IH.
      exists (S n), prev'. simpl. rewrite Hx, Hp.
      replace (pos + S n)%nat with (S pos + n)%nat by lia. split_and!; [lia | done | done]. }
    destruct greedy.
    + destruct (if p x then _ else None) eqn:Hm; [intros [= ->]; by apply Hmore | apply Hstop].
    + destruct (match need with O => _ | S _ => None end) eqn:Hs;
        [intros [= ->]; by apply Hstop | apply Hmore].
Qed.

Lemma search_inv re prev pos s b e st :
  regexp.search re prev pos s = Some (b, e, st) ->
  exists n prev', (n <= length s)%nat /\ b = (pos + n)%nat
    /\ regexp.run re prev' b (drop n s) regexp.no_caps = Some (e, st).
Proof.
  revert prev pos. induction s as [|x s IH]; intros prev pos; rewrite search_unfold.
  - destruct (regexp.run re prev pos [] regexp.no_caps) as [[e' st']|] eqn:Hr; [|done].
    intros [= <- <- <-]. exists 0%nat, prev. rewrite Nat.add_0_r. done.
  - destruct (regexp.run re prev pos (x :: s) regexp.no_caps) as [[e' st']|] eqn:Hr.
    + intros [= <- <- <-]. exists 0%nat, prev. rewrite Nat.add_0_r. split_and!; [simpl; lia|done|done].
    + intros (n & prev' & Hn & -> & Hrun)%IH. exists (S n), prev'.
      split_and!; [simpl; lia | lia | done].
Qed.

Lemma find_all_inv fuel re text pos m :
  m ∈ regexp.find_all fuel re text pos -> exists p, regexp.search_at re text p = Some m.
Proof.
  revert pos. induction fuel as [|fuel IH]; intros pos; simpl; [by intros ?%elem_of_nil|].
  destruct (regexp.search_at re text pos) as [[[b e] st]|] eqn:Hs; [|by intros ?%elem_of_nil].
  intros [->|Hin]%elem_of_cons; [by exists pos | by eapply IH].
Qed.

(** The lazy target group stops at the first closing parenthesis. *)
Lemma target_group s prev pos st e st' :
  regexp.rep false regexp.dot I3 s 0 prev pos st = Some (e, st') ->
  exists n, Forall target_byte (take n s) /\ (n < length s)%nat
    /\ e = (pos + n + 1)%nat /\ st' = regexp.close_group 1 (pos + n) st.
Proof.
  revert prev pos. induction s as [|x s IH]; intros prev pos; rewrite rep_unfold; cbv zeta.
  - done.
  - assert (HI3 : I3 prev pos (x :: s) st =
                  if bool_decide (x = ")"%char) then Some (S pos, regexp.close_group 1 pos st) else None)
      by done.
    rewrite HI3. case_bool_decide as Hx.
    + intros [= <- <-]. exists 0%nat. rewrite Nat.add_0_r.
      split_and!; [constructor | simpl; lia | lia | done].
    + destruct (regexp.dot x) eqn:Hd; [|done]. cbn [pred].
      intros (n & Hn & Hlt & -> & ->)%IH. exists (S n).
      split_and!; [|simpl; lia|lia|f_equal; lia].
      cbn [take]. constructor; [|done]. split; [done|].
      intros ->. done.
Qed.

Lemma run_image_inv prev pos s st e st' :
  regexp.run re.image prev pos s st = Some (e, st') ->
  exists a n, group1 st' = Some ((pos + a)%nat, (pos + a + n)%nat)
    /\ Forall target_byte (take n (drop a s)).
Proof.
  assert (Hrun : regexp.run re.image prev pos s st =
    match s with
    | c0 :: c1 :: s2 =>
      if bool_decide (c0 = "!"%char) then
        if bool_decide (c1 = "["%char)
        then regexp.rep false regexp.dot I2 s2 0 (Some c1) (S (S pos)) st else None
      else None
    | _ => None
    end).
  { destruct s as [|c0 [|c1 s2]]; try done; simpl; by repeat case_bool_decide. }
  rewrite Hrun. destruct s as [|c0 [|c1 s2]]; try done.
  repeat case_bool_decide; try done.
  intros (n1 & prev' & Hn1 & _ & HI2)%rep_inv.
  assert (HI2eq : I2 prev' (S (S pos) + n1)%nat (drop n1 s2) st =
    match drop n1 s2 with
    | d0 :: d1 :: s3 =>
      if bool_decide (d0 = "]"%char) then
        if bool_decide (d1 = "("%char)
        then regexp.rep false regexp.dot I3 s3 0 (Some d1) (S (S (S (S pos) + n1)))
               (regexp.open_group 1 (S (S (S (S pos) + n1))) st)
        else None
      else None
    | _ => None
    end).
  { destruct (drop n1 s2) as [|d0 [|d1 s3]]; try done; unfold I2; simpl; by repeat case_bool_decide. }
  rewrite HI2eq in HI2. destruct (drop n1 s2) as [|d0 [|d1 s3]] eqn:Hdrop; try done.
  repeat case_bool_decide; try done.
  apply target_group in HI2 as (n & Hn & _ & -> & ->).
  exists (4 + n1)%nat, n. split.
  - rewrite group1_open_close. do 2 f_equal; lia.
  - replace (drop (4 + n1) (c0 :: c1 :: s2)) with s3; [done|].
    change (4 + n1)%nat with (2 + (2 + n1))%nat. 
    replace (2 + (2 + n1))%nat with (2 + (n1 + 2))%nat by lia.
    cbn [drop Nat.add]. rewrite <- drop_drop, Hdrop. done.
Qed.

Lemma image_match_target text m :
  m ∈ regexp.FindAllStringSubmatch re.image 1 text ->
  exists gb n, default [] (m !! 1%nat) = take n (drop gb text)
    /\ Forall target_byte (take n (drop gb text)).
Proof.
  unfold regexp.FindAllStringSubmatch, regexp.FindAll.
  intros ([[b e] st] & -> & Hin)%list_elem_of_fmap.
  apply find_all_inv in Hin as [p Hs]. unfold regexp.search_at in Hs.
  apply search_inv in Hs as (k & prev' & _ & -> & Hrun).
  apply run_image_inv in Hrun as (a & n & Hg & Hn).
  exists (p + k + a)%nat, n.
  assert (Hd : drop a (drop k (drop p text)) = drop (p + k + a) text)
    by (rewrite !drop_drop; f_equal; lia).
  rewrite Hd in Hn. split; [|done].
  cbn [regexp.submatches map seq lookup list_lookup]. unfold group1 in Hg. rewrite Hg.
  cbn [default from_option id]. unfold slice. f_equal. lia.
Qed.

Lemma take_drop_infix {A} (l : list A) (a n : nat) :
  exists before after, l = before ++ take n (drop a l) ++ after.
Proof.
  exists (take a l), (drop n (drop a l)). by rewrite take_drop, take_drop.
Qed.

(** X8: every media entry is the normal form of a target that is not
    empty, holds no closing parenthesis and no newline, is a substring of
    the document and neither starts nor ends with pattern whitespace. *)
Theorem image_targets (markdown : gostring) :
  Forall (fun entry => exists target,
            entry = urlEncode target
            /\ target <> []
            /\ Forall target_byte target
            /\ (exists before after, markdown = before ++ target ++ after)
            /\ (forall c, head target = Some c -> regexp.space c = false)
            /\ (forall c, last target = Some c -> regexp.space c = false))
         (extractImages markdown).
Proof.
  rewrite extractImages_kept. apply Forall_fmap, Forall_forall.
  intros r Hr. apply (proj1 (first_occurrences_all _ _)) in Hr.
  unfold raw_targets in Hr. apply list_elem_of_filter in Hr as [Hne Hr].
  apply list_elem_of_fmap in Hr as (m & -> & Hm).
  destruct (image_match_target _ _ Hm) as (gb & n & Heq & Hbytes).
  unfold match_target in *. rewrite Heq in *.
  destruct (TrimSpace_ends (take n (drop gb markdown))) as [Hhead Hlast].
  exists (TrimSpace (take n (drop gb markdown))). simpl.
  split_and!; try done.
  - destruct (TrimSpace_infix (take n (drop gb markdown))) as (a & b & ->).
    by apply Forall_take, Forall_drop.
  - destruct (TrimSpace_infix (take n (drop gb markdown))) as (a & b & ->).
    destruct (take_drop_infix markdown gb n) as (b1 & a1 & H1).
    destruct (take_drop_infix (take n (drop gb markdown)) a b) as (b2 & a2 & H2).
    exists (b1 ++ b2), (a2 ++ a1). rewrite H1 at 1. rewrite H2 at 1.
    by rewrite <- !app_assoc.
Qed.

(** ** URLs that are their own normal form *)

Ltac by_bytes c := destruct c as [[] [] [] [] [] [] [] []]; vm_compute; try done.

Lemma host_byte_facts c :
  host_byte c = true ->
  url.shouldEscape c url.encodeHost = false /\ c <> url.percent /\ c <> "+"%char
  /\ c <> "/"%char /\ c <> "@"%char /\ c <> ":"%char /\ c <> "["%char /\ c <> "]"%char
  /\ c <> "?"%char /\ c <> "#"%char /\ ((byte c <? 32) || (byte c =? 127)) = false.
Proof. by_bytes c; intros; split_and!; congruence. Qed.

Lemma path_byte_facts c :
  path_byte c = true ->
  url.shouldEscape c url.encodePath = false /\ c <> url.percent /\ c <> "?"%char
  /\ c <> "#"%char /\ c <> " "%char /\ ((byte c <? 32) || (byte c =? 127)) = false.
Proof. by_bytes c; intros; split_and!; congruence. Qed.

Lemma scheme_char_facts c :
  scheme_char c = true ->
  c <> "#"%char /\ c <> ":"%char /\ ((byte c <? 32) || (byte c =? 127)) = false
  /\ scheme_char (lower_byte c) = true.
Proof. by_bytes c; intros; split_and!; congruence. Qed.

Ltac host_facts :=
  eapply Forall_impl; [eassumption|];
  let c := fresh "c" in let Hc := fresh "Hc" in
  intros c Hc; simpl; destruct (host_byte_facts c Hc) as (? & ? & ? & ? & ? & ? & ? & ? & ? & ? & ?);
  done.

Ltac path_facts :=
  eapply Forall_impl; [eassumption|];
  let c := fresh "c" in let Hc := fresh "Hc" in
  intros c Hc; simpl; destruct (path_byte_facts c Hc) as (? & ? & ? & ? & ? & ?);
  done.

Lemma Index_byte_None (s : gostring) (c : ascii) :
  Forall (fun x => x <> c) s -> Index s [c] = None.
Proof.
  induction 1 as [|x s Hx Hs IH]; [done|].
  cbn [Index HasPrefix]. rewrite bool_decide_eq_false_2 by done. simpl. by rewrite IH.
Qed.

Lemma Index_byte_first (s t : gostring) (c : ascii) :
  Forall (fun x => x <> c) s -> Index (s ++ c :: t) [c] = Some (length s).
Proof.
  induction 1 as [|x s Hx Hs IH]; cbn [app Index HasPrefix].
  - by rewrite bool_decide_eq_true_2.
  - rewrite bool_decide_eq_false_2 by done. simpl. by rewrite IH.
Qed.

Lemma LastIndexByte_None (s : gostring) (c : ascii) :
  Forall (fun x => x <> c) s -> LastIndexByte s c = None.
Proof.
  induction 1 as [|x s Hx Hs IH]; [done|]. simpl. rewrite IH.
  by rewrite bool_decide_eq_false_2.
Qed.

Lemma unescape_plain (s : gostring) (mode : url.encoding) :
  mode = url.encodePath \/ mode = url.encodeHost ->
  Forall (fun c => c <> url.percent /\ url.shouldEscape c mode = false) s ->
  url.unescape s mode = Some s.
Proof.
  intros Hmode. induction 1 as [|c s [Hp He] Hs IH]; [done|].
  cbn [url.unescape]. rewrite bool_decide_eq_false_2 by done.
  destruct Hmode as [-> | ->]; cbn [url.encoding_eqb orb andb].
  - rewrite IH. by destruct (bool_decide (c = "+"%char)).
  - rewrite He, andb_false_r, IH. by destruct (bool_decide (c = "+"%char)).
Qed.

Lemma escape_plain (s : gostring) (mode : url.encoding) :
  mode = url.encodePath \/ mode = url.encodeHost ->
  Forall (fun c => url.shouldEscape c mode = false) s -> url.escape s mode = s.
Proof.
  intros Hmode. induction 1 as [|c s He Hs IH]; [done|].
  unfold url.escape in *. cbn [flat_map]. rewrite IH. unfold url.escape_byte. rewrite He.
  by destruct Hmode as [-> | ->]; rewrite andb_false_r.
Qed.

Lemma getScheme_from_name rawURL pre s rest :
  rawURL = pre ++ s ++ ":"%char :: rest ->
  forallb scheme_char s = true ->
  (pre <> [] \/ scheme_name s = true) ->
  url.getScheme_from rawURL (length pre) (s ++ ":"%char :: rest) = url.SchemeOk (pre ++ s) rest.
Proof.
  revert pre. induction s as [|c s IH]; intros pre Hraw Hs Hpre.
  - cbn [app url.getScheme_from]. change (between 97 (byte ":"%char) 122 || _) with false.
    cbn -[take]. destruct pre as [|p pre]; [by destruct Hpre|].
    rewrite Hraw, app_nil_r. by rewrite take_app_length.
  - cbn [app url.getScheme_from]. simpl in Hs. apply andb_true_iff in Hs as [Hc Hs].
    assert (IH' : url.getScheme_from rawURL (S (length pre)) (s ++ ":"%char :: rest)
                  = url.SchemeOk (pre ++ c :: s) rest).
    { replace (S (length pre)) with (length (pre ++ [c])) by (rewrite length_app; simpl; lia).
      rewrite (IH (pre ++ [c])); [by rewrite <- app_assoc | by rewrite <- app_assoc | done |].
      left. by destruct pre. }
    destruct (between 97 (byte c) 122 || between 65 (byte c) 90) eqn:Hl; [done|].
    unfold scheme_char in Hc. rewrite Hl in Hc. simpl in Hc. rewrite Hc.
    destruct pre as [|p pre]; [|done].
    destruct Hpre as [?|Hn]; [done|]. unfold scheme_name in Hn. by rewrite Hl in Hn.
Qed.

Lemma getScheme_name s rest :
  scheme_name s = true -> url.getScheme (s ++ ":"%char :: rest) = url.SchemeOk s rest.
Proof.
  intros Hn. unfold url.getScheme.
  apply (getScheme_from_name _ [] s rest); [done | | by right].
  unfold scheme_name in Hn. by apply andb_true_iff in Hn as [_ ?].
Qed.

Lemma HasSuffix_last s c : HasSuffix s [c] = true -> last s = Some c.
Proof.
  intros Hs%HasSuffix_split. rewrite Hs. by rewrite last_snoc.
Qed.

Lemma split_query_web rest query :
  Forall (fun x => x <> "?"%char) rest ->
  url.split_query (rest ++ match query with Some q => "?"%char :: q | None => [] end)
  = (rest, bool_decide (query = Some []), default [] query).
Proof.
  intros Hrest. unfold url.split_query. change (go "?") with ["?"%char].
  destruct query as [[|q0 q]|]; cbn [default from_option id].
  - rewrite HasSuffix_app.
    rewrite (Count_last _ _ (length rest)); [| done | by apply Index_byte_first |].
    2:{ apply drop_ge. rewrite length_app. simpl. lia. }
    rewrite bool_decide_eq_true_2 by done. cbn [andb].
    rewrite bool_decide_eq_true_2 by done.
    rewrite length_app. cbn [length]. replace (length rest + 1 - 1)%nat with (length rest) by lia.
    by rewrite take_app_length.
  - rewrite (bool_decide_eq_false_2 (Some (q0 :: q) = Some [])) by done.
    assert (Hcut : Cut (rest ++ "?"%char :: q0 :: q) ["?"%char] = (rest, q0 :: q, true)).
    { unfold Cut. rewrite Index_byte_first by done. rewrite take_app_length.
      by rewrite drop_app_add. }
    destruct (HasSuffix (rest ++ "?"%char :: q0 :: q) ["?"%char]) eqn:Hsuf; [|by rewrite Hcut].
    rewrite bool_decide_eq_false_2; [by rewrite Hcut|].
    intros Hcount. unfold Count in Hcount. rewrite length_app in Hcount. cbn [length] in Hcount.
    replace (length rest + S (S (length q)))%nat with (S (length rest + S (length q))) in Hcount by lia.
    cbn [Count_fuel] in Hcount. rewrite Index_byte_first in Hcount by done.
    rewrite drop_app_add in Hcount. cbn [drop length] in Hcount.
    injection Hcount as Hcount.
    replace (length rest + S (length q))%nat with (S (length rest + length q)) in Hcount by lia.
    cbn [Count_fuel] in Hcount.
    destruct (Index (q0 :: q) ["?"%char]) as [i|] eqn:Hi; [done|].
    apply HasSuffix_last in Hsuf. rewrite last_app in Hsuf.
    change ("?"%char :: q0 :: q) with (["?"%char] ++ (q0 :: q)) in Hsuf. rewrite last_app in Hsuf.
    destruct (last (q0 :: q)) as [l|] eqn:Hl; [|by apply last_None in Hl].
    injection Hsuf as ->.
    apply last_Some in Hl as [t Ht].
    apply (Index_None _ _ Hi (length t)). rewrite Ht, drop_app_length. done.
  - rewrite app_nil_r. rewrite (bool_decide_eq_false_2 (None = Some [])) by done.
    destruct (HasSuffix rest ["?"%char]) eqn:Hsuf.
    { apply HasSuffix_last in Hsuf. apply last_Some in Hsuf as [t ->].
      apply Forall_app in Hrest as [_ Hq]. by inversion Hq. }
    cbn [andb]. unfold Cut. by rewrite Index_byte_None.
Qed.

Lemma split_authority_web host path :
  Forall (fun x => x <> "/"%char) host -> web_path path = true ->
  url.split_authority ("/"%char :: "/"%char :: host ++ path) = (host, path).
Proof.
  intros Hh Hp. unfold url.split_authority. cbn [drop]. rewrite drop_0.
  change (go "/") with ["/"%char].
  destruct path as [|c p].
  - rewrite app_nil_r, Index_byte_None by done. done.
  - unfold web_path in Hp. apply andb_true_iff in Hp as [->%bool_decide_eq_true _].
    rewrite Index_byte_first by done. by rewrite take_app_length, drop_app_length.
Qed.

Lemma forallb_Forall_true {A} (f : A -> bool) (l : list A) :
  forallb f l = true -> Forall (fun x => f x = true) l.
Proof.
  induction l as [|x l IH]; simpl; [constructor|].
  intros [? ?]%andb_true_iff. constructor; auto.
Qed.

Lemma parseAuthority_web host :
  host <> [] -> forallb host_byte host = true ->
  url.parseAuthority host = Some (None, host).
Proof.
  intros Hne Hh%forallb_Forall_true.
  assert (Hplain : url.unescape host url.encodeHost = Some host).
  { apply unescape_plain; [by right|]. host_facts. }
  unfold url.parseAuthority, url.parseHost.
  rewrite !LastIndexByte_None.
  - rewrite Hplain. destruct host as [|c host]; [done|].
    apply Forall_cons in Hh as [Hc _].
    destruct (host_byte_facts c Hc) as (_ & _ & _ & _ & _ & _ & Hb & _).
    change (go "[") with ["["%char]. cbn [HasPrefix]. by rewrite bool_decide_eq_false_2.
  - host_facts.
  - host_facts.
  - host_facts.
Qed.

Lemma setPath_web path :
  forallb path_byte path = true -> url.setPath path = Some (path, []).
Proof.
  intros Hp%forallb_Forall_true. unfold url.setPath.
  rewrite unescape_plain; [|by left|].
  2:{ path_facts. }
  cbn. rewrite escape_plain; [by rewrite bool_decide_eq_true_2 | by left |].
  path_facts.
Qed.

Lemma parse_web scheme host path query :
  scheme_name scheme = true ->
  host <> [] -> forallb host_byte host = true ->
  web_path path = true ->
  forallb query_byte (default [] query) = true ->
  url.Parse (web_url scheme host path query) =
  Some (url.mkURL (map lower_byte scheme) [] None host path [] false
          (bool_decide (query = Some [])) (default [] query) [] []).
Proof.
  intros Hs Hne Hh Hp Hq.
  pose proof Hs as Hs'. unfold scheme_name in Hs'. apply andb_true_iff in Hs' as [Hs1 Hs2].
  pose proof Hp as Hp'. unfold web_path in Hp'. apply andb_true_iff in Hp' as [Hp1 Hp2].
  pose proof (forallb_Forall_true _ _ Hh) as Hh'.
  apply forallb_Forall_true in Hs2, Hp2, Hq.
  set (qs := match query with Some q => "?"%char :: q | None => [] end).
  assert (Hraw : web_url scheme host path query
                 = scheme ++ ":"%char :: ("/"%char :: "/"%char :: host ++ path) ++ qs).
  { unfold web_url. fold qs. simpl. by rewrite <- !app_assoc. }
  assert (Hqs : Forall (fun c => c <> "#"%char /\ ((byte c <? 32) || (byte c =? 127)) = false) qs).
  { unfold qs. destruct query as [q|]; [|constructor]. constructor; [by vm_compute|].
    eapply Forall_impl; [exact Hq|]. intros c Hc. simpl. unfold query_byte in Hc.
    apply andb_true_iff in Hc as [Hc1 Hc2]. apply negb_true_iff in Hc1.
    apply negb_true_iff, bool_decide_eq_false in Hc2. done. }
  assert (Hall : Forall (fun c => c <> "#"%char /\ ((byte c <? 32) || (byte c =? 127)) = false)
                   (web_url scheme host path query)).
  { rewrite Hraw. apply Forall_app. split.
    { eapply Forall_impl; [exact Hs2|]. intros c Hc. simpl.
      by destruct (scheme_char_facts c Hc) as (? & _ & ? & _). }
    constructor; [by vm_compute|]. apply Forall_app. split; [|done].
    constructor; [by vm_compute|]. constructor; [by vm_compute|]. apply Forall_app. split.
    - host_facts.
    - path_facts. }
  unfold url.Parse, Cut. change (go "#") with ["#"%char].
  rewrite Index_byte_None by (eapply Forall_impl; [exact Hall|]; by intros c [? _]).
  assert (Hparse : url.parse (web_url scheme host path query) =
    Some (url.mkURL (map lower_byte scheme) [] None host path [] false
            (bool_decide (query = Some [])) (default [] query) [] [])); [|by rewrite Hparse].
  unfold url.parse.
  assert (url.stringContainsCTLByte (web_url scheme host path query) = false) as ->.
  { unfold url.stringContainsCTLByte. apply not_true_iff_false. intros (c & Hin & Hc)%existsb_exists.
    apply list_elem_of_In in Hin. rewrite Forall_forall in Hall. destruct (Hall c Hin). congruence. }
  rewrite bool_decide_eq_false_2.
  2:{ rewrite Hraw. destruct scheme as [|c [|c' scheme]]; [done| |done]. by destruct path, qs. }
  rewrite Hraw, (getScheme_name _ _ Hs).
  unfold qs. rewrite split_query_web.
  2:{ constructor; [done|]. constructor; [done|]. apply Forall_app. split.
      - host_facts.
      - path_facts. }
  assert (bool_decide (map lower_byte scheme = []) = false) as ->.
  { apply bool_decide_eq_false. by destruct scheme. }
  change (go "/") with ["/"%char]. change (go "//") with ["/"%char; "/"%char].
  cbn [HasPrefix negb andb orb]. rewrite !bool_decide_eq_true_2 by done. cbn [negb andb orb].
  rewrite split_authority_web; [|host_facts|done].
  rewrite parseAuthority_web by done. cbn [mbind option_bind].
  rewrite setPath_web; [done|].
  unfold web_path in Hp. by apply andb_true_iff in Hp as [_ ?].
Qed.

(** X9: a URL [scheme://host/path?query] with a plain host, a path that
    needs no escape and any query is printed as it was read, with its
    scheme in lower case; normalising it a second time changes nothing. *)
Theorem web_url_normal_form (scheme host path : gostring) (query : option gostring) :
  scheme_name scheme = true ->
  host <> [] -> forallb host_byte host = true ->
  web_path path = true ->
  forallb query_byte (default [] query) = true ->
  urlEncode (web_url scheme host path query) = web_url (map lower_byte scheme) host path query
  /\ urlEncode (urlEncode (web_url scheme host path query))
     = urlEncode (web_url scheme host path query).
Proof.
  intros Hs Hne Hh Hp Hq.
  assert (Hone : forall scheme, scheme_name scheme = true ->
            urlEncode (web_url scheme host path query)
            = web_url (map lower_byte scheme) host path query).
  { clear scheme Hs. intros scheme Hs. unfold urlEncode. rewrite parse_web by done.
    unfold url.String. cbn [url.Scheme url.Opaque url.User url.Host url.Path url.RawPath
      url.OmitHost url.ForceQuery url.RawQuery url.Fragment url.RawFragment].
    assert (url.nonempty (map lower_byte scheme) = true) as ->.
    { unfold scheme_name in Hs. by destruct scheme. }
    assert (url.nonempty host = true) as -> by by destruct host.
    change (url.nonempty []) with false. cbn [orb andb negb].
    rewrite escape_plain; [|by right|apply forallb_Forall_true in Hh; host_facts].
    assert (Hesc : url.EscapedPath (url.mkURL (map lower_byte scheme) [] None host path []
                      false (bool_decide (query = Some [])) (default [] query) [] []) = path).
    { unfold url.EscapedPath. cbn [url.RawPath url.Path].
      rewrite (bool_decide_eq_true_2 ([] = [])) by done. cbn [negb andb].
      unfold web_path in Hp. apply andb_true_iff in Hp as [Hp1 Hp2].
      rewrite bool_decide_eq_false_2.
      2:{ destruct path as [|c p]; [done|]. apply bool_decide_eq_true in Hp1 as ->. done. }
      apply escape_plain; [by left|]. apply forallb_Forall_true in Hp2. path_facts. }
    rewrite Hesc.
    assert ((url.nonempty path && negb (HasPrefix path (go "/"))) = false) as ->.
    { unfold web_path in Hp. apply andb_true_iff in Hp as [Hp1 _].
      destruct path as [|c p]; [done|]. apply bool_decide_eq_true in Hp1 as ->. done. }
    cbn [andb].
    assert (url.nonempty (((map lower_byte scheme ++ go ":") ++ (go "//" ++ [] ++ host) ++ []))
            = true) as ->.
    { unfold scheme_name in Hs. by destruct scheme. }
    cbn [negb andb]. unfold web_url.
    rewrite !app_nil_r, <- !app_assoc. f_equal. cbn [app go list_ascii_of_string]. do 3 f_equal.
    f_equal. f_equal. destruct query as [[|q0 q]|]; done. }
  split; [by apply Hone|].
  rewrite (Hone scheme Hs). rewrite Hone.
  - f_equal. rewrite map_map. apply map_ext. intros c. by_bytes c.
  - unfold scheme_name in Hs |- *. apply andb_true_iff in Hs as [Hs1 Hs2].
    apply andb_true_iff. split.
    + destruct scheme as [|c scheme]; [done|]. simpl. revert Hs1. by_bytes c.
    + apply forallb_forall. intros c [c0 [<- Hin]]%in_map_iff.
      rewrite forallb_forall in Hs2. specialize (Hs2 c0 Hin).
      by destruct (scheme_char_facts c0 Hs2) as (_ & _ & _ & ?).
Qed.

Lemma getScheme_from_no_colon rawURL i s query :
  Forall (fun c => c <> ":"%char) s ->
  url.getScheme_from rawURL i (s ++ match query with Some q => "?"%char :: q | None => [] end)
  = url.SchemeOk [] rawURL.
Proof.
  intros Hs. revert i. induction Hs as [|c s Hc Hs IH]; intros i.
  - by destruct query.
  - cbn [app url.getScheme_from]. rewrite !IH. rewrite bool_decide_eq_false_2 by done.
    destruct (between 97 (byte c) 122 || between 65 (byte c) 90); [done|].
    destruct (between 48 (byte c) 57 || url.is_in c "+-."); [by destruct i | done].
Qed.

Lemma Contains_byte_false (s : gostring) (c : ascii) :
  Forall (fun x => x <> c) s -> Contains s [c] = false.
Proof. intros Hs. unfold Contains. by rewrite Index_byte_None. Qed.

Lemma unescape_path_plain (s : gostring) :
  Forall (fun c => c <> url.percent) s -> url.unescape s url.encodePath = Some s.
Proof.
  induction 1 as [|c s Hp Hs IH]; [done|].
  cbn [url.unescape]. rewrite bool_decide_eq_false_2 by done.
  cbn [url.encoding_eqb orb andb]. rewrite IH. by destruct (bool_decide (c = "+"%char)).
Qed.

Lemma escape_fixed (s : gostring) (mode : url.encoding) :
  Forall (fun c => c <> url.percent) s -> url.escape s mode = s ->
  Forall (fun c => url.shouldEscape c mode = false) s.
Proof.
  induction 1 as [|c s Hp Hs IH]; [constructor|].
  unfold url.escape in *. cbn [flat_map]. unfold url.escape_byte at 1.
  destruct (bool_decide (c = " "%char) && url.encoding_eqb mode url.encodeQueryComponent) eqn:Hsp.
  { apply andb_true_iff in Hsp as [->%bool_decide_eq_true _]. by intros [= ?]. }
  destruct (url.shouldEscape c mode) eqn:He.
  { intros [= ? _]. by destruct Hp. }
  intros [= Heq]. constructor; [done | by apply IH].
Qed.

Lemma escape_byte_no_colon c :
  c <> ":"%char -> Forall (fun x => x <> ":"%char) (url.escape_byte c url.encodePath).
Proof. by_bytes c; intros; repeat constructor; congruence. Qed.

Lemma escape_no_colon s :
  Forall (fun x => x <> ":"%char) s -> Forall (fun x => x <> ":"%char) (url.escape s url.encodePath).
Proof.
  induction 1 as [|c s Hc Hs IH]; [constructor|].
  unfold url.escape in *. cbn [flat_map]. apply Forall_app. split; [by apply escape_byte_no_colon | done].
Qed.

Lemma reference_byte_facts c :
  reference_byte c = true ->
  c <> url.percent /\ c <> "?"%char /\ c <> "#"%char /\ c <> ":"%char
  /\ ((byte c <? 32) || (byte c =? 127)) = false.
Proof. by_bytes c; intros; split_and!; congruence. Qed.

Ltac reference_facts H :=
  eapply Forall_impl; [exact H|];
  let c := fresh "c" in let Hc := fresh "Hc" in
  intros c Hc; simpl; destruct (reference_byte_facts c Hc) as (? & ? & ? & ? & ?);
  done.

Lemma first_segment_no_colon (path : gostring) :
  Forall (fun c => c <> ":"%char) path -> Contains (Cut path (go "/")).1.1 (go ":") = false.
Proof.
  intros Hp. apply Contains_byte_false. unfold Cut. destruct (Index path (go "/")); simpl; [|done].
  by apply Forall_take.
Qed.

(** The path a reference prints with. *)
Lemma EscapedPath_reference path omit force query :
  Forall (fun c => c <> url.percent) path ->
  url.setPath path = Some (path, if bool_decide (path = url.escape path url.encodePath) then [] else path)
  /\ url.EscapedPath (url.mkURL [] [] None [] path
       (if bool_decide (path = url.escape path url.encodePath) then [] else path)
       omit force query [] [])
     = if url.validEncoded path url.encodePath then path else url.escape path url.encodePath.
Proof.
  intros Hp. split.
  { unfold url.setPath. by rewrite unescape_path_plain. }
  unfold url.EscapedPath. cbn [url.RawPath url.Path].
  destruct (bool_decide (path = url.escape path url.encodePath)) eqn:Hesc;
    [apply bool_decide_eq_true in Hesc | apply bool_decide_eq_false in Hesc].
  - rewrite (bool_decide_eq_true_2 ([] = [])) by done. cbn [negb andb].
    assert (Hsafe : Forall (fun c => url.shouldEscape c url.encodePath = false) path)
      by by apply escape_fixed.
    assert (url.validEncoded path url.encodePath = true) as ->.
    { unfold url.validEncoded. apply forallb_forall. intros c Hc%list_elem_of_In.
      rewrite Forall_forall in Hsafe. rewrite (Hsafe c Hc). by rewrite !orb_true_r. }
    rewrite bool_decide_eq_false_2; [done|]. intros ->. by vm_compute in Hesc.
  - rewrite unescape_path_plain by done. rewrite (bool_decide_eq_true_2 (Some path = Some path)) by done.
    rewrite andb_true_r.
    destruct (url.validEncoded path url.encodePath) eqn:Hv.
    + rewrite bool_decide_eq_false_2; [done|]. intros ->. by apply Hesc.
    + rewrite andb_false_r. rewrite bool_decide_eq_false_2; [done|]. intros ->. by vm_compute in Hv.
Qed.

(** X10: a reference without scheme, authority, escape and fragment
    (no [%], [?], [#], [:] or control byte before its query, no leading
    [//]) keeps its query and has its path printed as it stands when the
    path is a valid encoding, and escaped byte by byte otherwise. *)
Theorem reference_normal_form (path : gostring) (query : option gostring) :
  forallb reference_byte path = true ->
  HasPrefix path (go "//") = false ->
  forallb query_byte (default [] query) = true ->
  let qs := match query with Some q => "?"%char :: q | None => [] end in
  urlEncode (path ++ qs)
  = (if url.validEncoded path url.encodePath then path else url.escape path url.encodePath) ++ qs.
Proof.
  intros Hp Hslash Hq qs.
  pose proof (forallb_Forall_true _ _ Hp) as Hp'. apply forallb_Forall_true in Hq.
  assert (Hcolon : Forall (fun c => c <> ":"%char) path) by reference_facts Hp'.
  assert (Hpct : Forall (fun c => c <> url.percent) path) by reference_facts Hp'.
  assert (Hqs : Forall (fun c => c <> "#"%char /\ ((byte c <? 32) || (byte c =? 127)) = false) qs).
  { unfold qs. destruct query as [q|]; [|constructor]. constructor; [by vm_compute|].
    eapply Forall_impl; [exact Hq|]. intros c Hc. simpl. unfold query_byte in Hc.
    apply andb_true_iff in Hc as [Hc1 Hc2]. apply negb_true_iff in Hc1.
    apply negb_true_iff, bool_decide_eq_false in Hc2. done. }
  assert (Hall : Forall (fun c => c <> "#"%char /\ ((byte c <? 32) || (byte c =? 127)) = false)
                   (path ++ qs)).
  { apply Forall_app. split; [|done]. reference_facts Hp'. }
  set (ep := if url.validEncoded path url.encodePath then path else url.escape path url.encodePath).
  assert (Hprint : forall u, url.parse (path ++ qs) = Some u ->
            url.Scheme u = [] -> url.Opaque u = [] -> url.User u = None -> url.Host u = [] ->
            url.EscapedPath u = ep ->
            url.ForceQuery u = bool_decide (query = Some []) -> url.RawQuery u = default [] query ->
            url.Fragment u = [] ->
            urlEncode (path ++ qs) = ep ++ qs).
  { intros u Hu Hsch Hop Hus Hho Hep Hfo Hra Hfr.
    unfold urlEncode, url.Parse, Cut. change (go "#") with ["#"%char].
    rewrite Index_byte_None by (eapply Forall_impl; [exact Hall|]; by intros c [? _]).
    rewrite Hu. cbn [mbind option_bind].
    unfold url.String. rewrite Hsch, Hop, Hus, Hho, Hep, Hfo, Hra, Hfr.
    change (url.nonempty []) with false. cbn [orb andb negb].
    rewrite (bool_decide_eq_false_2 (is_Some None)) by (by intros [? ?]).
    rewrite andb_false_r. cbn [app].
    assert (Hseg : Contains (Cut ep (go "/")).1.1 (go ":") = false).
    { apply first_segment_no_colon. unfold ep.
      destruct (url.validEncoded path url.encodePath); [done | by apply escape_no_colon]. }
    rewrite Hseg. cbn [app]. rewrite app_nil_r. f_equal.
    unfold qs. destruct query as [[|q0 q]|]; done. }
  destruct (decide (path ++ qs = go "*")) as [Hstar|Hstar].
  - assert (path = go "*" /\ query = None) as [-> ->].
    { destruct path as [|c [|c' p]]; [by destruct query | | done].
      destruct query; [done|]. unfold qs in Hstar. rewrite app_nil_r in Hstar. by injection Hstar as ->. }
    by vm_compute.
  - destruct (EscapedPath_reference path false (bool_decide (query = Some [])) (default [] query) Hpct)
      as [Hset Hep].
    apply (Hprint (url.mkURL [] [] None [] path
             (if bool_decide (path = url.escape path url.encodePath) then [] else path)
             false (bool_decide (query = Some [])) (default [] query) [] [])); try done.
    unfold url.parse.
    assert (url.stringContainsCTLByte (path ++ qs) = false) as ->.
    { unfold url.stringContainsCTLByte. apply not_true_iff_false. intros (c & Hin & Hc)%existsb_exists.
      apply list_elem_of_In in Hin. rewrite Forall_forall in Hall. destruct (Hall c Hin). congruence. }
    rewrite bool_decide_eq_false_2 by done.
    unfold url.getScheme. unfold qs at 2. rewrite getScheme_from_no_colon by done.
    unfold qs. rewrite split_query_web by reference_facts Hp'.
    change (map lower_byte []) with (@nil ascii).
    rewrite (bool_decide_eq_true_2 ([] = [])) by done. cbn [negb andb orb].
    rewrite andb_false_r. rewrite Hslash, andb_false_r.
    rewrite (first_segment_no_colon path Hcolon), andb_false_r. rewrite Hset. done.
Qed.

(** X11: a string with an ASCII control byte before its first [#] does
    not parse and is returned unchanged. *)
Theorem control_byte_kept (before after : gostring) (c : ascii) :
  Forall (fun x => x <> "#"%char) before ->
  (byte c <? 32) || (byte c =? 127) = true ->
  urlEncode (before ++ c :: after) = before ++ c :: after.
Proof.
  intros Hb Hc. unfold urlEncode.
  assert (Hparse : url.Parse (before ++ c :: after) = None); [|by rewrite Hparse].
  unfold url.Parse.
  assert (Hcut : exists u frag found, Cut (before ++ c :: after) (go "#") = (u, frag, found)
                   /\ url.stringContainsCTLByte u = true).
  { unfold Cut. change (go "#") with ["#"%char].
    destruct (Index (before ++ c :: after) ["#"%char]) as [i|] eqn:Hi.
    - do 3 eexists. split; [done|].
      apply Index_Some in Hi as (Hpre & _ & Hfirst).
      assert (length before < i)%nat.
      { destruct (decide (length before < i)%nat); [done|]. exfalso.
        destruct Hpre as [t Ht].
        assert (Hlk : (before ++ c :: after) !! i = Some "#"%char).
        { rewrite <- (Nat.add_0_r i), <- lookup_drop, Ht. done. }
        destruct (decide (i = length before)) as [->|].
        - rewrite list_lookup_middle in Hlk by done. injection Hlk as ->. by vm_compute in Hc.
        - rewrite lookup_app_l in Hlk by lia.
          apply list_elem_of_lookup_2 in Hlk. rewrite Forall_forall in Hb. by apply (Hb _ Hlk). }
      unfold url.stringContainsCTLByte. apply existsb_exists. exists c. split; [|done].
      apply list_elem_of_In. apply list_elem_of_lookup. exists (length before).
      rewrite lookup_take_lt by lia. by rewrite list_lookup_middle.
    - do 3 eexists. split; [done|].
      unfold url.stringContainsCTLByte. apply existsb_exists. exists c. split; [|done].
      apply in_or_app. right. by left. }
  destruct Hcut as (u & frag & found & -> & Hctl).
  unfold url.parse. by rewrite Hctl.
Qed.

Lemma web_url_normal_form_witness :
  urlEncode (web_url (go "HTTPS") (go "cdn.example.com") (go "/a/b.png") (Some (go "x=1&y=2")))
  = web_url (map lower_byte (go "HTTPS")) (go "cdn.example.com") (go "/a/b.png") (Some (go "x=1&y=2"))
  /\ urlEncode (urlEncode (web_url (go "HTTPS") (go "cdn.example.com") (go "/a/b.png")
                              (Some (go "x=1&y=2"))))
     = urlEncode (web_url (go "HTTPS") (go "cdn.example.com") (go "/a/b.png") (Some (go "x=1&y=2"))).
Proof. apply web_url_normal_form; by vm_compute. Defined.

Lemma reference_normal_form_witness :
  urlEncode (go "img/a b.png" ++ [])
  = (if url.validEncoded (go "img/a b.png") url.encodePath
     then go "img/a b.png" else url.escape (go "img/a b.png") url.encodePath) ++ [].
Proof. apply (reference_normal_form (go "img/a b.png") None); by vm_compute. Defined.

Lemma control_byte_kept_witness :
  urlEncode (go "a" ++ "009"%char :: go "b") = go "a" ++ "009"%char :: go "b".
Proof.
  apply (control_byte_kept (go "a") (go "b") "009"%char); [|by vm_compute].
  repeat constructor. done.
Defined.

(** ** Descriptions the cleaning leaves alone or shortens *)

Lemma Contains_false_occurs (s p : gostring) :
  Contains s p = false -> forall k, ¬ p `prefix_of` drop k s.
Proof.
  unfold Contains. intros Hc. apply Index_None.
  destruct (Index s p); [|done]. by rewrite bool_decide_eq_true_2 in Hc.
Qed.

Lemma Contains_byte_Forall (s : gostring) (c : ascii) :
  Contains s [c] = false -> Forall (fun x => x <> c) s.
Proof.
  intros Hc. apply Forall_lookup. intros i x Hi ->.
  apply (Contains_false_occurs _ _ Hc i).
  apply take_drop_middle in Hi. rewrite <- Hi, drop_app_length'. 
  - by exists (drop (S i) s).
  - rewrite length_take. apply (f_equal length) in Hi. rewrite length_app, length_take in Hi.
    simpl in Hi. lia.
Qed.

Lemma search_no_first re c prev pos s :
  Forall (fun x => x <> c) s -> regexp.search (regexp.Lit c :: re) prev pos s = None.
Proof.
  intros Hs. revert prev pos. induction Hs as [|x s Hx Hs IH]; intros prev pos; rewrite search_unfold.
  - done.
  - cbn [regexp.run]. rewrite bool_decide_eq_false_2 by done. apply IH.
Qed.

Lemma search_no_second re c0 c prev pos s :
  Forall (fun x => x <> c) s -> regexp.search (regexp.Lit c0 :: regexp.Lit c :: re) prev pos s = None.
Proof.
  intros Hs. revert prev pos. induction Hs as [|x s Hx Hs IH]; intros prev pos; rewrite search_unfold.
  - done.
  - cbn [regexp.run]. destruct (bool_decide (x = c0)).
    + destruct Hs as [|y s Hy Hs]; [apply IH|]. rewrite bool_decide_eq_false_2 by done. apply IH.
    + apply IH.
Qed.

Lemma ReplaceAll_no_match re ngroups text template :
  regexp.search re None 0 text = None ->
  regexp.ReplaceAllString re ngroups text template = text.
Proof.
  intros Hs. unfold regexp.ReplaceAllString, regexp.FindAll. cbn [regexp.find_all].
  unfold regexp.search_at. rewrite drop_0. cbn [regexp.prev_at]. by rewrite Hs.
Qed.

Lemma collapse_fixed b s :
  Forall (fun c => regexp.space c = true -> c = " "%char) s ->
  (forall k, ¬ go "  " `prefix_of` drop k s) ->
  (b = true -> match s with c :: _ => regexp.space c = false | [] => True end) ->
  collapse b s = s.
Proof.
  intros Hs. revert b. induction Hs as [|c s Hc Hs IH]; intros b Hdouble Hb; [done|].
  cbn [collapse]. destruct (regexp.space c) eqn:Hsp.
  - destruct b; [specialize (Hb eq_refl); simpl in Hb; congruence|]. rewrite Hc by done. f_equal. apply IH.
    + intros k. apply (Hdouble (S k)).
    + intros _. destruct s as [|c' s]; [done|]. destruct (regexp.space c') eqn:Hsp'; [|done].
      exfalso. apply (Hdouble 0%nat). inversion Hs as [|? ? Hc' _]; subst.
      rewrite Hc, Hc' by done. by exists s.
  - f_equal. apply IH; [|done]. intros k. apply (Hdouble (S k)).
Qed.

Lemma cut_footers_absent d ps :
  Forall (fun p => Contains d p = false) ps -> foldl cut_footer d ps = d.
Proof.
  induction 1 as [|p ps Hp Hps IH]; [done|].
  cbn [foldl]. unfold cut_footer at 2. by rewrite Hp.
Qed.

(** X12: a description without an opening bracket, with single spaces as
    its only pattern whitespace, with nothing to trim and without footer
    text is returned unchanged. *)
Theorem cleanDescription_plain (desc : gostring) :
  plain_description desc -> cleanDescription desc = desc.
Proof.
  intros (Hbr & Hsp & Hdb & Htrim & Hfoot).
  pose proof (Contains_byte_Forall desc "["%char Hbr) as Hb.
  unfold cleanDescription.
  rewrite (ReplaceAll_no_match re.link) by (by apply search_no_first).
  rewrite (ReplaceAll_no_match re.image_nocapture) by (by apply search_no_second).
  rewrite ReplaceAll_spaces, collapse_fixed; [| | by apply Contains_false_occurs | done].
  2:{ apply forallb_Forall_true in Hsp. eapply Forall_impl; [exact Hsp|]. intros c Hc Hs.
      simpl in Hc. rewrite Hs in Hc. by apply bool_decide_eq_true in Hc. }
  rewrite Htrim, cut_footers_absent; [done|].
  apply forallb_Forall_true in Hfoot. eapply Forall_impl; [exact Hfoot|].
  intros p Hp. simpl in Hp. by apply negb_true_iff in Hp.
Qed.

Lemma cleanDescription_plain_witness :
  plain_description (go "Throws a cloud.")
  /\ cleanDescription (go "Throws a cloud.") = go "Throws a cloud.".
Proof.
  assert (Hp : plain_description (go "Throws a cloud.")) by (split_and!; by vm_compute).
  split; [exact Hp | exact (cleanDescription_plain _ Hp)].
Defined.

(** A match lies in the text that was searched. *)
Lemma run_bounds re prev pos s st e st' :
  regexp.run re prev pos s st = Some (e, st') -> (pos <= e <= pos + length s)%nat.
Proof.
  revert prev pos s st. induction re as [|it re IH]; intros prev pos s st.
  - simpl. intros [= <- <-]. lia.
  - cbn [regexp.run]. destruct it as [c|p|greedy min p|g|g|multi|multi].
    + destruct s as [|x s]; [done|]. destruct (bool_decide (x = c)); [|done].
      intros Hr%IH. simpl. lia.
    + destruct s as [|x s]; [done|]. destruct (p x); [|done].
      intros Hr%IH. simpl. lia.
    + intros (n & prev' & Hn & _ & Hr%IH)%rep_inv. rewrite length_drop in Hr. lia.
    + apply IH.
    + apply IH.
    + destruct (regexp.at_bol multi prev); [apply IH | done].
    + destruct (regexp.at_eol multi s); [apply IH | done].
Qed.

Lemma search_at_bounds re text pos b e st :
  regexp.search_at re text pos = Some (b, e, st) ->
  (pos <= b <= e)%nat /\ (e <= pos + (length text - pos))%nat.
Proof.
  unfold regexp.search_at.
  intros (n & prev' & Hn & -> & Hr%run_bounds)%search_inv.
  rewrite !length_drop in *. lia.
Qed.

Lemma length_slice (text : gostring) (b e : nat) :
  (length (slice text b e) <= e - b)%nat /\ (length (slice text b e) <= length text - b)%nat.
Proof. unfold slice. rewrite length_take, length_drop. lia. Qed.

(** Replacing matches by text that is no longer than the match does not
    lengthen the text. *)
Lemma replace_matches_length re ngroups template text :
  (forall p b e st, regexp.search_at re text p = Some (b, e, st) ->
     (length (regexp.expand template (regexp.submatches text ngroups (b, e, st))) <= e - b)%nat) ->
  forall fuel pos0 pos, (pos0 <= pos)%nat ->
    (length (regexp.replace_matches text ngroups template pos0 (regexp.find_all fuel re text pos))
     <= length text - pos0)%nat.
Proof.
  intros Hexp. induction fuel as [|fuel IH]; intros pos0 pos H0.
  - simpl. rewrite length_drop. lia.
  - cbn [regexp.find_all]. destruct (regexp.search_at re text pos) as [[[b e] st]|] eqn:Hs.
    2:{ simpl. rewrite length_drop. lia. }
    destruct (search_at_bounds _ _ _ _ _ _ Hs) as [Hbe He].
    cbn [regexp.replace_matches]. rewrite !length_app.
    destruct (length_slice text pos0 b). pose proof (Hexp _ _ _ _ Hs).
    specialize (IH e (if (e =? b)%nat then S e else e)).
    destruct (e =? b)%nat; lia.
Qed.

Lemma ReplaceAll_length re ngroups template text :
  (forall p b e st, regexp.search_at re text p = Some (b, e, st) ->
     (length (regexp.expand template (regexp.submatches text ngroups (b, e, st))) <= e - b)%nat) ->
  (length (regexp.ReplaceAllString re ngroups text template) <= length text)%nat.
Proof.
  intros Hexp. unfold regexp.ReplaceAllString, regexp.FindAll.
  pose proof (replace_matches_length re ngroups template text Hexp (S (length text)) 0 0). lia.
Qed.

Lemma L2_state prev pos s st e st' : L2 prev pos s st = Some (e, st') -> st' = st /\ (pos <= e)%nat.
Proof.
  intros Hr. split; [|unfold L2 in Hr; apply run_bounds in Hr; lia].
  unfold L2 in Hr. cbn [regexp.lits go list_ascii_of_string map app regexp.run] in Hr.
  destruct s as [|c0 [|c1 s]]; try done; repeat case_bool_decide; try done.
  apply rep_inv in Hr as (n & prev' & _ & _ & Hr). simpl in Hr.
  destruct (drop n s); [done|]. case_bool_decide; [|done]. by injection Hr as _ ->.
Qed.

Lemma link_group text p b e st :
  regexp.search_at re.link text p = Some (b, e, st) ->
  exists gb ge, group1 st = Some (gb, ge) /\ (b <= gb)%nat /\ (ge <= e)%nat.
Proof.
  unfold regexp.search_at. intros (n & prev' & _ & -> & Hr)%search_inv.
  assert (Hrun : forall prev pos s st0,
    regexp.run re.link prev pos s st0 =
    match s with
    | c0 :: s1 =>
      if bool_decide (c0 = "["%char)
      then regexp.rep true (regexp.isnt "]"%char)
             (fun prev pos s st => L2 prev pos s (regexp.close_group 1 pos st))
             s1 1 (Some c0) (S pos) (regexp.open_group 1 (S pos) st0)
      else None
    | [] => None
    end).
  { intros prev pos s st0. by destruct s. }
  rewrite Hrun in Hr. destruct (drop n (drop p text)) as [|c0 s1]; [done|].
  case_bool_decide; [|done].
  apply rep_inv in Hr as (k & prev'' & _ & _ & Hr).
  apply L2_state in Hr as [-> Hle].
  exists (S (p + n)), (S (p + n) + k)%nat. split; [apply group1_open_close | lia].
Qed.

(** X13: a cleaned description is never longer than the description. *)
Theorem cleanDescription_length (desc : gostring) :
  (length (cleanDescription desc) <= length desc)%nat.
Proof.
  assert (Htrim : forall s, (length (TrimSpace s) <= length s)%nat).
  { intros s. destruct (TrimSpace_infix s) as (a & b & ->). rewrite length_take, length_drop. lia. }
  assert (Hcut : forall ps d, (length (foldl cut_footer d ps) <= length d)%nat).
  { induction ps as [|p ps IH]; intros d; simpl; [lia|].
    etransitivity; [apply IH|]. rewrite cut_footer_step.
    destruct (Index d p) as [[|k]|]; try lia. rewrite length_take. lia. }
  unfold cleanDescription.
  etransitivity; [apply Htrim|]. etransitivity; [apply Hcut|]. etransitivity; [apply Htrim|].
  etransitivity; [apply ReplaceAll_length|].
  { intros p b e st Hs. change (regexp.expand _ _) with [" "%char]. simpl.
    unfold regexp.search_at in Hs. rewrite search_spaces in Hs.
    destruct (_ <? _)%nat eqn:Hlt; [|done]. apply Nat.ltb_lt in Hlt. injection Hs as <- <- _.
    pose proof (space_run_pos _ Hlt). lia. }
  etransitivity; [apply ReplaceAll_length|].
  { intros p b e st Hs. simpl. lia. }
  apply ReplaceAll_length.
  intros p b e st Hs. destruct (link_group _ _ _ _ _ Hs) as (gb & ge & Hg & Hb & He).
  cbn [regexp.expand flat_map regexp.submatches map seq lookup list_lookup].
  unfold group1 in Hg. rewrite Hg. cbn [default from_option id]. rewrite app_nil_r.
  destruct (length_slice desc gb ge). lia.
Qed.

(** ** Title-case words *)

Lemma Decode_ascii c t : (byte c <? 128) = true -> utf8.DecodeRuneInString (c :: t) = (byte c, 1%nat).
Proof. intros Hc. unfold utf8.DecodeRuneInString. by rewrite Hc. Qed.

Lemma Fields_fuel_word w fuel rest cur :
  forallb word_byte w = true -> (length w <= fuel)%nat ->
  Fields_fuel fuel (w ++ rest) cur = Fields_fuel (fuel - length w) rest (cur ++ w).
Proof.
  revert fuel cur. induction w as [|c w IH]; intros fuel cur Hw Hf.
  - simpl. by rewrite Nat.sub_0_r, app_nil_r.
  - simpl in Hw. apply andb_true_iff in Hw as [Hc Hw].
    unfold word_byte in Hc. apply andb_true_iff in Hc as [Hc1 Hc2]. apply negb_true_iff in Hc2.
    destruct fuel as [|fuel]; [simpl in Hf; lia|].
    cbn [app Fields_fuel]. rewrite Decode_ascii by done. rewrite Hc2.
    cbn [drop take]. rewrite drop_0, take_0. rewrite IH by (done || simpl in Hf; lia).
    cbn [length Nat.sub]. by rewrite <- app_assoc.
Qed.

Lemma Fields_words words fuel :
  Forall (fun w => ascii_word w = true) words ->
  (length (Join words (go " ")) < fuel)%nat ->
  Fields_fuel fuel (Join words (go " ")) [] = words.
Proof.
  intros Hws. revert fuel. induction Hws as [|w words Hw Hws IH]; intros fuel Hf.
  - destruct fuel; done.
  - unfold ascii_word in Hw. apply andb_true_iff in Hw as [Hne Hw].
    assert (Hflush : match w with [] => [] | _ :: _ => [w] end = [w]) by by destruct w.
    destruct words as [|w2 words].
    + cbn [Join] in *. rewrite <- (app_nil_r w) at 1. rewrite Fields_fuel_word by (done || lia).
      rewrite app_nil_l. destruct (fuel - length w)%nat; simpl; done.
    + change (Join (w :: w2 :: words) (go " ")) with (w ++ " "%char :: Join (w2 :: words) (go " ")) in *.
      rewrite length_app in Hf. cbn [length] in Hf.
      rewrite Fields_fuel_word by (done || lia). rewrite app_nil_l.
      destruct (fuel - length w)%nat as [|fuel'] eqn:Hfuel; [lia|].
      cbn [Fields_fuel]. rewrite Decode_ascii by done.
      change (unicode.IsSpace (byte " "%char)) with true. cbn iota.
      cbn [drop]. rewrite drop_0. rewrite Hflush, IH by lia. done.
Qed.

(** X14: on ASCII words joined by single spaces, [allWordsTitleCase]
    holds exactly when every word starts with a byte in [A..Z]. *)
Theorem allWordsTitleCase_words (words : list gostring) :
  Forall (fun w => ascii_word w = true) words ->
  allWordsTitleCase (Join words (go " ")) = forallb starts_with_capital words.
Proof.
  intros Hws. unfold allWordsTitleCase, Fields. by rewrite Fields_words by (done || lia).
Qed.

Lemma allWordsTitleCase_words_witness :
  allWordsTitleCase (Join [go "Blade"; go "storm"] (go " "))
  = forallb starts_with_capital [go "Blade"; go "storm"].
Proof.
  apply allWordsTitleCase_words. repeat constructor.
Defined.

(** ** All-caps lines *)

Lemma upper_byte_fixed c : bool_decide (upper_byte c = c) = not_lower c.
Proof. by_bytes c. Qed.

Lemma map_upper_fixed line :
  bool_decide (map upper_byte line = line) = forallb not_lower line.
Proof.
  induction line as [|c line IH]; [done|]. cbn [map forallb].
  rewrite <- IH, <- upper_byte_fixed.
  destruct (decide (upper_byte c = c)) as [Hc|Hc]; destruct (decide (map upper_byte line = line)) as [Hl|Hl].
  - by rewrite !bool_decide_eq_true_2 by congruence.
  - rewrite (bool_decide_eq_false_2 (map upper_byte line = line)) by done.
    rewrite andb_false_r. apply bool_decide_eq_false. congruence.
  - rewrite (bool_decide_eq_false_2 (upper_byte c = c)) by done.
    apply bool_decide_eq_false. congruence.
  - rewrite (bool_decide_eq_false_2 (upper_byte c = c)) by done.
    apply bool_decide_eq_false. congruence.
Qed.

Section caps.
Context `{CaseMapping}.

(** X16: on an ASCII line the all-caps test holds exactly when the line
    is not empty and holds no lower-case letter: digits, spaces and
    punctuation pass it. *)
Theorem isAllCaps_ascii (line : gostring) :
  isASCII line = true ->
  isAllCaps line = nonempty line && forallb not_lower line.
Proof.
  intros Ha. unfold isAllCaps, ToUpper. rewrite Ha, map_upper_fixed.
  rewrite andb_comm. f_equal. by destruct line.
Qed.
End caps.

Lemma isAllCaps_ascii_witness :
  @isAllCaps ascii_case (go "X-RAY 2!") = nonempty (go "X-RAY 2!") && forallb not_lower (go "X-RAY 2!").
Proof. apply (@isAllCaps_ascii ascii_case). by vm_compute. Defined.

(** ** Reading the agent files *)

Section readAgentFiles_facts.
Context `{CaseMapping}.
Variable error : Type.
Variable ReadDir : gostring -> list os.FileInfo + error.
Variable ReadFile : gostring -> gostring + error.
Variable filepath_Join : gostring -> gostring -> gostring.
Variable Unmarshal_Markdown : gostring -> gostring + error.

Local Abbreviation step := (readAgentFiles_step error ReadFile filepath_Join Unmarshal_Markdown).
Local Abbreviation read_from := (read_from error ReadFile filepath_Join Unmarshal_Markdown).

Lemma readAgentFiles_fold dir files st :
  let st' := foldl (step dir) st files in
  (forall k, is_Some (st.1 !! k) -> is_Some (st'.1 !! k))
  /\ (forall k a, st'.1 !! k = Some a ->
        st.1 !! k = Some a
        \/ (Agent.Name a = k /\ k <> [] /\ read_from dir files a))
  /\ (length st'.2 <= length st.2 + length files)%nat.
Proof.
  cbv zeta. revert st. induction files as [|file files IH]; intros st.
  - simpl. split_and!; [done | by left | lia].
  - cbn [foldl]. destruct (IH (step dir st file)) as (Hdom & Hin & Hlen).
    assert (Hstep :
      (forall k, is_Some (st.1 !! k) -> is_Some ((step dir st file).1 !! k))
      /\ (forall k a, (step dir st file).1 !! k = Some a ->
            st.1 !! k = Some a \/ (Agent.Name a = k /\ k <> [] /\ read_from dir [file] a))
      /\ (length (step dir st file).2 <= length st.2 + 1)%nat).
    { destruct st as [agents stderr]. unfold readAgentFiles_step.
      destruct (os.IsDir file) eqn:Hd; [simpl; split_and!; [done | by left | lia]|].
      destruct (HasSuffix (os.Name file) (go ".json")) eqn:Hs;
        [|simpl; split_and!; [done | by left | lia]].
      cbn [orb negb].
      destruct (ReadFile _) as [data|err] eqn:Hr.
      2:{ simpl. rewrite length_app. simpl. split_and!; [done | by left | lia]. }
      destruct (Unmarshal_Markdown data) as [markdown|err] eqn:Hu.
      2:{ simpl. rewrite length_app. simpl. split_and!; [done | by left | lia]. }
      destruct (nonempty (Agent.Name (parseMarkdown markdown))) eqn:Hn;
        [|simpl; split_and!; [done | by left | lia]].
      cbn [fst snd]. split_and!; [| |lia].
      - intros k Hk. destruct (decide (Agent.Name (parseMarkdown markdown) = k)) as [->|Hne].
        + rewrite lookup_insert_eq. by eexists.
        + by rewrite lookup_insert_ne.
      - intros k a. destruct (decide (Agent.Name (parseMarkdown markdown) = k)) as [<-|Hne].
        + rewrite lookup_insert_eq. intros [= <-]. right. split_and!; [done | |].
          * unfold nonempty in Hn. apply negb_true_iff in Hn. by apply bool_decide_eq_false in Hn.
          * exists file, data, markdown. split_and!; try done. by apply list_elem_of_singleton.
        + rewrite lookup_insert_ne by done. by left. }
    destruct Hstep as (Hdom1 & Hin1 & Hlen1).
    split_and!.
    + intros k Hk. by apply Hdom, Hdom1.
    + intros k a Hk. destruct (Hin k a Hk) as [Hst|(Hname & Hne & file' & data & md & Hf & Hrest)].
      * destruct (Hin1 k a Hst) as [?|(Hname & Hne & file' & data & md & Hf & Hrest)]; [by left|].
        right. split_and!; [done | done|]. exists file', data, md. split; [|done].
        apply list_elem_of_singleton in Hf as ->. by left.
      * right. split_and!; [done | done|]. exists file', data, md. split; [by right | done].
    + simpl. lia.
Qed.

(** X15: when the directory cannot be listed [readAgentFiles] returns
    the error and changes nothing; otherwise it returns no error, removes
    no entry of the agents map, stores every new agent under its own
    name, which is not empty, each one parsed from the markdown of a
    readable, decodable [.json] entry that is no directory, and writes at
    most one warning per entry. *)
Theorem readAgentFiles_agents (dir : gostring) (agents : gmap gostring Agent.t) :
  match ReadDir dir, readAgentFiles error ReadDir ReadFile filepath_Join Unmarshal_Markdown dir agents with
  | inr err, (returned, agents', stderr) =>
      returned = Some err /\ agents' = agents /\ stderr = []
  | inl files, (returned, agents', stderr) =>
      returned = None
      /\ (forall k, is_Some (agents !! k) -> is_Some (agents' !! k))
      /\ (forall k a, agents' !! k = Some a ->
            agents !! k = Some a
            \/ (Agent.Name a = k /\ k <> [] /\ read_from dir files a))
      /\ (length stderr <= length files)%nat
  end.
Proof.
  unfold readAgentFiles. destruct (ReadDir dir) as [files|err]; [|done].
  destruct (readAgentFiles_fold dir files (agents, [])) as (Hdom & Hin & Hlen).
  destruct (foldl (step dir) (agents, []) files) as [agents' stderr].
  split_and!; done.
Qed.
End readAgentFiles_facts.
